(** * Fog Maze: a shallow embedding of the maze generator, the fog-of-war
      reveal operation and the FogMaze contract, with the properties of the
      specification proved (or refuted) against it.

    Sources embedded:
    - [frontend/maze.js]      classes [SeededRandom] and [MazeGenerator]
    - the game front ends     [startNewGame], [handleKeyPress], [isValidMove],
                              [revealArea], [isRevealed], [gameOver],
                              [calculateScore]; class [AddressUtils]
    - [contracts/FogMaze.sol] [generateSeed], [calculateScore], [submitRun],
                              [getRuns], [getBestScore], [getRunCount],
                              [getNextNonce], [incrementNonce]

    JavaScript numbers that the code uses as integers are modelled by [Z].
    Double precision arithmetic on integers is exact below 2^53: the update
    of the generator computes [1664525 * state + 1013904223] with
    [state < 2^32], which is below 2^53, and a draw among [n] values computes
    [state * n / 2^32], exact for [n < 2^21]. *)

From Stdlib Require Import ZArith Lia QArith Qround Qminmax Ascii String.
From stdpp Require Import base tactics option list relations gmap strings.

Local Open Scope Z_scope.

(** ** Outcomes of JavaScript code

    [Done a] is a normal return.  [TypeError] is the exception raised when a
    property of [undefined] is read (an array read out of range followed by
    [.x]).  [OutOfFuel] only says that the recursion budget handed to the
    model was too small; it is not a behaviour of the program. *)

Inductive Outcome (A : Type) : Type :=
| Done (a : A)
| TypeError
| OutOfFuel.
Arguments Done {A} a.
Arguments TypeError {A}.
Arguments OutOfFuel {A}.

Definition bind {A B : Type} (m : Outcome A) (k : A -> Outcome B) : Outcome B :=
  match m with
  | Done a => k a
  | TypeError => TypeError
  | OutOfFuel => OutOfFuel
  end.

Notation "'let*' x ':=' m 'in' k" := (bind m (fun x => k))
  (at level 10, x pattern, m at level 100, k at level 200).

(** A [for (const a of l)] loop whose body may fail, threading the state. *)
Fixpoint forOf {A S : Type} (body : S -> A -> Outcome S) (l : list A) (s : S)
  : Outcome S :=
  match l with
  | [] => Done s
  | a :: l' => let* s' := body s a in forOf body l' s'
  end.

(** ** JavaScript numbers

    A number is a double.  [roundDouble v] is the double nearest to the
    integer [v] (round to nearest, ties to even), for [|v| < 2^1024]: every
    integer below 2^53 in absolute value is a double, and from there on a
    double has 53 significant bits.  The result of [+], [-] and [*] on two
    doubles is the double nearest to the exact result. *)

Definition roundDouble (v : Z) : Z :=
  let a := Z.abs v in
  if a <? 2 ^ 53 then v
  else
    let e := Z.log2 a - 52 in
    let q := a / 2 ^ e in
    let r := a mod 2 ^ e in
    let half := 2 ^ (e - 1) in
    let q' := if r <? half then q
              else if half <? r then q + 1
              else if Z.even q then q else q + 1 in
    Z.sgn v * (q' * 2 ^ e).

(** ** class SeededRandom *)

Module SeededRandom.

(** Value of one hexadecimal digit, as [parseInt(_, 16)] reads it. *)
Definition hexDigit (c : ascii) : option Z :=
  let n := Z.of_N (N_of_ascii c) in
  if (48 <=? n) && (n <=? 57) then Some (n - 48)
  else if (97 <=? n) && (n <=? 102) then Some (n - 87)
  else if (65 <=? n) && (n <=? 70) then Some (n - 55)
  else None.

(** [parseInt(s, 16)] on a string of hexadecimal digits: the longest prefix
    of digits is read; [None] stands for [NaN] (no digit at all). *)
Fixpoint parseDigits (s : string) (acc : option Z) : option Z :=
  match s with
  | EmptyString => acc
  | String c s' =>
      match hexDigit c with
      | Some d => parseDigits s' (Some (16 * default 0 acc + d))
      | None => acc
      end
  end.

Definition parseInt16 (s : string) : option Z := parseDigits s None.

(** The seeds the constructor is documented for ("Hex seed from
    blockchain"): hexadecimal digits, with or without the prefix [0x]. *)
Fixpoint allHex (s : string) : bool :=
  match s with
  | EmptyString => true
  | String c s' => bool_decide (is_Some (hexDigit c)) && allHex s'
  end.

Definition stripPrefix (seed : string) : string :=
  if String.prefix "0x" seed
  then String.substring 2 (String.length seed - 2) seed
  else seed.

Definition hexSeed (seed : string) : bool := allHex (stripPrefix seed).

(** [constructor(seed)]: the initial state.
    [parseInt(seedStr.slice(0, 8), 16) || 1]: [NaN] and [0] both give 1. *)
Definition constructor (seed : string) : Z :=
  let seedStr := stripPrefix seed in
  match parseInt16 (String.substring 0 8 seedStr) with
  | Some 0 | None => 1
  | Some n => n
  end.

Definition a : Z := 1664525.
Definition c : Z := 1013904223.
Definition m : Z := 2 ^ 32.

(** [next()]: the new state; the number returned is [state / m].
    JavaScript's [%] takes the sign of the dividend, as [Z.rem] does. *)
Definition next (state : Z) : Z := Z.rem (a * state + c) m.

(** [nextInt(min, max)]: [Math.floor(next() * (max - min)) + min], paired
    with the new state.  [state / m * (max - min)] is computed exactly as
    long as [state * (max - min) < 2^53], so its floor is the integer
    quotient; [max - min] and the sum with [min] are exact as long as
    [min] and [max] are at most 2^52 in absolute value.  The definition is
    the function on that domain: [max - min <= 2^21], [|min|, |max| <= 2^52],
    which holds the draws of the generator (from 0, among at most the
    cells of a grid). *)
Definition nextInt (state min max : Z) : Z * Z :=
  let state' := next state in
  ((state' * (max - min)) / m + min, state').

(** [[arr[i], arr[j]] = [arr[j], arr[i]]].  Both reads happen first.  The
    indices are inside the array whenever the state is a 32-bit value. *)
Definition swap {A : Type} (i j : nat) (arr : list A) : list A :=
  match arr !! i, arr !! j with
  | Some ai, Some aj => <[j := ai]> (<[i := aj]> arr)
  | _, _ => arr
  end.

(** The loop [for (let i = arr.length - 1; i > 0; i--)] of [shuffle],
    entered with the current value of [i], over the array [arr]. *)
Fixpoint shuffleLoop {A : Type} (i : nat) (arr : list A) (state : Z)
  : list A * Z :=
  match i with
  | O => (arr, state)
  | S i' =>
      let '(j, state') := nextInt state 0 (Z.of_nat i + 1) in
      shuffleLoop i' (swap i (Z.to_nat j) arr) state'
  end.

(** [shuffle(array)] as its callers see it: the returned array and the new
    state.  The argument is only read. *)
Definition shuffle {A : Type} (array : list A) (state : Z) : list A * Z :=
  let arr := array in
  shuffleLoop (length arr - 1) arr state.

(** [shuffle] over a store of arrays, to follow what is allocated and what
    is written.  Arrays live in a heap indexed by references; the
    argument is a reference. *)
Section Store.
Context {A : Type}.

Abbreviation Heap := (gmap positive (list A)).

Fixpoint shuffleLoopAt (i : nat) (arr : positive) (h : Heap) (state : Z)
  : Heap * Z :=
  match i with
  | O => (h, state)
  | S i' =>
      let '(j, state') := nextInt state 0 (Z.of_nat i + 1) in
      shuffleLoopAt i' arr (alter (swap i (Z.to_nat j)) arr h) state'
  end.

(** [const arr = [...array]] allocates a new array; the swaps are done in
    place on [arr]; [arr] is returned.  Reading a reference that is not
    allocated is a [TypeError]. *)
Definition shuffleAt (array : positive) (h : Heap) (state : Z)
  : Outcome (positive * Heap * Z) :=
  match h !! array with
  | None => TypeError
  | Some elems =>
      let arr := fresh (dom h) in
      let h1 := <[arr := elems]> h in
      let '(h2, state') := shuffleLoopAt (length elems - 1) arr h1 state in
      Done (arr, h2, state')
  end.
End Store.

End SeededRandom.

(** ** Arrays of arrays ([this.grid], [this.visited])

    [a[y][x]] is [None] ([undefined]) outside the array; [a[y][x] = v] is only
    executed by the program at indices inside it. *)

Definition nthZ {A : Type} (l : list A) (k : Z) : option A :=
  if 0 <=? k then l !! Z.to_nat k else None.

Definition at2 {A : Type} (a : list (list A)) (x y : Z) : option A :=
  match nthZ a y with
  | Some row => nthZ row x
  | None => None
  end.

Definition set2 {A : Type} (a : list (list A)) (x y : Z) (v : A) : list (list A) :=
  if (0 <=? x) && (0 <=? y)
  then alter (fun row => <[Z.to_nat x := v]> row) (Z.to_nat y) a
  else a.

(** The values of [for (let k = start; k < stop; k += step)], [step > 0]. *)
Definition forRange (start stop step : Z) : list Z :=
  (fun k => start + step * k) <$> seqZ 0 ((stop - start + step - 1) / step).

(** ** class MazeGenerator *)

Module MazeGenerator.

(** Cell codes of the grid. *)
Definition WALL : Z := 0.
Definition PATH : Z := 1.
Definition START : Z := 2.
Definition EXIT : Z := 3.

(** The fields of a generator while it carves.  [startX], [startY],
    [exitX], [exitY] are assigned last and are returned with the state by
    [pickStartAndExit]. *)
Record t : Type := mk {
  size : Z;
  level : Z;
  prng : Z;
  gridSize : Z;
  grid : list (list Z);
  visited : list (list bool);
}.

Definition set_prng (self : t) (p : Z) : t :=
  mk (size self) (level self) p (gridSize self) (grid self) (visited self).
Definition set_grid (self : t) (g : list (list Z)) : t :=
  mk (size self) (level self) (prng self) (gridSize self) g (visited self).
Definition set_visited (self : t) (v : list (list bool)) : t :=
  mk (size self) (level self) (prng self) (gridSize self) (grid self) v.

(** What a finished generator exposes: [getMaze()], [getStart()],
    [getExit()]; positions are the pairs [(x, y)]. *)
Record Maze : Type := mkMaze {
  maze : list (list Z);
  start : Z * Z;
  exit : Z * Z;
}.

(** N, E, S, W as [(dx, dy)]. *)
Definition directions : list (Z * Z) := [(0, -1); (1, 0); (0, 1); (-1, 0)].

Definition isValidCell (self : t) (x y : Z) : bool :=
  (0 <=? x) && (x <? size self) && (0 <=? y) && (y <? size self).

Definition isValid (self : t) (x y : Z) : bool :=
  (0 <=? x) && (x <? gridSize self) && (0 <=? y) && (y <? gridSize self).

(** [this.grid[y][x] === v] *)
Definition gridIs (self : t) (x y v : Z) : bool :=
  bool_decide (at2 (grid self) x y = Some v).

(** [this.visited[y][x]] as a condition ([undefined] is falsy). *)
Definition isVisited (self : t) (x y : Z) : bool :=
  default false (at2 (visited self) x y).

(** The body of the loop [for (const dir of shuffled)] of
    [recursiveBacktrack(cellX, cellY)]; [recurse] is the recursive call. *)
Definition carveStep (recurse : t -> Z -> Z -> Outcome t) (cellX cellY : Z)
           (self : t) (dir : Z * Z) : Outcome t :=
  let '(dx, dy) := dir in
  let gx := cellX * 2 + 1 in
  let gy := cellY * 2 + 1 in
  let nx := cellX + dx in
  let ny := cellY + dy in
  if isValidCell self nx ny && negb (isVisited self nx ny)
  then
    let wallX := gx + dx in
    let wallY := gy + dy in
    let self := set_grid self (set2 (grid self) wallX wallY PATH) in
    recurse self nx ny
  else Done self.

Fixpoint recursiveBacktrack (fuel : nat) (self : t) (cellX cellY : Z)
  : Outcome t :=
  match fuel with
  | O => OutOfFuel
  | S fuel' =>
      let self := set_visited self (set2 (visited self) cellX cellY true) in
      let gx := cellX * 2 + 1 in
      let gy := cellY * 2 + 1 in
      let self := set_grid self (set2 (grid self) gx gy PATH) in
      let '(shuffled, p) := SeededRandom.shuffle directions (prng self) in
      let self := set_prng self p in
      forOf (carveStep (recursiveBacktrack fuel') cellX cellY) shuffled self
  end.

Definition getWalls (self : t) (x y : Z) : list (Z * Z) :=
  List.filter (fun '(nx, ny) => isValid self nx ny && gridIs self nx ny 0)
              ((fun '(dx, dy) => (x + dx, y + dy)) <$> directions).

(** [this.grid[ny][nx] >= 1]; [undefined >= 1] is false. *)
Definition countNeighborPaths (self : t) (x y : Z) : Z :=
  Z.of_nat (length
    (List.filter (fun '(nx, ny) =>
                    isValid self nx ny &&
                    match at2 (grid self) nx ny with
                    | Some v => 1 <=? v
                    | None => false
                    end)
                 ((fun '(dx, dy) => (x + dx, y + dy)) <$> directions))).

(** The cells the two nested loops of [findDeadEnds] push, in order: both
    loops run up to [this.size]. *)
Definition scanDeadEnds (self : t) : list (Z * Z) :=
  List.filter (fun '(x, y) => gridIs self x y 1 &&
                              (countNeighborPaths self x y =? 1))
    (concat ((fun y => (fun x => (x, y)) <$> seqZ 0 (size self))
             <$> seqZ 0 (size self))).

Definition findDeadEnds (self : t) : list (Z * Z) * t :=
  let deadEnds := scanDeadEnds self in
  let '(shuffled, p) := SeededRandom.shuffle deadEnds (prng self) in
  (shuffled, set_prng self p).

(** The body of the loop of [addBraiding], for the index [i]. *)
Definition braidStep (deadEnds : list (Z * Z)) (self : t) (i : Z) : Outcome t :=
  match nthZ deadEnds i with
  | None => TypeError
  | Some (x, y) =>
      let walls := getWalls self x y in
      if 0 <? Z.of_nat (length walls)
      then
        let '(k, p) := SeededRandom.nextInt (prng self) 0
                         (Z.of_nat (length walls)) in
        let self := set_prng self p in
        match nthZ walls k with
        | None => TypeError
        | Some (wx, wy) => Done (set_grid self (set2 (grid self) wx wy PATH))
        end
      else Done self
  end.

(** [factor] is a rational: [Math.floor(deadEnds.length * factor)]. *)
Definition addBraiding (self : t) (factor : Q) : Outcome t :=
  let '(deadEnds, self) := findDeadEnds self in
  let numToRemove := Qfloor (inject_Z (Z.of_nat (length deadEnds)) * factor) in
  forOf (braidStep deadEnds) (seqZ 0 numToRemove) self.

Definition getEdgePathCells (self : t) (side : Z) : list (Z * Z) :=
  let gs := gridSize self in
  if side =? 0 then
    List.filter (fun '(x, y) => gridIs self x y 1)
                ((fun x => (x, 1)) <$> forRange 1 (gs - 1) 2)
  else if side =? 1 then
    List.filter (fun '(x, y) => gridIs self x y 1)
                ((fun y => (gs - 2, y)) <$> forRange 1 (gs - 1) 2)
  else if side =? 2 then
    List.filter (fun '(x, y) => gridIs self x y 1)
                ((fun x => (x, gs - 2)) <$> forRange 1 (gs - 1) 2)
  else if side =? 3 then
    List.filter (fun '(x, y) => gridIs self x y 1)
                ((fun y => (1, y)) <$> forRange 1 (gs - 1) 2)
  else [].

(** Returns the generator with the positions chosen for start and exit. *)
Definition pickStartAndExit (self : t) : Outcome (t * (Z * Z) * (Z * Z)) :=
  let '(side, p) := SeededRandom.nextInt (prng self) 0 4 in
  let self := set_prng self p in
  let startCells := getEdgePathCells self side in
  let* (self, startPos) :=
    if Z.of_nat (length startCells) =? 0
    then Done (self, (1, 1))
    else
      let '(k, p) := SeededRandom.nextInt (prng self) 0
                       (Z.of_nat (length startCells)) in
      match nthZ startCells k with
      | None => TypeError
      | Some s => Done (set_prng self p, s)
      end in
  let oppositeSide := Z.rem (side + 2) 4 in
  let exitCells := getEdgePathCells self oppositeSide in
  let* (self, exitPos) :=
    if Z.of_nat (length exitCells) =? 0
    then Done (self, (gridSize self - 2, gridSize self - 2))
    else
      let '(k, p) := SeededRandom.nextInt (prng self) 0
                       (Z.of_nat (length exitCells)) in
      match nthZ exitCells k with
      | None => TypeError
      | Some e => Done (set_prng self p, e)
      end in
  Done (self, startPos, exitPos).

(** [generate()].  [Math.min(level * 0.05, 0.3)] is taken over the
    rationals; for every integer [level >= 1] and every array length the
    floor that [addBraiding] takes of [length * factor] is the same in
    double precision: [level * 0.05] rounds to a double at or above the
    rational for [level <= 5] and above [0.3] from [level = 6] on, and the
    double [0.3] is within [2^-54] (relative) of 3/10. *)
Definition generate (fuel : nat) (self : t) : Outcome Maze :=
  let startCellX := size self / 2 in
  let startCellY := size self / 2 in
  let* self := recursiveBacktrack fuel self startCellX startCellY in
  let braidFactor := Qmin (inject_Z (level self) * (5 # 100)) (3 # 10) in
  let* self := addBraiding self braidFactor in
  let* (self, (startX, startY), (exitX, exitY)) := pickStartAndExit self in
  let g := set2 (grid self) startX startY START in
  let g := set2 g exitX exitY EXIT in
  Done (mkMaze g (startX, startY) (exitX, exitY)).

(** The fields as the constructor initialises them, before it calls
    [generate()]. *)
Definition initial (seed : string) (size level : Z) : t :=
  let prng := SeededRandom.constructor seed in
  let gridSize := size * 2 + 1 in
  let grid := replicate (Z.to_nat gridSize) (replicate (Z.to_nat gridSize) 0) in
  let visited := replicate (Z.to_nat size) (replicate (Z.to_nat size) false) in
  mk size level prng gridSize grid visited.

(** [new MazeGenerator(seed, size, level)]: the fields are initialised and
    [generate()] runs.  [fuel] bounds the depth of the recursion of
    [recursiveBacktrack]; the stack limit of a JavaScript engine is not
    modelled. *)
Definition new (fuel : nat) (seed : string) (size level : Z) : Outcome Maze :=
  generate fuel (initial seed size level).

End MazeGenerator.

(** ** The game front ends: [FogMazeGame] and [DemoGame]

    The two classes define [isValidMove], [revealArea], [isRevealed] and
    [calculateScore] statement for statement alike; one embedding serves
    both. *)

Module Game.

(** [this.revealed] is a [Set] of the strings [`${x},${y}`].  A key is
    modelled by the pair of numbers it prints; two keys are the same string
    exactly when the numbers are equal.  The vision radius of a level may be
    a fraction ([vision: 1.5] in [LEVEL_CONFIG]), so the numbers are
    rationals.  The set keeps insertion order and no duplicates. *)
Definition Key : Type := (Q * Q)%type.

Definition sameKey (k1 k2 : Key) : bool :=
  Qeq_bool (fst k1) (fst k2) && Qeq_bool (snd k1) (snd k2).

Definition has (s : list Key) (k : Key) : bool := existsb (sameKey k) s.

Definition add (s : list Key) (k : Key) : list Key :=
  if has s k then s else s ++ [k].

Record t : Type := mk {
  maze : list (list Z);
  exitPos : Z * Z;
  playerPos : Z * Z;
  revealed : list Key;
}.

Definition set_revealed (self : t) (r : list Key) : t :=
  mk (maze self) (exitPos self) (playerPos self) r.

(** The values of [for (let v = lo; v <= hi; v++)]. *)
Definition forUpTo (lo hi : Q) : list Q :=
  (fun k => lo + inject_Z k)%Q <$> seqZ 0 (Qfloor (hi - lo) + 1).

(** [Math.sqrt(dx ** 2 + dy ** 2) <= radius], decided on the squares: the
    square root is monotone and [sqrt(radius ** 2)] is [radius] itself for
    [radius >= 0]. *)
Definition withinRadius (dx dy radius : Q) : bool :=
  Qle_bool 0 radius && Qle_bool (dx * dx + dy * dy) (radius * radius).

Definition revealArea (self : t) (cx cy : Z) (radius : Q) : t :=
  let len := inject_Z (Z.of_nat (length (maze self))) in
  let cxq := inject_Z cx in
  let cyq := inject_Z cy in
  let revealed := [] in
  let revealed :=
    add revealed (inject_Z (fst (exitPos self)), inject_Z (snd (exitPos self))) in
  let revealed :=
    fold_left (fun revealed y =>
      fold_left (fun revealed x =>
        if Qle_bool 0 x && negb (Qle_bool len x) &&
           Qle_bool 0 y && negb (Qle_bool len y)
        then
          if withinRadius (x - cxq) (y - cyq) radius
          then add revealed (x, y)
          else revealed
        else revealed)
        (forUpTo (cxq - radius) (cxq + radius)) revealed)
      (forUpTo (cyq - radius) (cyq + radius)) revealed in
  set_revealed self revealed.

Definition isRevealed (self : t) (x y : Z) : bool :=
  has (revealed self) (inject_Z x, inject_Z y).

(** [calculateScore(level, steps, timeTaken)] on integer arguments: each
    product, the sum and the difference are rounded to a double;
    [Math.max] is exact. *)
Definition calculateScore (level steps timeTaken : Z) : Z :=
  let baseScore := roundDouble (level * 1000) in
  let penalty := roundDouble (roundDouble (steps * 2) + roundDouble (timeTaken * 3)) in
  Z.max 0 (roundDouble (baseScore - penalty)).

End Game.

(** ** A game in play: [startNewGame], [handleKeyPress], [gameOver]

    The fields of a game object that the event handlers read and write.
    The writes to the page ([textContent], [render], [showStatus]) and the
    clock ([startTime], which only feeds the score that is displayed) are
    left out: nothing reads them back.  A handler that throws is modelled
    by [TypeError]; the object it leaves half-updated is not followed. *)

Module Play.

(** [LEVEL_CONFIG[level]]: the fields [size] and [vision]; [None] is
    [undefined]. *)
Definition LEVEL_CONFIG (level : Z) : option (Z * Q) :=
  if level =? 1 then Some (10, 2%Q)
  else if level =? 2 then Some (15, 2%Q)
  else if level =? 3 then Some (20, (3 # 2)%Q)
  else if level =? 4 then Some (25, (3 # 2)%Q)
  else if level =? 5 then Some (30, 1%Q)
  else None.

Record t : Type := mk {
  game : Game.t;
  currentLevel : Z;
  steps : Z;
  gameActive : bool;
}.

(** [toLowerCase()] on the characters A to Z.  No character outside ASCII
    has one of the eight keys below as its lower case. *)
Definition lower (c : ascii) : ascii :=
  let n := N_of_ascii c in
  if ((65 <=? n) && (n <=? 90))%N then ascii_of_N (n + 32) else c.

Fixpoint toLowerCase (s : string) : string :=
  match s with
  | EmptyString => EmptyString
  | String c s' => String (lower c) (toLowerCase s')
  end.

(** The [switch (e.key.toLowerCase())] of [handleKeyPress]: [(dx, dy)], or
    [None] for the [default] branch. *)
Definition keyDirection (key : string) : option (Z * Z) :=
  let k := toLowerCase key in
  if String.eqb k "w" || String.eqb k "arrowup" then Some (0, -1)
  else if String.eqb k "s" || String.eqb k "arrowdown" then Some (0, 1)
  else if String.eqb k "a" || String.eqb k "arrowleft" then Some (-1, 0)
  else if String.eqb k "d" || String.eqb k "arrowright" then Some (1, 0)
  else None.

(** [this.maze[y][x] !== 0]: [undefined !== 0] is true. *)
Definition isValidMove (g : Game.t) (x y : Z) : bool :=
  let size := Z.of_nat (length (Game.maze g)) in
  if (x <? 0) || (size <=? x) || (y <? 0) || (size <=? y) then false
  else negb (bool_decide (at2 (Game.maze g) x y = Some 0)).

(** The two loops of [gameOver(true)]: every cell is added to the set. *)
Definition revealAll (g : Game.t) : Game.t :=
  let len := Z.of_nat (length (Game.maze g)) in
  Game.set_revealed g
    (fold_left (fun revealed y =>
       fold_left (fun revealed x => Game.add revealed (inject_Z x, inject_Z y))
                 (seqZ 0 len) revealed)
       (seqZ 0 len) (Game.revealed g)).

Definition gameOver (self : t) (win : bool) : t :=
  let self := mk (game self) (currentLevel self) (steps self) false in
  if win
  then mk (revealAll (game self)) (currentLevel self) (steps self) (gameActive self)
  else self.

Definition handleKeyPress (self : t) (key : string) : Outcome t :=
  if negb (gameActive self) then Done self
  else
    let config := LEVEL_CONFIG (currentLevel self) in
    match keyDirection key with
    | None => Done self
    | Some (dx, dy) =>
        let g := game self in
        let newX := fst (Game.playerPos g) + dx in
        let newY := snd (Game.playerPos g) + dy in
        if isValidMove g newX newY
        then
          let g := Game.mk (Game.maze g) (Game.exitPos g) (newX, newY)
                           (Game.revealed g) in
          let steps := steps self + 1 in
          match config with
          | None => TypeError
          | Some (_, vision) =>
              let g := Game.revealArea g newX newY vision in
              let self := mk g (currentLevel self) steps (gameActive self) in
              if (newX =? fst (Game.exitPos g)) && (newY =? snd (Game.exitPos g))
              then Done (gameOver self true)
              else Done self
          end
        else Done self
    end.

(** [startNewGame()] of [DemoGame], and of [FogMazeGame] from the point
    where the seed has been obtained.  [seed] is the random seed (64
    hexadecimal digits after [0x]) or the one the contract returned. *)
Definition startNewGame (fuel : nat) (seed : string) (self : t) : Outcome t :=
  match LEVEL_CONFIG (currentLevel self) with
  | None => TypeError
  | Some (size, vision) =>
      let* m := MazeGenerator.new fuel seed size (currentLevel self) in
      let start := MazeGenerator.start m in
      let exit := MazeGenerator.exit m in
      let g := Game.mk (MazeGenerator.maze m) exit start [] in
      let g := Game.revealArea g (fst start) (snd start) vision in
      let g := Game.set_revealed g
                 (Game.add (Game.revealed g)
                           (inject_Z (fst exit), inject_Z (snd exit))) in
      Done (mk g (currentLevel self) 0 true)
  end.

(** What reaches a game while it is played: a key press, a change of the
    level selector ([this.currentLevel = parseInt(e.target.value)]), the
    timer running out ([gameOver(false)]). *)
Inductive Event : Type :=
| KeyDown (key : string)
| LevelSelect (value : Z)
| TimerExpired.

Definition dispatch (self : t) (e : Event) : Outcome t :=
  match e with
  | KeyDown key => handleKeyPress self key
  | LevelSelect value => Done (mk (game self) value (steps self) (gameActive self))
  | TimerExpired => Done (gameOver self false)
  end.

Definition run (events : list Event) (self : t) : Outcome t :=
  forOf dispatch events self.

End Play.

(** ** class AddressUtils

    Strings are sequences of code units below 256 (addresses are ASCII).
    [polkadotUtilCrypto.encodeAddress] and [decodeAddress] are parameters;
    [None] stands for a call that throws. *)

Module AddressUtils.

Definition SS58_PREFIX : Z := 0.

(** [s.slice(begin)] and [s.slice(begin, end)] on integers. *)
Definition sliceIndex (len k : Z) : Z :=
  if k <? 0 then Z.max (len + k) 0 else Z.min k len.

Definition slice (s : string) (begin : Z) (end_ : option Z) : string :=
  let len := Z.of_nat (String.length s) in
  let from := sliceIndex len begin in
  let to := match end_ with
            | None => len
            | Some e => sliceIndex len e
            end in
  String.substring (Z.to_nat from) (Z.to_nat (to - from)) s.

(** [formatAddress(address, startChars = 6, endChars = 4)]. *)
Definition formatAddress (address : string) (startChars endChars : Z) : string :=
  if Z.of_nat (String.length address) <=? startChars + endChars
  then address
  else slice address 0 (Some startChars) +:+ "..." +:+
       slice address (- endChars) None.

(** [/^0x[a-fA-F0-9]{40}$/.test(address)] *)
Definition isValidH160 (address : string) : bool :=
  match address with
  | String "0" (String "x" digits) =>
      (String.length digits =? 40)%nat && SeededRandom.allHex digits
  | _ => false
  end.

(** [s.replace('0x', '')]: the first occurrence is removed. *)
Definition remove0x (s : string) : string :=
  match String.index 0 "0x" s with
  | Some i =>
      String.substring 0 i s +:+
      String.substring (i + 2) (String.length s - (i + 2)) s
  | None => s
  end.

(** [s.match(/.{1,2}/g)]: [.] matches any character but a line terminator;
    the empty list stands for [null]. *)
Definition lineTerminator (c : ascii) : bool :=
  let n := N_of_ascii c in ((n =? 10) || (n =? 13))%N.

Fixpoint chunks (s : string) : list string :=
  match s with
  | EmptyString => []
  | String c1 s1 =>
      if lineTerminator c1 then chunks s1
      else
        match s1 with
        | EmptyString => [String c1 EmptyString]
        | String c2 s2 =>
            if lineTerminator c2 then String c1 EmptyString :: chunks s2
            else String c1 (String c2 EmptyString) :: chunks s2
        end
  end.

(** [parseInt(s, 16)]: leading white space, a sign and a prefix [0x] are
    skipped, then the longest run of digits is read; [None] is [NaN]. *)
Definition whiteSpace (c : ascii) : bool :=
  let n := N_of_ascii c in
  ((9 <=? n) && (n <=? 13) || (n =? 32) || (n =? 160))%N.

Fixpoint skipWhiteSpace (s : string) : string :=
  match s with
  | String c s' => if whiteSpace c then skipWhiteSpace s' else s
  | EmptyString => s
  end.

Definition parseInt (s : string) : option Z :=
  let s := skipWhiteSpace s in
  let '(sign, s) := match s with
                    | String "-" s' => (-1, s')
                    | String "+" s' => (1, s')
                    | _ => (1, s)
                    end in
  let s := match s with
           | String "0" (String "x" s') => s'
           | String "0" (String "X" s') => s'
           | _ => s
           end in
  match SeededRandom.parseDigits s None with
  | Some n => Some (sign * n)
  | None => None
  end.

(** An element of a [Uint8Array] built from a number: [NaN] gives 0. *)
Definition toUint8 (v : option Z) : Z :=
  match v with
  | Some n => n mod 256
  | None => 0
  end.

(** [b.toString(16)] for a byte, and [padStart(2, '0')]. *)
Definition digitChar (d : Z) : ascii :=
  ascii_of_N (Z.to_N (if d <? 10 then 48 + d else 87 + d)).

Definition toString16 (b : Z) : string :=
  if b <? 16 then String (digitChar b) EmptyString
  else String (digitChar (b / 16)) (String (digitChar (b mod 16)) EmptyString).

Definition padStart2 (s : string) : string :=
  match s with
  | EmptyString => "00"
  | String c EmptyString => String "0" s
  | _ => s
  end.

Section Codec.
Variable encodeAddress : list Z -> Z -> option string.
Variable decodeAddress : string -> option (list Z).

(** [h160ToSS58(h160Address)]: whatever is thrown inside [try] gives the
    argument back. *)
Definition h160ToSS58 (h160Address : string) : string :=
  let cleanAddress := remove0x (Play.toLowerCase h160Address) in
  match chunks cleanAddress with
  | [] => h160Address
  | matched =>
      let addressBytes := (fun byte => toUint8 (parseInt byte)) <$> matched in
      if (32 <? Z.of_nat (length addressBytes)) then h160Address
      else
        let paddedBytes :=
          addressBytes ++ replicate (32 - length addressBytes) 0 in
        match encodeAddress paddedBytes SS58_PREFIX with
        | Some ss58Address => ss58Address
        | None => h160Address
        end
  end.

Definition ss58ToH160 (ss58Address : string) : string :=
  match decodeAddress ss58Address with
  | Some decoded =>
      let h160Bytes := take 20 decoded in
      "0x" +:+ String.concat ""
                 ((fun b => padStart2 (toString16 b)) <$> h160Bytes)
  | None => ss58Address
  end.

Definition isValidSS58 (address : string) : bool :=
  match decodeAddress address with
  | Some _ => true
  | None => false
  end.

Inductive AddressType : Type := h160 | ss58 | unknown.

Definition getAddressType (address : string) : AddressType :=
  if isValidH160 address then h160
  else if isValidSS58 address then ss58
  else unknown.

(** [toH160] and [toSS58]: [None] is the [Error('Invalid address format')]
    they throw. *)
Definition toH160 (address : string) : option string :=
  match getAddressType address with
  | h160 => Some address
  | ss58 => Some (ss58ToH160 address)
  | unknown => None
  end.

Definition toSS58 (address : string) : option string :=
  match getAddressType address with
  | ss58 => Some address
  | h160 => Some (h160ToSS58 address)
  | unknown => None
  end.

End Codec.

End AddressUtils.

(** ** contract FogMaze (Solidity ^0.8.21)

    [uint256] values are integers in [0, 2^256).  Arithmetic is checked: an
    operation whose result leaves the range aborts the call with
    [Panic(0x11)].  A failed [require] aborts it with its message.  An aborted
    call changes no storage. *)

Module FogMaze.

Inductive Result (A : Type) : Type :=
| Success (a : A)
| Revert (reason : string)
| Panic (code : Z).
Arguments Success {A} a.
Arguments Revert {A} reason.
Arguments Panic {A} code.

Definition bindR {A B : Type} (m : Result A) (k : A -> Result B) : Result B :=
  match m with
  | Success a => k a
  | Revert r => Revert r
  | Panic c => Panic c
  end.

Notation "'let!' x ':=' m 'in' k" := (bindR m (fun x => k))
  (at level 10, x pattern, m at level 100, k at level 200).

Definition require (cond : bool) (reason : string) : Result unit :=
  if cond then Success tt else Revert reason.

Definition UINT256_MAX : Z := 2 ^ 256 - 1.

Definition checked (v : Z) : Result Z :=
  if (0 <=? v) && (v <=? UINT256_MAX) then Success v else Panic 17.

Definition add (x y : Z) : Result Z := checked (x + y).
Definition sub (x y : Z) : Result Z := checked (x - y).
Definition mul (x y : Z) : Result Z := checked (x * y).

(** The error kinds of the specification are the messages of the
    [require] statements. *)
Definition StaleReferenceError : string := "Block not yet mined".
Definition ExpiredReferenceError : string := "Block too old (>256 blocks)".
Definition InvalidLevelError : string := "Invalid level".
Definition CapacityExceededError : string := "Max runs reached".

Definition MAX_RUNS_PER_PLAYER : Z := 100.
Definition BLOCK_WINDOW : Z := 256.

Section Contract.
(** The primitives of the execution environment: 32-byte words, the
    packed encoding of [(bytes32, address, uint256)] and the hash. *)
Context {bytes32 : Type}.
Variable encodePacked : bytes32 -> Z -> Z -> list Z.
Variable keccak256 : list Z -> bytes32.

(** The chain as a call sees it. *)
Record Env : Type := mkEnv {
  block_number : Z;
  block_timestamp : Z;
  blockhash : Z -> bytes32;
  msg_sender : Z;
}.

Record Run : Type := mkRun {
  level : Z;
  steps : Z;
  timeTaken : Z;
  seed : bytes32;
  timestamp : Z;
  nonce : Z;
}.

(** Storage: the two mappings; an absent key holds the default value. *)
Record Storage : Type := mkStorage {
  playerRuns : gmap Z (list Run);
  playerNonces : gmap Z Z;
}.

Inductive Event : Type :=
| RunSubmitted (player level steps timeTaken : Z) (seed : bytes32)
               (score nonce : Z)
| SeedGenerated (player : Z) (seed : bytes32) (blockNumber nonce : Z).

Definition runsOf (st : Storage) (player : Z) : list Run :=
  default [] (playerRuns st !! player).

Definition generateSeed (env : Env) (blockNumber player nonce : Z)
  : Result bytes32 :=
  let! _ := require (blockNumber <? block_number env) StaleReferenceError in
  let! age := sub (block_number env) blockNumber in
  let! _ := require (age <=? BLOCK_WINDOW) ExpiredReferenceError in
  Success (keccak256 (encodePacked (blockhash env blockNumber) player nonce)).

Definition calculateScore (level steps timeTaken : Z) : Result Z :=
  let! baseScore := mul level 1000 in
  let! s2 := mul steps 2 in
  let! t3 := mul timeTaken 3 in
  let! penalty := add s2 t3 in
  if baseScore <=? penalty then Success 0 else sub baseScore penalty.

Definition submitRun (env : Env) (st : Storage)
           (level steps timeTaken blockNumber nonce : Z)
  : Result (Storage * list Event) :=
  let! _ := require (0 <? level) InvalidLevelError in
  let! _ := require (Z.of_nat (length (runsOf st (msg_sender env)))
                       <? MAX_RUNS_PER_PLAYER) CapacityExceededError in
  let! seed := generateSeed env blockNumber (msg_sender env) nonce in
  let! score := calculateScore level steps timeTaken in
  let run := mkRun level steps timeTaken seed (block_timestamp env) nonce in
  let st' := mkStorage
               (<[msg_sender env := runsOf st (msg_sender env) ++ [run]]>
                  (playerRuns st))
               (playerNonces st) in
  Success (st', [RunSubmitted (msg_sender env) level steps timeTaken seed
                              score nonce]).

(** The storage after a call: the one the call built when it succeeds,
    the one it started from when it aborts. *)
Definition storageAfter (st : Storage) (r : Result (Storage * list Event))
  : Storage :=
  match r with
  | Success (st', _) => st'
  | _ => st
  end.

(** [getRuns(player)] and [getRunCount(player)]. *)
Definition getRuns (st : Storage) (player : Z) : list Run := runsOf st player.

Definition getRunCount (st : Storage) (player : Z) : Z :=
  Z.of_nat (length (runsOf st player)).

(** The loop of [getBestScore] over the runs still to visit.  The counter
    [i] stays below [runs.length], so [i++] does not overflow. *)
Fixpoint bestScoreLoop (runs : list Run) (bestScore : Z) : Result Z :=
  match runs with
  | [] => Success bestScore
  | r :: runs' =>
      let! score := calculateScore (level r) (steps r) (timeTaken r) in
      bestScoreLoop runs' (if bestScore <? score then score else bestScore)
  end.

Definition getBestScore (st : Storage) (player : Z) : Result Z :=
  bestScoreLoop (runsOf st player) 0.

Definition nonceOf (st : Storage) (player : Z) : Z :=
  default 0 (playerNonces st !! player).

(** [getNextNonce()] reads the caller's entry. *)
Definition getNextNonce (env : Env) (st : Storage) : Z :=
  nonceOf st (msg_sender env).

(** [incrementNonce()]: [playerNonces[msg.sender]++], checked. *)
Definition incrementNonce (env : Env) (st : Storage) : Result Storage :=
  let! n := add (nonceOf st (msg_sender env)) 1 in
  Success (mkStorage (playerRuns st) (<[msg_sender env := n]> (playerNonces st))).

(** The calls that write storage, and a transaction: a call in the
    environment it is mined in.  An aborted transaction leaves the storage
    as it was. *)
Inductive Call : Type :=
| SubmitRun (level steps timeTaken blockNumber nonce : Z)
| IncrementNonce.

Definition transact (st : Storage) (tx : Env * Call) : Storage :=
  match tx with
  | (env, SubmitRun level steps timeTaken blockNumber nonce) =>
      storageAfter st (submitRun env st level steps timeTaken blockNumber nonce)
  | (env, IncrementNonce) =>
      match incrementNonce env st with
      | Success st' => st'
      | _ => st
      end
  end.

(** The storage of a freshly deployed contract, and the storage after a
    sequence of transactions. *)
Definition deployed : Storage := mkStorage ∅ ∅.

Definition replay (txs : list (Env * Call)) : Storage :=
  fold_left transact txs deployed.

End Contract.

End FogMaze.

(** * Vocabulary of the specification *)

(** A [uint256] argument of the contract. *)
Definition uint256 (v : Z) : Prop := 0 <= v <= FogMaze.UINT256_MAX.


(** A PRNG state is a 32-bit unsigned value. *)
Definition validState (state : Z) : Prop := 0 <= state < SeededRandom.m.

(** ** Grids *)

(** An [n] by [n] array of arrays. *)
Definition square {A : Type} (n : Z) (a : list (list A)) : Prop :=
  Z.of_nat (length a) = n /\ Forall (fun row => Z.of_nat (length row) = n) a.

(** A cell that is not a wall: path, start or exit. *)
Definition nonWall (g : list (list Z)) (p : Z * Z) : Prop :=
  exists v, at2 g (fst p) (snd p) = Some v /\ v <> 0.

(** Orthogonal neighbours. *)
Definition adjacent (p q : Z * Z) : Prop :=
  Z.abs (fst p - fst q) + Z.abs (snd p - snd q) = 1.

(** One move of the player: between orthogonally adjacent non-wall cells. *)
Definition move (g : list (list Z)) (p q : Z * Z) : Prop :=
  nonWall g p /\ nonWall g q /\ adjacent p q.

Definition reachable (g : list (list Z)) (p q : Z * Z) : Prop := rtc (move g) p q.

Definition connected (g : list (list Z)) : Prop :=
  forall p q, nonWall g p -> nonWall g q -> reachable g p q.

(** ** Invariants of the generator *)

Fixpoint countFalse (l : list bool) : nat :=
  match l with
  | [] => 0
  | b :: l' => (if b then 0 else 1) + countFalse l'
  end.

(** Number of logical cells not visited yet. *)
Definition unvisited (v : list (list bool)) : nat := sum_list (countFalse <$> v).

(** A logical cell of an [n] by [n] maze. *)
Definition validCell (n : Z) (c : Z * Z) : Prop :=
  0 <= fst c < n /\ 0 <= snd c < n.

(** The shape of a generator between two statements of [generate]: the
    arrays have their dimensions, the grid holds walls and paths only, and
    the grid cell of every visited logical cell is a path. *)
Record wellFormed (self : MazeGenerator.t) : Prop := {
  wf_size : 0 <= MazeGenerator.size self;
  wf_gridSize : MazeGenerator.gridSize self = MazeGenerator.size self * 2 + 1;
  wf_grid : square (MazeGenerator.gridSize self) (MazeGenerator.grid self);
  wf_visited : square (MazeGenerator.size self) (MazeGenerator.visited self);
  wf_prng : validState (MazeGenerator.prng self);
  wf_codes : forall x y v,
      at2 (MazeGenerator.grid self) x y = Some v -> v = 0 \/ v = 1;
  wf_carved : forall x y,
      at2 (MazeGenerator.visited self) x y = Some true ->
      at2 (MazeGenerator.grid self) (x * 2 + 1) (y * 2 + 1) = Some 1;
}.

(** [self'] is a later state of [self]: paths stay paths, visited cells stay
    visited, and every cell visited in between has all its neighbours
    visited. *)
Record extends (self self' : MazeGenerator.t) : Prop := {
  ext_size : MazeGenerator.size self' = MazeGenerator.size self;
  ext_level : MazeGenerator.level self' = MazeGenerator.level self;
  ext_gridSize : MazeGenerator.gridSize self' = MazeGenerator.gridSize self;
  ext_grid : forall x y,
      at2 (MazeGenerator.grid self) x y = Some 1 ->
      at2 (MazeGenerator.grid self') x y = Some 1;
  ext_visited : forall x y,
      at2 (MazeGenerator.visited self) x y = Some true ->
      at2 (MazeGenerator.visited self') x y = Some true;
  ext_count :
    (unvisited (MazeGenerator.visited self')
     <= unvisited (MazeGenerator.visited self))%nat;
  ext_closed : forall x y,
      at2 (MazeGenerator.visited self') x y = Some true ->
      at2 (MazeGenerator.visited self) x y <> Some true ->
      forall dx dy, (dx, dy) ∈ MazeGenerator.directions ->
        validCell (MazeGenerator.size self) (x + dx, y + dy) ->
        at2 (MazeGenerator.visited self') (x + dx) (y + dy) = Some true;
}.

Fixpoint countPaths (row : list Z) : nat :=
  match row with
  | [] => 0
  | v :: row' => (if v =? 0 then 0 else 1) + countPaths row'
  end.

(** Number of cells of the grid that are not walls. *)
Definition pathCount (g : list (list Z)) : nat := sum_list (countPaths <$> g).

(** The grid while it is carved is the drawing of a tree over the visited
    logical cells: the grid cell of an unvisited logical cell is a wall; an
    open wall position next to a logical cell joins visited cells; every
    path is the grid cell of a logical cell or the wall position between two
    adjacent logical cells; and each visit but the first adds two paths, the
    cell and the passage that leads to it. *)
Record tidy (self : MazeGenerator.t) : Prop := {
  tidy_cells : forall x y,
      at2 (MazeGenerator.visited self) x y = Some false ->
      at2 (MazeGenerator.grid self) (x * 2 + 1) (y * 2 + 1) = Some 0;
  tidy_passages : forall x y dx dy,
      validCell (MazeGenerator.size self) (x, y) ->
      (dx, dy) ∈ MazeGenerator.directions ->
      at2 (MazeGenerator.grid self) (x * 2 + 1 + dx) (y * 2 + 1 + dy) = Some 1 ->
      at2 (MazeGenerator.visited self) x y = Some true;
  tidy_shape : forall gx gy,
      at2 (MazeGenerator.grid self) gx gy = Some 1 ->
      exists x y,
        validCell (MazeGenerator.size self) (x, y) /\
        ((gx = x * 2 + 1 /\ gy = y * 2 + 1) \/
         exists dx dy,
           (dx, dy) ∈ MazeGenerator.directions /\
           validCell (MazeGenerator.size self) (x + dx, y + dy) /\
           gx = x * 2 + 1 + dx /\ gy = y * 2 + 1 + dy);
  tidy_count :
    Z.of_nat (pathCount (MazeGenerator.grid self))
    + 2 * Z.of_nat (unvisited (MazeGenerator.visited self))
    = 2 * MazeGenerator.size self * MazeGenerator.size self - 1;
}.

(** The state of [recursiveBacktrack(cellX, cellY)] after the cell is
    marked visited and its grid cell is coded path. *)
Definition visit (self : MazeGenerator.t) (cellX cellY : Z) : MazeGenerator.t :=
  let self := MazeGenerator.set_visited self
                (set2 (MazeGenerator.visited self) cellX cellY true) in
  MazeGenerator.set_grid self
    (set2 (MazeGenerator.grid self) (cellX * 2 + 1) (cellY * 2 + 1)
          MazeGenerator.PATH).

(** What a call of [recursiveBacktrack] needs and what it establishes. *)
Definition carvePre (self : MazeGenerator.t) (cellX cellY : Z) : Prop :=
  wellFormed self /\
  validCell (MazeGenerator.size self) (cellX, cellY) /\
  at2 (MazeGenerator.visited self) cellX cellY = Some false /\
  connected (set2 (MazeGenerator.grid self) (cellX * 2 + 1) (cellY * 2 + 1)
                  MazeGenerator.PATH) /\
  tidy (visit self cellX cellY).

Definition carvePost (self : MazeGenerator.t) (cellX cellY : Z)
           (self' : MazeGenerator.t) : Prop :=
  wellFormed self' /\
  connected (MazeGenerator.grid self') /\
  extends self self' /\
  at2 (MazeGenerator.visited self') cellX cellY = Some true /\
  tidy self'.

Definition carves (fuel : nat) : Prop :=
  forall self cellX cellY,
    carvePre self cellX cellY ->
    (unvisited (MazeGenerator.visited self) <= fuel)%nat ->
    exists self',
      MazeGenerator.recursiveBacktrack fuel self cellX cellY = Done self' /\
      carvePost self cellX cellY self'.

(** Every logical cell has been carved: its grid cell is a path. *)
Definition allCarved (self : MazeGenerator.t) : Prop :=
  forall x y, validCell (MazeGenerator.size self) (x, y) ->
              at2 (MazeGenerator.grid self) (x * 2 + 1) (y * 2 + 1) = Some 1.

(** The border a cell lies on: 0 top, 1 right, 2 bottom, 3 left. *)
Definition onSide (gridSize side : Z) (p : Z * Z) : Prop :=
  (side = 0 /\ snd p = 1) \/
  (side = 1 /\ fst p = gridSize - 2) \/
  (side = 2 /\ snd p = gridSize - 2) \/
  (side = 3 /\ fst p = 1).

(** [Math.min(level * 0.05, 0.3)], as [generate] computes it. *)
Definition braidFactor (level : Z) : Q :=
  Qmin (inject_Z level * (5 # 100)) (3 # 10).

(** ** Fog of war *)


(** A key that names a cell of the grid no farther than [radius] from the
    centre [(cx, cy)] (Euclidean distance, compared on the squares). *)
Definition cellWithin (self : Game.t) (cx cy : Z) (radius : Q) (k : Game.Key)
  : Prop :=
  exists x y : Z,
    k = (inject_Z x, inject_Z y) /\
    0 <= x < Z.of_nat (length (Game.maze self)) /\
    0 <= y < Z.of_nat (length (Game.maze self)) /\
    (inject_Z ((x - cx) * (x - cx) + (y - cy) * (y - cy)) <= radius * radius)%Q.

(** The grid draws a spanning tree of the [size] by [size] logical cells:
    it is connected, every logical cell is a path, every path is a logical
    cell or the passage between two adjacent logical cells, and there are
    [size * size - 1] passages besides the [size * size] cells. *)
Definition drawsSpanningTree (size : Z) (g : list (list Z)) : Prop :=
  connected g /\
  (forall x y, validCell size (x, y) ->
               at2 g (x * 2 + 1) (y * 2 + 1) = Some MazeGenerator.PATH) /\
  (forall gx gy v,
      at2 g gx gy = Some v -> v <> MazeGenerator.WALL ->
      exists x y,
        validCell size (x, y) /\
        ((gx = x * 2 + 1 /\ gy = y * 2 + 1) \/
         exists dx dy,
           (dx, dy) ∈ MazeGenerator.directions /\
           validCell size (x + dx, y + dy) /\
           gx = x * 2 + 1 + dx /\ gy = y * 2 + 1 + dy)) /\
  Z.of_nat (pathCount g) = 2 * size * size - 1.

(** [g'] is [g] with some walls recoded to paths, and nothing else changed. *)
Definition onlyOpens (g g' : list (list Z)) : Prop :=
  forall x y,
    at2 g' x y = at2 g x y \/
    (at2 g x y = Some MazeGenerator.WALL /\ at2 g' x y = Some MazeGenerator.PATH).

(** ** The contract over time *)

(** Number of [incrementNonce] transactions sent by [player]. *)
Definition incrementsBy {bytes32 : Type} (player : Z)
           (txs : list (@FogMaze.Env bytes32 * FogMaze.Call)) : nat :=
  length (List.filter
            (fun tx => match snd tx with
                       | FogMaze.IncrementNonce =>
                           FogMaze.msg_sender (fst tx) =? player
                       | _ => false
                       end) txs).

(** The facts every storage built by transactions satisfies: no player holds
    more than [MAX_RUNS_PER_PLAYER] runs, and every stored run has a positive
    level and a score that [calculateScore] computes. *)
Definition sound {bytes32 : Type} (st : @FogMaze.Storage bytes32) : Prop :=
  (forall player,
     Z.of_nat (length (FogMaze.runsOf st player)) <= FogMaze.MAX_RUNS_PER_PLAYER) /\
  (forall player r, r ∈ FogMaze.runsOf st player ->
     0 < FogMaze.level r /\
     exists score,
       FogMaze.calculateScore (FogMaze.level r) (FogMaze.steps r)
                              (FogMaze.timeTaken r) = FogMaze.Success score /\
       0 <= score).

(** ** The finished maze *)


(** The grid cell of a logical cell: both coordinates odd, inside the outer
    ring of a grid of side [gridSize]. *)
Definition cellPosition (gridSize : Z) (p : Z * Z) : Prop :=
  Z.odd (fst p) = true /\ Z.odd (snd p) = true /\
  1 <= fst p <= gridSize - 2 /\ 1 <= snd p <= gridSize - 2.

(** ** A game in play *)

(** The level selector offers the levels of [LEVEL_CONFIG]. *)
Definition validEvent (e : Play.Event) : Prop :=
  match e with
  | Play.LevelSelect value => 1 <= value <= 5
  | _ => True
  end.

Definition keyPresses (events : list Play.Event) : Z :=
  Z.of_nat (length (List.filter
                      (fun e => match e with Play.KeyDown _ => true | _ => false end)
                      events)).

(** The player stands on an open cell of a square grid, on a level of
    [LEVEL_CONFIG]. *)
Definition playable (s : Play.t) : Prop :=
  (exists n, square n (Game.maze (Play.game s))) /\
  nonWall (Game.maze (Play.game s)) (Game.playerPos (Play.game s)) /\
  1 <= Play.currentLevel s <= 5.

(** Every cell of the grid is in the set of revealed cells. *)
Definition allRevealed (g : Game.t) : Prop :=
  forall x y,
    0 <= x < Z.of_nat (length (Game.maze g)) ->
    0 <= y < Z.of_nat (length (Game.maze g)) ->
    Game.isRevealed g x y = true.

(** A player on the exit has won: the game is over and the grid is
    revealed. *)
Definition settled (s : Play.t) : Prop :=
  Game.playerPos (Play.game s) = Game.exitPos (Play.game s) ->
  Play.gameActive s = false /\ allRevealed (Play.game s).

Definition manhattan (p q : Z * Z) : Z :=
  Z.abs (fst p - fst q) + Z.abs (snd p - snd q).

(** ** Addresses *)

(** A byte of a [Uint8Array]. *)
Definition byte (b : Z) : Prop := 0 <= b < 256.

(** The SS58 codec decodes what it encodes: every 32-byte account
    identifier is encoded (with prefix 0) to a string that decodes to it. *)
Definition codecRoundTrip (encodeAddress : list Z -> Z -> option string)
           (decodeAddress : string -> option (list Z)) : Prop :=
  forall bytes,
    length bytes = 32%nat -> Forall byte bytes ->
    exists ss58,
      encodeAddress bytes AddressUtils.SS58_PREFIX = Some ss58 /\
      decodeAddress ss58 = Some bytes.

(** The sixteen digits that [toString(16)] prints, with their values. *)
Definition lowerDigits : list (ascii * Z) :=
  [("0", 0); ("1", 1); ("2", 2); ("3", 3); ("4", 4); ("5", 5); ("6", 6);
   ("7", 7); ("8", 8); ("9", 9); ("a", 10); ("b", 11); ("c", 12); ("d", 13);
   ("e", 14); ("f", 15)]%char.

(** * The contract: score, seed derivation, run submission *)

Section ContractFacts.
Import FogMaze.

Lemma checked_in_range v :
  0 <= v <= UINT256_MAX -> checked v = Success v.
Proof.
  intros [H0 H1]. unfold checked.
  destruct (Z.leb_spec 0 v); [|lia].
  destruct (Z.leb_spec v UINT256_MAX); [|lia]. reflexivity.
Qed.

Lemma checked_overflow v :
  UINT256_MAX < v -> checked v = Panic 17.
Proof.
  intros H. unfold checked.
  destruct (Z.leb_spec v UINT256_MAX); [lia|].
  now rewrite andb_false_r.
Qed.

Lemma checked_success v w : checked v = Success w -> w = v /\ 0 <= v <= UINT256_MAX.
Proof.
  unfold checked.
  destruct (Z.leb_spec 0 v), (Z.leb_spec v UINT256_MAX); simpl;
    intros Heq; inversion Heq; subst; lia.
Qed.

(** What [calculateScore] computes on every triple of [uint256] values: the
    saturating difference when no intermediate value overflows, the
    overflow panic otherwise. *)
Lemma calculateScore_cases level steps timeTaken :
  uint256 level -> uint256 steps -> uint256 timeTaken ->
  calculateScore level steps timeTaken =
    if (level * 1000 <=? UINT256_MAX) && (steps * 2 + timeTaken * 3 <=? UINT256_MAX)
    then Success (if steps * 2 + timeTaken * 3 <? level * 1000
                  then level * 1000 - (steps * 2 + timeTaken * 3) else 0)
    else Panic 17.
Proof.
  unfold uint256. intros Hl Hs Ht. unfold calculateScore, mul, add, sub.
  destruct (Z.leb_spec (level * 1000) UINT256_MAX) as [Hb|Hb]; simpl.
  2:{ now rewrite checked_overflow by lia. }
  rewrite (checked_in_range (level * 1000)) by lia. simpl.
  destruct (Z.leb_spec (steps * 2 + timeTaken * 3) UINT256_MAX) as [Hp|Hp].
  - rewrite (checked_in_range (steps * 2)) by lia. simpl.
    rewrite (checked_in_range (timeTaken * 3)) by lia. simpl.
    rewrite (checked_in_range (steps * 2 + timeTaken * 3)) by lia. simpl.
    destruct (Z.leb_spec (level * 1000) (steps * 2 + timeTaken * 3)),
             (Z.ltb_spec (steps * 2 + timeTaken * 3) (level * 1000));
      try lia; [reflexivity|].
    now rewrite checked_in_range by lia.
  - destruct (Z.le_gt_cases (steps * 2) UINT256_MAX) as [Hs2|Hs2].
    2:{ now rewrite (checked_overflow (steps * 2)) by lia. }
    rewrite (checked_in_range (steps * 2)) by lia. simpl.
    destruct (Z.le_gt_cases (timeTaken * 3) UINT256_MAX) as [Ht3|Ht3].
    2:{ now rewrite (checked_overflow (timeTaken * 3)) by lia. }
    rewrite (checked_in_range (timeTaken * 3)) by lia. simpl.
    now rewrite checked_overflow by lia.
Qed.

End ContractFacts.

(** The examples of the specification. *)
Example calculateScore_example_920 :
  FogMaze.calculateScore 1 10 20 = FogMaze.Success 920.
Proof. reflexivity. Qed.

Example calculateScore_example_saturated :
  FogMaze.calculateScore 1 500 500 = FogMaze.Success 0.
Proof. reflexivity. Qed.

Example calculateScore_example_2300 :
  FogMaze.calculateScore 3 200 100 = FogMaze.Success 2300.
Proof. reflexivity. Qed.

(** C2, as stated, fails: [level * 1000] overflows [uint256] and the call
    aborts instead of returning a score. *)
Lemma calculateScore_overflow_counterexample :
  uint256 FogMaze.UINT256_MAX /\
  FogMaze.calculateScore FogMaze.UINT256_MAX 0 0 = FogMaze.Panic 17.
Proof. split; [unfold uint256; vm_compute; split; discriminate | reflexivity]. Qed.

(** C2 (amended): for all [uint256] values [level], [steps], [timeTaken]:
    when [level * 1000] and [steps * 2 + timeTaken * 3] fit in 256 bits,
    [calculateScore] returns [level*1000 - (steps*2 + timeTaken*3)] if the
    penalty is smaller than the base and 0 otherwise; when one of the two
    does not fit, the call aborts with the arithmetic overflow panic; a score
    that is returned is never negative. *)
Theorem calculateScore_saturating level steps timeTaken :
  uint256 level -> uint256 steps -> uint256 timeTaken ->
  (level * 1000 <= FogMaze.UINT256_MAX ->
   steps * 2 + timeTaken * 3 <= FogMaze.UINT256_MAX ->
   FogMaze.calculateScore level steps timeTaken =
     FogMaze.Success (if steps * 2 + timeTaken * 3 <? level * 1000
                      then level * 1000 - (steps * 2 + timeTaken * 3) else 0)) /\
  (FogMaze.UINT256_MAX < level * 1000 \/
   FogMaze.UINT256_MAX < steps * 2 + timeTaken * 3 ->
   FogMaze.calculateScore level steps timeTaken = FogMaze.Panic 17) /\
  (forall score,
      FogMaze.calculateScore level steps timeTaken = FogMaze.Success score ->
      0 <= score).
Proof.
  intros Hl Hs Ht. rewrite calculateScore_cases by assumption.
  destruct (Z.leb_spec (level * 1000) FogMaze.UINT256_MAX) as [Hb|Hb];
    destruct (Z.leb_spec (steps * 2 + timeTaken * 3) FogMaze.UINT256_MAX) as [Hp|Hp];
    cbn [andb].
  - split; [reflexivity|]. split; [intros [H|H]; lia|].
    intros score [= <-].
    destruct (Z.ltb_spec (steps * 2 + timeTaken * 3) (level * 1000)); lia.
  - split; [lia|]. split; [reflexivity|]. discriminate.
  - split; [lia|]. split; [reflexivity|]. discriminate.
  - split; [lia|]. split; [reflexivity|]. discriminate.
Qed.

Lemma calculateScore_saturating_witness :
  (3 * 1000 <= FogMaze.UINT256_MAX ->
   200 * 2 + 100 * 3 <= FogMaze.UINT256_MAX ->
   FogMaze.calculateScore 3 200 100 = FogMaze.Success 2300) /\
  (FogMaze.UINT256_MAX < 3 * 1000 \/ FogMaze.UINT256_MAX < 200 * 2 + 100 * 3 ->
   FogMaze.calculateScore 3 200 100 = FogMaze.Panic 17) /\
  (forall score,
      FogMaze.calculateScore 3 200 100 = FogMaze.Success score -> 0 <= score).
Proof.
  apply (calculateScore_saturating 3 200 100);
    unfold uint256; vm_compute; split; discriminate.
Defined.





Section SeedAndSubmission.
Import FogMaze.
Context {bytes32 : Type}.
Variable encodePacked : bytes32 -> Z -> Z -> list Z.
Variable keccak256 : list Z -> bytes32.

Abbreviation generateSeed := (FogMaze.generateSeed encodePacked keccak256).
Abbreviation submitRun := (FogMaze.submitRun encodePacked keccak256).

(** The three outcomes of [generateSeed], by the position of [blockNumber]
    relative to the current block. *)
Lemma generateSeed_cases (env : Env) blockNumber player nonce :
  uint256 blockNumber -> uint256 (block_number env) ->
  generateSeed env blockNumber player nonce =
    if negb (blockNumber <? block_number env) then Revert StaleReferenceError
    else if negb (block_number env - blockNumber <=? BLOCK_WINDOW)
         then Revert ExpiredReferenceError
         else Success (keccak256 (encodePacked (blockhash env blockNumber)
                                               player nonce)).
Proof.
  unfold uint256. intros Hb Hn. unfold FogMaze.generateSeed, require, sub.
  destruct (Z.ltb_spec blockNumber (block_number env)); simpl; [|reflexivity].
  rewrite checked_in_range by lia. simpl.
  destruct (Z.leb_spec (block_number env - blockNumber) BLOCK_WINDOW);
    reflexivity.
Qed.

(** What [submitRun] answers when one of its two guards fails. *)
Lemma submitRun_guards (env : Env) (st : Storage)
      level steps timeTaken blockNumber nonce :
  Z.of_nat (length (runsOf st (msg_sender env))) = MAX_RUNS_PER_PLAYER \/
  level <= 0 ->
  submitRun env st level steps timeTaken blockNumber nonce =
    Revert (if 0 <? level then CapacityExceededError else InvalidLevelError).
Proof.
  intros H. unfold FogMaze.submitRun, require.
  destruct (Z.ltb_spec 0 level); simpl; [|reflexivity].
  destruct H as [H|H]; [|lia]. rewrite H. reflexivity.
Qed.

End SeedAndSubmission.

(** C7: [generateSeed] fails with [StaleReferenceError] exactly when
    [blockNumber] is not strictly below the current block number, with
    [ExpiredReferenceError] exactly when the current block number exceeds
    [blockNumber] by more than 256, and otherwise returns the hash of the
    packed [(blockhash(blockNumber), player, nonce)]; the result depends on
    the chain only through the current block number and that block hash, so
    two calls with the same arguments at the same chain state agree. *)
Theorem generateSeed_errors_and_value
    {bytes32 : Type} (encodePacked : bytes32 -> Z -> Z -> list Z)
    (keccak256 : list Z -> bytes32)
    (env : FogMaze.Env) (blockNumber player nonce : Z) :
  uint256 blockNumber -> uint256 (FogMaze.block_number env) ->
  let result :=
    FogMaze.generateSeed encodePacked keccak256 env blockNumber player nonce in
  (result = FogMaze.Revert FogMaze.StaleReferenceError <->
     ~ blockNumber < FogMaze.block_number env) /\
  (result = FogMaze.Revert FogMaze.ExpiredReferenceError <->
     FogMaze.block_number env - blockNumber > 256) /\
  (blockNumber < FogMaze.block_number env ->
   FogMaze.block_number env - blockNumber <= 256 ->
   result = FogMaze.Success
              (keccak256 (encodePacked (FogMaze.blockhash env blockNumber)
                                       player nonce))) /\
  (forall env' : FogMaze.Env,
      FogMaze.block_number env' = FogMaze.block_number env ->
      FogMaze.blockhash env' blockNumber = FogMaze.blockhash env blockNumber ->
      FogMaze.generateSeed encodePacked keccak256 env' blockNumber player nonce
      = result).
Proof.
  intros Hb Hn result. subst result.
  rewrite generateSeed_cases by assumption.
  destruct (Z.ltb_spec blockNumber (FogMaze.block_number env)) as [Hlt|Hge];
    cbn [negb].
  - change FogMaze.BLOCK_WINDOW with 256.
    destruct (Z.leb_spec (FogMaze.block_number env - blockNumber) 256)
      as [Hw|Hw]; cbn [negb].
    + repeat split; try discriminate; try lia; try reflexivity.
      intros env' En Eh. rewrite generateSeed_cases by (rewrite ?En; assumption).
      rewrite En, Eh.
      destruct (Z.ltb_spec blockNumber (FogMaze.block_number env)); [|lia].
      change FogMaze.BLOCK_WINDOW with 256.
      destruct (Z.leb_spec (FogMaze.block_number env - blockNumber) 256); [|lia].
      reflexivity.
    + repeat split; try discriminate; try lia; try reflexivity.
      intros env' En Eh. rewrite generateSeed_cases by (rewrite ?En; assumption).
      rewrite En.
      destruct (Z.ltb_spec blockNumber (FogMaze.block_number env)); [|lia].
      change FogMaze.BLOCK_WINDOW with 256.
      destruct (Z.leb_spec (FogMaze.block_number env - blockNumber) 256); [lia|].
      reflexivity.
  - repeat split; try discriminate; try lia; try reflexivity.
    intros env' En Eh. rewrite generateSeed_cases by (rewrite ?En; assumption).
    rewrite En.
    destruct (Z.ltb_spec blockNumber (FogMaze.block_number env)); [lia|].
    reflexivity.
Qed.

Lemma generateSeed_errors_and_value_witness :
  let env := FogMaze.mkEnv 1000 1700000000 (fun n => n * 7 + 1) 42 in
  let result := FogMaze.generateSeed (fun h p n => [h; p; n]) (foldr Z.add 0)
                                     env 900 42 5 in
  (result = FogMaze.Revert FogMaze.StaleReferenceError <-> ~ 900 < 1000) /\
  (result = FogMaze.Revert FogMaze.ExpiredReferenceError <-> 1000 - 900 > 256) /\
  (900 < 1000 -> 1000 - 900 <= 256 ->
   result = FogMaze.Success (foldr Z.add 0 [900 * 7 + 1; 42; 5])) /\
  (forall env' : FogMaze.Env,
      FogMaze.block_number env' = 1000 ->
      FogMaze.blockhash env' 900 = 900 * 7 + 1 ->
      FogMaze.generateSeed (fun h p n => [h; p; n]) (foldr Z.add 0) env' 900 42 5
      = result).
Proof.
  intros env result.
  apply (generateSeed_errors_and_value (fun h p n => [h; p; n]) (foldr Z.add 0)
           env 900 42 5);
    unfold uint256; vm_compute; split; discriminate.
Defined.

(** C8, as stated, fails: a player who holds 100 records and submits a run
    with level 0 is answered [InvalidLevelError], not
    [CapacityExceededError]; the level is checked first. *)
Lemma submitRun_full_level0_counterexample :
  let env := FogMaze.mkEnv 1000 1700000000 (fun n => n) 42 in
  let run := FogMaze.mkRun 1 10 20 0 1600000000 0 in
  let st := FogMaze.mkStorage {[ 42 := replicate 100 run ]} ∅ in
  length (FogMaze.runsOf st 42) = 100%nat /\
  FogMaze.submitRun (fun h p n => [h; p; n]) (foldr Z.add 0) env st 0 10 20 999 0
  = FogMaze.Revert FogMaze.InvalidLevelError /\
  FogMaze.InvalidLevelError <> FogMaze.CapacityExceededError.
Proof.
  intros env run st. split; [|split].
  - unfold FogMaze.runsOf, st. cbn [FogMaze.playerRuns].
    rewrite lookup_singleton_eq. reflexivity.
  - reflexivity.
  - discriminate.
Qed.

(** C8 (amended): for a player whose sequence holds 100 records, a submission
    with level > 0 fails with [CapacityExceededError]; a submission with
    level <= 0 fails with [InvalidLevelError] (also for such a player); in
    both cases no record is appended and the storage is unchanged. *)
Theorem submitRun_rejects_without_effect
    {bytes32 : Type} (encodePacked : bytes32 -> Z -> Z -> list Z)
    (keccak256 : list Z -> bytes32)
    (env : FogMaze.Env) (st : FogMaze.Storage)
    (level steps timeTaken blockNumber nonce : Z) :
  Z.of_nat (length (FogMaze.runsOf st (FogMaze.msg_sender env))) = 100 \/
  level <= 0 ->
  let result := FogMaze.submitRun encodePacked keccak256 env st
                                  level steps timeTaken blockNumber nonce in
  result = FogMaze.Revert (if 0 <? level then FogMaze.CapacityExceededError
                           else FogMaze.InvalidLevelError) /\
  FogMaze.storageAfter st result = st.
Proof.
  intros H result. subst result.
  rewrite submitRun_guards by exact H. split; reflexivity.
Qed.

Lemma submitRun_rejects_without_effect_witness :
  let env := FogMaze.mkEnv 1000 1700000000 (fun n => n) 42 in
  let run := FogMaze.mkRun 1 10 20 0 1600000000 0 in
  let st := FogMaze.mkStorage {[ 42 := replicate 100 run ]} ∅ in
  let result := FogMaze.submitRun (fun h p n => [h; p; n]) (foldr Z.add 0)
                                  env st 2 10 20 999 0 in
  result = FogMaze.Revert FogMaze.CapacityExceededError /\
  FogMaze.storageAfter st result = st.
Proof.
  intros env run st.
  apply (submitRun_rejects_without_effect (fun h p n => [h; p; n])
           (foldr Z.add 0) env st 2 10 20 999 0).
  left. unfold FogMaze.runsOf, st. cbn [FogMaze.playerRuns FogMaze.msg_sender env].
  rewrite lookup_singleton_eq. reflexivity.
Defined.

(** * The generator of pseudo-random numbers *)

Section PRNG.
Import SeededRandom.

Example constructor_example : constructor "0xdeadbeef0123" = 3735928559.
Proof. reflexivity. Qed.

Example constructor_zero_example : constructor "0x00000000ffff" = 1.
Proof. reflexivity. Qed.

Example next_example : next 1 = 1015568748.
Proof. reflexivity. Qed.

Example shuffle_example :
  shuffle [10; 20; 30; 40] 1 = ([40; 30; 20; 10], 2165703038).
Proof. reflexivity. Qed.

Lemma next_valid state : 0 <= state -> validState (next state).
Proof.
  intros H. unfold validState, next, a, c, m.
  rewrite Z.rem_mod_nonneg by lia.
  apply Z.mod_pos_bound. lia.
Qed.

(** [nextInt(min, max)] is in [[min, max)] and leaves a 32-bit state. *)
Lemma nextInt_range state min max :
  0 <= state -> min < max ->
  min <= fst (nextInt state min max) < max /\
  validState (snd (nextInt state min max)).
Proof.
  intros Hs Hlt. unfold nextInt. cbn [fst snd].
  pose proof (next_valid state Hs) as [H0 H1].
  split; [|split; assumption].
  assert (0 <= next state * (max - min) / m < max - min); [|lia].
  unfold m in *. split.
  - apply Z.div_pos; nia.
  - apply Z.div_lt_upper_bound; nia.
Qed.

Lemma constructor_valid seed : validState (constructor seed) /\ 1 <= constructor seed.
Proof.
  unfold constructor.
  assert (Hp : forall s acc n,
             (forall k, acc = Some k ->
                        0 <= k < 16 ^ (8 - Z.of_nat (String.length s))) ->
             (String.length s <= 8)%nat ->
             parseDigits s acc = Some n -> 0 <= n < 2 ^ 32).
  { induction s as [|ch s IH]; intros acc n Hacc Hlen; cbn [parseDigits].
    - intros E. specialize (Hacc _ E). cbn [String.length] in Hacc.
      change (8 - Z.of_nat 0) with 8 in Hacc. change (16 ^ 8) with (2 ^ 32) in Hacc.
      exact Hacc.
    - cbn [String.length] in Hlen, Hacc.
      assert (Hpow : 16 ^ (8 - Z.of_nat (S (String.length s))) * 16
                     = 16 ^ (8 - Z.of_nat (String.length s))).
      { replace (8 - Z.of_nat (String.length s))
          with (8 - Z.of_nat (S (String.length s)) + 1) by lia.
        rewrite Z.pow_add_r by lia. reflexivity. }
      assert (Hpos : 0 < 16 ^ (8 - Z.of_nat (S (String.length s)))).
      { apply Z.pow_pos_nonneg; lia. }
      destruct (hexDigit ch) as [d|] eqn:Ed.
      + assert (0 <= d < 16) as Hd.
        { unfold hexDigit in Ed. cbv zeta in Ed.
          repeat match type of Ed with
                 | (if ?b then _ else _) = _ => destruct b eqn:?
                 end; inversion Ed; lia. }
        apply IH; [|lia]. intros k [= <-].
        rewrite <- Hpow.
        destruct acc as [k0|]; cbn [default]; unfold id.
        * specialize (Hacc _ eq_refl).
          generalize dependent (16 ^ (8 - Z.of_nat (S (String.length s)))).
          intros; lia.
        * generalize dependent (16 ^ (8 - Z.of_nat (S (String.length s)))).
          intros; lia.
      + intros E. specialize (Hacc _ E).
        assert (16 ^ (8 - Z.of_nat (S (String.length s))) <= 16 ^ 8).
        { apply Z.pow_le_mono_r; lia. }
        change (16 ^ 8) with (2 ^ 32) in *. lia. }
  assert (Hlen : (String.length (substring 0 8 (stripPrefix seed)) <= 8)%nat).
  { generalize (stripPrefix seed). generalize 8%nat.
    induction n as [|n IH]; intros s; destruct s; cbn; try lia.
    specialize (IH s). cbn in IH. lia. }
  unfold parseInt16.
  destruct (parseDigits _ None) as [n|] eqn:E.
  - apply Hp in E; [|intros k; discriminate|exact Hlen].
    unfold validState, m. destruct n; lia.
  - unfold validState, m. lia.
Qed.

Context {A : Type}.
Implicit Types arr : list A.

Lemma swap_Permutation i j arr : swap i j arr ≡ₚ arr.
Proof.
  unfold swap.
  destruct (arr !! i) as [ai|] eqn:Ei; [|reflexivity].
  destruct (arr !! j) as [aj|] eqn:Ej; [|reflexivity].
  now apply Permutation_insert_swap.
Qed.

(** Inside the array [swap] is the exchange of the two entries. *)
Lemma swap_in_range i j arr ai aj :
  arr !! i = Some ai -> arr !! j = Some aj ->
  swap i j arr = <[j := ai]> (<[i := aj]> arr).
Proof. intros Ei Ej. unfold swap. now rewrite Ei, Ej. Qed.

Lemma shuffleLoop_spec i arr state :
  0 <= state ->
  fst (shuffleLoop i arr state) ≡ₚ arr /\
  0 <= snd (shuffleLoop i arr state) /\
  (state < m -> snd (shuffleLoop i arr state) < m).
Proof.
  revert arr state. induction i as [|i IH]; intros arr state Hs.
  - cbn. split; [reflexivity|lia].
  - cbn [shuffleLoop].
    destruct (nextInt state 0 (Z.of_nat (S i) + 1)) as [j state'] eqn:E.
    pose proof (nextInt_range state 0 (Z.of_nat (S i) + 1) Hs ltac:(lia))
      as [_ [Hv0 Hv1]].
    rewrite E in Hv0, Hv1. cbn [snd] in Hv0, Hv1.
    destruct (IH (swap (S i) (Z.to_nat j) arr) state' Hv0) as (Hp & H0 & H1).
    split; [|split].
    + rewrite Hp. apply swap_Permutation.
    + exact H0.
    + intros _. apply H1. exact Hv1.
Qed.

(** The array [shuffle] returns is a permutation of its argument, and the
    state stays a 32-bit value. *)
Lemma shuffle_spec arr state :
  validState state ->
  fst (shuffle arr state) ≡ₚ arr /\ validState (snd (shuffle arr state)).
Proof.
  intros [H0 H1]. unfold shuffle.
  destruct (shuffleLoop_spec (length arr - 1) arr state H0) as (Hp & Ha & Hb).
  split; [exact Hp|]. split; [exact Ha|]. apply Hb, H1.
Qed.

(** The in-place loop on the copy writes the reference [r] only, and what it
    leaves there is what the loop over the array value computes. *)
Lemma shuffleLoopAt_spec i (r : positive) (h : gmap positive (list A))
      (elems : list A) state :
  h !! r = Some elems ->
  shuffleLoopAt i r h state =
    (<[r := fst (shuffleLoop i elems state)]> h, snd (shuffleLoop i elems state)).
Proof.
  revert h elems state. induction i as [|i IH]; intros h elems state Hr.
  - cbn. now rewrite insert_id.
  - cbn [shuffleLoopAt shuffleLoop].
    destruct (nextInt state 0 (Z.of_nat (S i) + 1)) as [j state'].
    rewrite (IH _ (swap (S i) (Z.to_nat j) elems)).
    + f_equal. apply map_eq. intros k.
      destruct (decide (k = r)) as [->|Hne].
      * now rewrite !lookup_insert_eq.
      * now rewrite !lookup_insert_ne, lookup_alter_ne by congruence.
    + now rewrite lookup_alter_eq, Hr.
Qed.

End PRNG.

(** C10: for every 32-bit state and every array, [shuffle] returns a newly
    allocated array that holds a permutation of the argument's elements
    (same elements, same multiplicities); the argument, and every other
    array of the store, is left as it was.  The array value returned is the
    one [SeededRandom.shuffle] computes. *)
Theorem shuffle_permutes_a_copy {A : Type}
    (h : gmap positive (list A)) (array : positive) (elems : list A) (state : Z) :
  validState state ->
  h !! array = Some elems ->
  exists arr h' state',
    SeededRandom.shuffleAt array h state = Done (arr, h', state') /\
    arr <> array /\
    h' !! array = Some elems /\
    (forall r, r <> arr -> h' !! r = h !! r) /\
    h' !! arr = Some (fst (SeededRandom.shuffle elems state)) /\
    fst (SeededRandom.shuffle elems state) ≡ₚ elems /\
    state' = snd (SeededRandom.shuffle elems state) /\
    validState state'.
Proof.
  intros Hv Harr. unfold SeededRandom.shuffleAt. rewrite Harr.
  set (arr := fresh (dom h)).
  assert (Hfresh : h !! arr = None).
  { apply not_elem_of_dom. apply is_fresh. }
  assert (Hne : arr <> array) by congruence.
  rewrite (shuffleLoopAt_spec _ arr _ elems) by apply lookup_insert_eq.
  eexists _, _, _. split; [reflexivity|].
  destruct (shuffle_spec elems state Hv) as [Hp Hs].
  repeat split; try assumption; try apply Hs.
  - now rewrite !lookup_insert_ne by congruence.
  - intros r Hr. now rewrite !lookup_insert_ne by congruence.
  - now rewrite lookup_insert_eq.
Qed.

Lemma shuffle_permutes_a_copy_witness :
  exists arr h' state',
    SeededRandom.shuffleAt 1%positive {[ 1%positive := [10; 20; 30; 40] ]} 1
    = Done (arr, h', state') /\
    arr <> 1%positive /\
    h' !! 1%positive = Some [10; 20; 30; 40] /\
    (forall r,
        r <> arr ->
        h' !! r
        = ({[ 1%positive := [10; 20; 30; 40] ]} : gmap positive (list Z)) !! r) /\
    h' !! arr = Some (fst (SeededRandom.shuffle [10; 20; 30; 40] 1)) /\
    fst (SeededRandom.shuffle [10; 20; 30; 40] 1) ≡ₚ [10; 20; 30; 40] /\
    state' = snd (SeededRandom.shuffle [10; 20; 30; 40] 1) /\
    validState state'.
Proof.
  apply (shuffle_permutes_a_copy {[ 1%positive := [10; 20; 30; 40] ]} 1%positive
           [10; 20; 30; 40] 1).
  - unfold validState, SeededRandom.m. lia.
  - reflexivity.
Defined.

(** * Arrays of arrays *)

Section ArrayReads.
Context {A : Type}.
Implicit Types (l : list A).

Lemma nthZ_Some l k v : nthZ l k = Some v -> 0 <= k < Z.of_nat (length l).
Proof.
  unfold nthZ. destruct (Z.leb_spec 0 k); [|discriminate].
  intros E. apply lookup_lt_Some in E. lia.
Qed.

Lemma nthZ_is_Some l k : 0 <= k < Z.of_nat (length l) -> is_Some (nthZ l k).
Proof.
  intros H. unfold nthZ. destruct (Z.leb_spec 0 k); [|lia].
  apply lookup_lt_is_Some. lia.
Qed.

Lemma nthZ_elem_of l k v : nthZ l k = Some v -> v ∈ l.
Proof.
  unfold nthZ. destruct (0 <=? k); [|discriminate].
  apply list_elem_of_lookup_2.
Qed.

End ArrayReads.

Section Arrays.
Context {A : Type}.
Implicit Types (a : list (list A)).

Lemma at2_Some a n x y v :
  square n a -> at2 a x y = Some v -> 0 <= x < n /\ 0 <= y < n.
Proof.
  intros [Hlen Hrows]. unfold at2.
  destruct (nthZ a y) as [row|] eqn:Ey; [|discriminate].
  intros Ex. apply nthZ_Some in Ex.
  pose proof (nthZ_elem_of _ _ _ Ey) as Hin.
  apply nthZ_Some in Ey.
  rewrite Forall_forall in Hrows. specialize (Hrows _ Hin). lia.
Qed.

Lemma at2_is_Some a n x y :
  square n a -> 0 <= x < n -> 0 <= y < n -> is_Some (at2 a x y).
Proof.
  intros [Hlen Hrows] Hx Hy. unfold at2.
  destruct (nthZ_is_Some a y ltac:(lia)) as [row Ey]. rewrite Ey.
  apply nthZ_is_Some.
  rewrite Forall_forall in Hrows.
  rewrite (Hrows row (nthZ_elem_of _ _ _ Ey)). exact Hx.
Qed.

Lemma square_set2 a n x y v : square n a -> square n (set2 a x y v).
Proof.
  intros [Hlen Hrows]. unfold set2.
  destruct ((0 <=? x) && (0 <=? y)); [|now split].
  split.
  - now rewrite length_alter.
  - rewrite Forall_forall in *. intros row Hin.
    apply list_elem_of_lookup in Hin as [i Hi].
    destruct (decide (i = Z.to_nat y)) as [->|Hne].
    + rewrite list_lookup_alter_eq in Hi.
      destruct (a !! Z.to_nat y) as [row0|] eqn:E; [|discriminate].
      inversion Hi; subst. rewrite length_insert.
      apply Hrows. eapply list_elem_of_lookup_2, E.
    + rewrite list_lookup_alter_ne in Hi by congruence.
      apply Hrows. eapply list_elem_of_lookup_2, Hi.
Qed.

(** Reading after a write. *)
Lemma at2_set2_eq a n x y v :
  square n a -> 0 <= x < n -> 0 <= y < n -> at2 (set2 a x y v) x y = Some v.
Proof.
  intros Hsq Hx Hy.
  destruct (at2_is_Some a n x y Hsq Hx Hy) as [w Hw].
  revert Hw. unfold at2, set2, nthZ.
  destruct (Z.leb_spec 0 x); [|lia]. destruct (Z.leb_spec 0 y); [|lia].
  cbn [andb]. rewrite list_lookup_alter_eq.
  destruct (a !! Z.to_nat y) as [row|]; [|discriminate]. cbn.
  intros Hw. apply list_lookup_insert_eq. now apply lookup_lt_Some in Hw.
Qed.

Lemma at2_set2_ne a x y v x' y' :
  (x, y) <> (x', y') -> at2 (set2 a x y v) x' y' = at2 a x' y'.
Proof.
  intros Hne. unfold at2, set2, nthZ.
  destruct (Z.leb_spec 0 x); [|reflexivity].
  destruct (Z.leb_spec 0 y); [|reflexivity]. cbn [andb].
  destruct (Z.leb_spec 0 y'); [|reflexivity].
  destruct (decide (y = y')) as [->|Hy].
  - rewrite list_lookup_alter_eq.
    destruct (a !! Z.to_nat y') as [row|]; [|reflexivity]. cbn.
    destruct (Z.leb_spec 0 x'); [|reflexivity].
    apply list_lookup_insert_ne. intros E. apply Hne. f_equal. lia.
  - rewrite list_lookup_alter_ne by lia. reflexivity.
Qed.

Lemma at2_set2 a n x y v x' y' :
  square n a ->
  at2 (set2 a x y v) x' y' =
    if decide ((x, y) = (x', y') /\ 0 <= x < n /\ 0 <= y < n)
    then Some v else at2 a x' y'.
Proof.
  intros Hsq. destruct (decide _) as [[E [Hx Hy]]|Hn].
  - inversion E; subst. now apply (at2_set2_eq a n).
  - destruct (decide ((x, y) = (x', y'))) as [E|E].
    + inversion E; subst.
      assert (Hout : ~ (0 <= x' < n /\ 0 <= y' < n)) by tauto.
      destruct (at2 (set2 a x' y' v) x' y') eqn:E1.
      * apply (at2_Some _ n) in E1; [tauto|now apply square_set2].
      * destruct (at2 a x' y') eqn:E2; [|reflexivity].
        apply (at2_Some _ n) in E2; [tauto|assumption].
    + now apply at2_set2_ne.
Qed.

Lemma square_replicate n (v : A) :
  0 <= n -> square n (replicate (Z.to_nat n) (replicate (Z.to_nat n) v)).
Proof.
  intros Hn. split.
  - rewrite length_replicate. lia.
  - apply Forall_replicate. rewrite length_replicate. lia.
Qed.

Lemma at2_replicate n (v : A) x y w :
  at2 (replicate (Z.to_nat n) (replicate (Z.to_nat n) v)) x y = Some w -> w = v.
Proof.
  unfold at2, nthZ. destruct (0 <=? y); [|discriminate].
  destruct (replicate _ _ !! Z.to_nat y) as [row|] eqn:E; [|discriminate].
  apply lookup_replicate in E as [-> _].
  destruct (0 <=? x); [|discriminate].
  intros E. now apply lookup_replicate in E as [-> _].
Qed.

End Arrays.

(** * Connectivity of a grid *)

Section Connectivity.
Implicit Types (g : list (list Z)) (p q : Z * Z).

Lemma adjacent_sym p q : adjacent p q -> adjacent q p.
Proof. unfold adjacent. lia. Qed.

Global Instance move_symmetric g : Symmetric (move g).
Proof. intros p q (Hp & Hq & Ha). repeat split; auto using adjacent_sym. Qed.

Lemma reachable_sym g p q : reachable g p q -> reachable g q p.
Proof. unfold reachable. intros H. now symmetry. Qed.

Lemma nonWall_inside g n p :
  square n g -> nonWall g p -> 0 <= fst p < n /\ 0 <= snd p < n.
Proof. intros Hsq (v & Hv & _). eapply at2_Some; eauto. Qed.

(** Writing a code other than wall keeps every non-wall cell non-wall. *)
Lemma nonWall_set2 g n x y v p :
  square n g -> v <> 0 -> nonWall g p -> nonWall (set2 g x y v) p.
Proof.
  intros Hsq Hv (w & Hw & Hw0). destruct p as [px py]. unfold nonWall.
  cbn [fst snd] in *. rewrite (at2_set2 g n) by assumption.
  destruct (decide _); eauto.
Qed.

Lemma nonWall_set2_here g n x y v :
  square n g -> 0 <= x < n -> 0 <= y < n -> v <> 0 ->
  nonWall (set2 g x y v) (x, y).
Proof.
  intros Hsq Hx Hy Hv. exists v. split; [|assumption].
  now apply (at2_set2_eq g n).
Qed.

Lemma nonWall_set2_inv g x y v p :
  nonWall (set2 g x y v) p -> p = (x, y) \/ nonWall g p.
Proof.
  intros (w & Hw & Hw0). destruct p as [px py]. cbn [fst snd] in *.
  destruct (decide ((x, y) = (px, py))) as [E|E]; [left; congruence|].
  right. exists w. rewrite at2_set2_ne in Hw by assumption. auto.
Qed.

Lemma move_set2 g n x y v p q :
  square n g -> v <> 0 -> move g p q -> move (set2 g x y v) p q.
Proof.
  intros Hsq Hv (Hp & Hq & Ha). repeat split; eauto using nonWall_set2.
Qed.

Lemma reachable_set2 g n x y v p q :
  square n g -> v <> 0 -> reachable g p q -> reachable (set2 g x y v) p q.
Proof.
  intros Hsq Hv. apply rtc_subrel. intros ? ?. now apply (move_set2 g n).
Qed.

(** Opening a cell next to a non-wall cell keeps the grid connected. *)
Lemma connected_open g n x y v q :
  square n g -> connected g ->
  0 <= x < n -> 0 <= y < n -> v <> 0 ->
  nonWall g q -> adjacent (x, y) q ->
  connected (set2 g x y v).
Proof.
  intros Hsq Hc Hx Hy Hv Hq Ha.
  assert (Hto : forall p, nonWall (set2 g x y v) p ->
                          reachable (set2 g x y v) p q).
  { intros p Hp. destruct (nonWall_set2_inv _ _ _ _ _ Hp) as [->|Hp'].
    - apply rtc_once. repeat split; eauto using nonWall_set2.
    - apply (reachable_set2 g n); auto. }
  intros p1 p2 H1 H2. unfold reachable.
  transitivity q; [now apply Hto|].
  apply reachable_sym. now apply Hto.
Qed.

(** The first cell opened in a grid of walls. *)
Lemma connected_first g x y v :
  (forall p, ~ nonWall g p) -> connected (set2 g x y v).
Proof.
  intros Hnone p1 p2 H1 H2.
  apply nonWall_set2_inv in H1 as [->|H1]; [|now apply Hnone in H1].
  apply nonWall_set2_inv in H2 as [->|H2]; [|now apply Hnone in H2].
  apply rtc_refl.
Qed.

(** Recoding a non-wall cell with another code that is not wall. *)
Lemma connected_recode g n x y v :
  square n g -> connected g -> nonWall g (x, y) -> v <> 0 ->
  connected (set2 g x y v).
Proof.
  intros Hsq Hc Hxy Hv p1 p2 H1 H2.
  apply (reachable_set2 g n); auto. apply Hc.
  - apply nonWall_set2_inv in H1 as [->|H1]; assumption.
  - apply nonWall_set2_inv in H2 as [->|H2]; assumption.
Qed.

End Connectivity.

(** * Carving: [recursiveBacktrack] *)

Section Counting.

Lemma countFalse_insert (l : list bool) i :
  l !! i = Some false ->
  (countFalse (<[i := true]> l) + 1 = countFalse l)%nat.
Proof.
  revert i. induction l as [|b l IH]; intros [|i]; try discriminate.
  - intros [= ->]. cbn. lia.
  - intros E. specialize (IH i E).
    change (<[S i := true]> (b :: l)) with (b :: <[i := true]> l).
    cbn [countFalse]. lia.
Qed.

Lemma unvisited_alter (f : list bool -> list bool) (v : list (list bool)) j row :
  v !! j = Some row ->
  (unvisited (alter f j v) + countFalse row
   = unvisited v + countFalse (f row))%nat.
Proof.
  unfold unvisited. revert j.
  induction v as [|r v IH]; intros [|j]; try discriminate.
  - intros [= ->]. cbn. lia.
  - intros E. specialize (IH j E).
    change (alter f (S j) (r :: v)) with (r :: alter f j v).
    cbn [fmap list_fmap sum_list] in *. lia.
Qed.

(** Visiting a cell that was not visited takes one off the count. *)
Lemma unvisited_set2 (v : list (list bool)) x y :
  at2 v x y = Some false ->
  (unvisited (set2 v x y true) + 1 = unvisited v)%nat.
Proof.
  unfold at2, set2, nthZ.
  destruct (Z.leb_spec 0 y); [|discriminate].
  destruct (v !! Z.to_nat y) as [row|] eqn:Ey; [|discriminate].
  destruct (Z.leb_spec 0 x); [|discriminate]. cbn [andb].
  intros Ex.
  pose proof (unvisited_alter (fun row => <[Z.to_nat x := true]> row) v _ _ Ey).
  pose proof (countFalse_insert row _ Ex). lia.
Qed.

Lemma countPaths_insert (row : list Z) i :
  row !! i = Some 0 ->
  countPaths (<[i := 1]> row) = S (countPaths row).
Proof.
  revert i. induction row as [|b row IH]; intros [|i]; try discriminate.
  - intros [= ->]. reflexivity.
  - intros E. specialize (IH i E).
    change (<[S i := 1]> (b :: row)) with (b :: <[i := 1]> row).
    cbn [countPaths]. lia.
Qed.

Lemma pathCount_alter (f : list Z -> list Z) (g : list (list Z)) j row :
  g !! j = Some row ->
  (pathCount (alter f j g) + countPaths row
   = pathCount g + countPaths (f row))%nat.
Proof.
  unfold pathCount. revert j.
  induction g as [|r g IH]; intros [|j]; try discriminate.
  - intros [= ->]. cbn. lia.
  - intros E. specialize (IH j E).
    change (alter f (S j) (r :: g)) with (r :: alter f j g).
    cbn [fmap list_fmap sum_list] in *. lia.
Qed.

(** Opening a wall adds one path. *)
Lemma pathCount_set2 (g : list (list Z)) x y :
  at2 g x y = Some 0 ->
  pathCount (set2 g x y 1) = S (pathCount g).
Proof.
  unfold at2, set2, nthZ.
  destruct (Z.leb_spec 0 y); [|discriminate].
  destruct (g !! Z.to_nat y) as [row|] eqn:Ey; [|discriminate].
  destruct (Z.leb_spec 0 x); [|discriminate]. cbn [andb].
  intros Ex.
  pose proof (pathCount_alter (fun row => <[Z.to_nat x := 1]> row) g _ _ Ey).
  pose proof (countPaths_insert row _ Ex). lia.
Qed.

End Counting.

Section Extends.
Import MazeGenerator.

Lemma extends_refl self : extends self self.
Proof. split; auto. intros x y H1 H2. contradiction. Qed.

Lemma extends_trans s1 s2 s3 : extends s1 s2 -> extends s2 s3 -> extends s1 s3.
Proof.
  intros [A1 A2 A3 A4 A5 A6 A7] [B1 B2 B3 B4 B5 B6 B7]. split; try congruence; auto.
  - lia.
  - intros x y H3 H1 dx dy Hd Hv.
    destruct (decide (at2 (visited s2) x y = Some true)) as [H2|H2].
    + apply B5. eapply A7; eauto.
    + eapply B7; eauto. now rewrite A1.
Qed.

Lemma extends_set_prng self p : extends self (set_prng self p).
Proof. split; auto. intros x y H1 H2. contradiction. Qed.

(** Opening a grid cell. *)
Lemma extends_open self x y :
  square (gridSize self) (grid self) ->
  extends self (set_grid self (set2 (grid self) x y PATH)).
Proof.
  intros Hsq. split; auto; cbn.
  - intros x' y' H. rewrite (at2_set2 _ _ _ _ _ _ _ Hsq).
    destruct (decide _); [reflexivity|assumption].
  - intros x' y' H1 H2. contradiction.
Qed.

Lemma wellFormed_set_prng self p :
  wellFormed self -> validState p -> wellFormed (set_prng self p).
Proof. intros [H1 H2 H3 H4 H5 H6 H7] Hp. split; auto. Qed.

Lemma wellFormed_open self x y :
  wellFormed self -> wellFormed (set_grid self (set2 (grid self) x y PATH)).
Proof.
  intros [H1 H2 H3 H4 H5 H6 H7]. split; auto; cbn.
  - now apply square_set2.
  - intros x' y' v. rewrite (at2_set2 _ _ _ _ _ _ _ H3).
    destruct (decide _); [intros [= <-]; now right|apply H6].
  - intros x' y' Hv. rewrite (at2_set2 _ _ _ _ _ _ _ H3).
    destruct (decide _); [reflexivity|now apply H7].
Qed.

End Extends.

Section Carving.
Import MazeGenerator.

Lemma recursiveBacktrack_S fuel self cellX cellY :
  recursiveBacktrack (S fuel) self cellX cellY =
    let s0 := visit self cellX cellY in
    forOf (carveStep (recursiveBacktrack fuel) cellX cellY)
          (fst (SeededRandom.shuffle directions (prng s0)))
          (set_prng s0 (snd (SeededRandom.shuffle directions (prng s0)))).
Proof.
  cbn [recursiveBacktrack]. unfold visit. cbv zeta.
  destruct (SeededRandom.shuffle directions _) as [shuffled p]. reflexivity.
Qed.

Lemma directions_unit dx dy :
  (dx, dy) ∈ directions -> Z.abs dx + Z.abs dy = 1.
Proof.
  unfold directions. rewrite !elem_of_cons, elem_of_nil.
  intros [E|[E|[E|[E|[]]]]]; inversion E; subst; reflexivity.
Qed.

Lemma isValidCell_spec self x y :
  isValidCell self x y = true <-> validCell (size self) (x, y).
Proof.
  unfold isValidCell, validCell. cbn [fst snd].
  rewrite !andb_true_iff, !Z.leb_le, !Z.ltb_lt. tauto.
Qed.

Lemma isVisited_spec self x y :
  square (size self) (visited self) -> validCell (size self) (x, y) ->
  at2 (visited self) x y = Some (isVisited self x y).
Proof.
  intros Hsq [Hx Hy]. cbn [fst snd] in *. unfold isVisited.
  destruct (at2_is_Some _ _ x y Hsq Hx Hy) as [b ->]. reflexivity.
Qed.

Lemma wellFormed_visit self cellX cellY :
  wellFormed self -> validCell (size self) (cellX, cellY) ->
  wellFormed (visit self cellX cellY).
Proof.
  intros [H1 H2 H3 H4 H5 H6 H7] [Hx Hy]. cbn [fst snd] in *.
  unfold visit. split; cbn; auto.
  - now apply square_set2.
  - now apply square_set2.
  - intros x y v. rewrite (at2_set2 _ _ _ _ _ _ _ H3).
    destruct (decide _); [intros [= <-]; now right|apply H6].
  - intros x y. rewrite (at2_set2 _ _ _ _ _ _ _ H4).
    rewrite (at2_set2 _ _ _ _ _ _ _ H3).
    destruct (decide (_ /\ _ /\ _)) as [[E _]|Hn].
    + inversion E; subst. intros _. rewrite decide_True; [reflexivity|].
      split; [reflexivity|lia].
    + intros Hv. destruct (decide _); [reflexivity|now apply H7].
Qed.

Lemma directions_opposite dx dy :
  (dx, dy) ∈ directions -> (- dx, - dy) ∈ directions.
Proof.
  unfold directions. rewrite !elem_of_cons, elem_of_nil.
  intros [E|[E|[E|[E|[]]]]]; inversion E; subst;
    change (- 0) with 0; change (- -1) with 1; change (- (1)) with (-1);
    auto 10.
Qed.

Lemma tidy_set_prng self p : tidy self -> tidy (set_prng self p).
Proof. intros [H1 H2 H3 H4]. split; auto. Qed.

(** Carving the passage to an unvisited neighbour and visiting it keeps the
    drawing tidy. *)
Lemma tidy_step s cx cy dx dy :
  wellFormed s -> tidy s ->
  validCell (size s) (cx, cy) -> at2 (visited s) cx cy = Some true ->
  (dx, dy) ∈ directions ->
  validCell (size s) (cx + dx, cy + dy) ->
  at2 (visited s) (cx + dx) (cy + dy) = Some false ->
  tidy (visit (set_grid s (set2 (grid s) (cx * 2 + 1 + dx) (cy * 2 + 1 + dy) PATH))
              (cx + dx) (cy + dy)).
Proof.
  intros Hwf [Tc Tp Ts Tn] [Hcx Hcy] Hvis Hd [Hnx Hny] Hnew. cbn [fst snd] in *.
  pose proof (wf_gridSize _ Hwf) as Hgs.
  pose proof (wf_grid _ Hwf) as Hsq.
  pose proof (wf_visited _ Hwf) as Hsqv.
  pose proof (directions_unit _ _ Hd) as Hunit.
  set (wx := cx * 2 + 1 + dx). set (wy := cy * 2 + 1 + dy).
  set (nx := cx + dx) in *. set (ny := cy + dy) in *.
  set (g1 := set2 (grid s) wx wy PATH).
  assert (Hsq1 : square (gridSize s) g1) by now apply square_set2.
  assert (Hg2 : forall a b,
             at2 (set2 g1 (nx * 2 + 1) (ny * 2 + 1) PATH) a b =
               if decide ((nx * 2 + 1, ny * 2 + 1) = (a, b)) then Some 1
               else if decide ((wx, wy) = (a, b)) then Some 1
                    else at2 (grid s) a b).
  { intros a b. rewrite (at2_set2 _ _ _ _ _ _ _ Hsq1).
    unfold g1. rewrite (at2_set2 _ _ _ _ _ _ _ Hsq).
    repeat destruct (decide _); try reflexivity;
      exfalso; unfold wx, wy, nx, ny in *; intuition lia. }
  assert (Hv' : forall a b,
             at2 (set2 (visited s) nx ny true) a b =
               if decide ((nx, ny) = (a, b)) then Some true
               else at2 (visited s) a b).
  { intros a b. rewrite (at2_set2 _ _ _ _ _ _ _ Hsqv).
    repeat destruct (decide _); try reflexivity; exfalso; intuition lia. }
  assert (Hw0 : at2 (grid s) wx wy = Some 0).
  { destruct (at2_is_Some (grid s) (gridSize s) wx wy Hsq) as [v Hv];
      [unfold wx; lia | unfold wy; lia |].
    destruct (wf_codes _ Hwf _ _ _ Hv) as [-> | ->]; [exact Hv|].
    exfalso.
    assert (Hn : at2 (visited s) nx ny = Some true).
    { apply (Tp nx ny (- dx) (- dy)); [split; assumption| |].
      - now apply directions_opposite.
      - replace (nx * 2 + 1 + - dx) with wx by (unfold wx, nx; lia).
        replace (ny * 2 + 1 + - dy) with wy by (unfold wy, ny; lia).
        exact Hv. }
    congruence. }
  assert (Hn0 : at2 g1 (nx * 2 + 1) (ny * 2 + 1) = Some 0).
  { unfold g1. rewrite at2_set2_ne; [now apply Tc|].
    intros E. inversion E. unfold wx, wy, nx, ny in *. lia. }
  assert (Hp : pathCount (set2 g1 (nx * 2 + 1) (ny * 2 + 1) PATH)
               = S (S (pathCount (grid s)))).
  { unfold PATH. rewrite (pathCount_set2 _ _ _ Hn0).
    unfold g1, PATH. now rewrite (pathCount_set2 _ _ _ Hw0). }
  change (tidy (mk (size s) (level s) (prng s) (gridSize s)
                   (set2 g1 (nx * 2 + 1) (ny * 2 + 1) PATH)
                   (set2 (visited s) nx ny true))).
  split; cbn [grid visited size].
  - intros x y. rewrite Hv', Hg2.
    destruct (decide ((nx, ny) = (x, y))) as [E|Hne]; [discriminate|].
    intros Hf. apply Tc in Hf.
    destruct (decide _) as [E|_]; [exfalso; inversion E; apply Hne; f_equal; lia|].
    destruct (decide _) as [E|_]; [|exact Hf].
    exfalso. inversion E. unfold wx, wy in *. lia.
  - intros x y ex ey [Hx Hy] He. cbn [fst snd] in *.
    pose proof (directions_unit _ _ He) as Hunit'.
    rewrite Hv', Hg2.
    destruct (decide ((nx, ny) = (x, y))) as [E|Hne]; [reflexivity|].
    destruct (decide _) as [E|_].
    { exfalso. inversion E. lia. }
    destruct (decide _) as [E|_].
    + intros _. inversion E.
      assert (x = cx /\ y = cy) as [-> ->].
      { assert (~ (x = nx /\ y = ny)) by (intros [-> ->]; now apply Hne).
        unfold wx, wy, nx, ny in *. lia. }
      exact Hvis.
    + apply Tp; [split; assumption|exact He].
  - intros gx gy. rewrite Hg2.
    destruct (decide _) as [E|_].
    { intros _. inversion E; subst gx gy.
      exists nx, ny. split; [split; assumption|]. now left. }
    destruct (decide _) as [E|_].
    { intros _. inversion E; subst gx gy.
      exists cx, cy. split; [split; assumption|].
      right. exists dx, dy. split; [exact Hd|].
      split; [split; assumption|]. split; reflexivity. }
    apply Ts.
  - rewrite Hp. pose proof (unvisited_set2 _ _ _ Hnew). lia.
Qed.

(** The loop over the shuffled directions, given that the recursive calls
    behave. *)
Lemma carveLoop fuel cellX cellY (IH : carves fuel) :
  forall ds s,
    (forall d, d ∈ ds -> d ∈ directions) ->
    wellFormed s -> connected (grid s) -> tidy s ->
    validCell (size s) (cellX, cellY) ->
    at2 (visited s) cellX cellY = Some true ->
    (unvisited (visited s) <= fuel)%nat ->
    exists s',
      forOf (carveStep (recursiveBacktrack fuel) cellX cellY) ds s = Done s' /\
      wellFormed s' /\ connected (grid s') /\ tidy s' /\ extends s s' /\
      forall dx dy, (dx, dy) ∈ ds ->
        validCell (size s) (cellX + dx, cellY + dy) ->
        at2 (visited s') (cellX + dx) (cellY + dy) = Some true.
Proof.
  induction ds as [|[dx dy] ds IHds];
    intros s Hds Hwf Hconn Htidy Hc Hvis Hcount.
  - exists s. cbn [forOf].
    split; [reflexivity|]. split; [exact Hwf|]. split; [exact Hconn|].
    split; [exact Htidy|]. split; [apply extends_refl|].
    intros dx dy Hin. now apply elem_of_nil in Hin.
  - cbn [forOf].
    assert (Hd : (dx, dy) ∈ directions) by (apply Hds; left).
    pose proof (directions_unit _ _ Hd) as Hunit.
    assert (Hds' : forall d, d ∈ ds -> d ∈ directions).
    { intros d Hin. apply Hds. now right. }
    unfold carveStep at 1. cbv zeta.
    destruct (isValidCell s (cellX + dx) (cellY + dy)) eqn:Evalid; cbn [andb].
    2:{ cbn [bind].
        destruct (IHds s Hds' Hwf Hconn Htidy Hc Hvis Hcount)
          as (s' & Hrun & Hwf' & Hconn' & Htidy' & Hext & Hall).
        exists s'. split; [exact Hrun|]. split; [exact Hwf'|].
        split; [exact Hconn'|]. split; [exact Htidy'|]. split; [exact Hext|].
        intros dx' dy' Hin Hv. apply elem_of_cons in Hin as [E|Hin]; [|auto].
        inversion E; subst. apply isValidCell_spec in Hv. congruence. }
    apply isValidCell_spec in Evalid.
    pose proof (isVisited_spec s _ _ (wf_visited _ Hwf) Evalid) as Hn.
    destruct (isVisited s (cellX + dx) (cellY + dy)) eqn:Evis; cbn [negb].
    { cbn [bind].
      destruct (IHds s Hds' Hwf Hconn Htidy Hc Hvis Hcount)
        as (s' & Hrun & Hwf' & Hconn' & Htidy' & Hext & Hall).
      exists s'. split; [exact Hrun|]. split; [exact Hwf'|].
      split; [exact Hconn'|]. split; [exact Htidy'|]. split; [exact Hext|].
      intros dx' dy' Hin Hv. apply elem_of_cons in Hin as [E|Hin]; [|auto].
      inversion E; subst. now apply (ext_visited _ _ Hext). }
    set (wallX := cellX * 2 + 1 + dx). set (wallY := cellY * 2 + 1 + dy).
    set (s1 := set_grid s (set2 (grid s) wallX wallY PATH)).
    pose proof (tidy_step s cellX cellY dx dy Hwf Htidy Hc Hvis Hd Evalid Hn)
      as Htidy1.
    destruct Hc as [Hcx Hcy], Evalid as [Hnx Hny]. cbn [fst snd] in *.
    pose proof (wf_gridSize _ Hwf) as Hgs.
    pose proof (wf_grid _ Hwf) as Hsq.
    assert (Hwf1 : wellFormed s1) by now apply wellFormed_open.
    assert (Hconn1 : connected (grid s1)).
    { unfold s1. cbn [grid set_grid].
      apply (connected_open _ (gridSize s) _ _ _ (cellX * 2 + 1, cellY * 2 + 1));
        auto; try (unfold wallX, wallY; lia); try discriminate.
      - exists 1. split; [|discriminate]. cbn [fst snd].
        now apply (wf_carved _ Hwf).
      - unfold adjacent, wallX, wallY. cbn [fst snd]. lia. }
    assert (Hpre : carvePre s1 (cellX + dx) (cellY + dy)).
    { split; [exact Hwf1|]. split; [split; assumption|]. split; [exact Hn|].
      split; [|exact Htidy1].
      apply (connected_open _ (gridSize s) _ _ _ (wallX, wallY));
        auto; try lia; try discriminate.
      - apply (wf_grid _ Hwf1).
      - unfold s1. cbn [grid set_grid].
        apply (nonWall_set2_here _ (gridSize s)); auto;
          try (unfold wallX, wallY; lia); discriminate.
      - unfold adjacent, wallX, wallY. cbn [fst snd]. lia. }
    destruct (IH s1 _ _ Hpre Hcount)
      as (s2 & Hrun2 & Hwf2 & Hconn2 & Hext2 & Hvis2 & Htidy2).
    fold wallX wallY s1. rewrite Hrun2. cbn [bind].
    assert (Hext12 : extends s s2).
    { eapply extends_trans; [apply extends_open, Hsq|exact Hext2]. }
    destruct (IHds s2) as (s' & Hrun & Hwf' & Hconn' & Htidy' & Hext & Hall); auto.
    { rewrite (ext_size _ _ Hext12). split; assumption. }
    { now apply (ext_visited _ _ Hext12). }
    { pose proof (ext_count _ _ Hext12). lia. }
    exists s'. split; [exact Hrun|]. split; [exact Hwf'|]. split; [exact Hconn'|].
    split; [exact Htidy'|].
    split; [eapply extends_trans; eassumption|].
    intros dx' dy' Hin Hv. apply elem_of_cons in Hin as [E|Hin].
    + inversion E; subst. now apply (ext_visited _ _ Hext).
    + apply Hall; [assumption|]. now rewrite (ext_size _ _ Hext12).
Qed.

(** Every call of [recursiveBacktrack] on an unvisited cell returns, when
    its budget is at least the number of unvisited cells, and establishes
    [carvePost]. *)
Lemma carves_all fuel : carves fuel.
Proof.
  induction fuel as [|fuel IH];
    intros self cellX cellY (Hwf & Hc & Hnot & Hconn & Htidy) Hcount.
  { pose proof (unvisited_set2 _ _ _ Hnot). lia. }
  rewrite recursiveBacktrack_S. cbv zeta.
  set (s0 := visit self cellX cellY) in *.
  assert (Hwf0 : wellFormed s0) by now apply wellFormed_visit.
  destruct (shuffle_spec directions (prng s0) (wf_prng _ Hwf0)) as [Hperm Hp].
  set (shuffled := fst (SeededRandom.shuffle directions (prng s0))) in *.
  set (p := snd (SeededRandom.shuffle directions (prng s0))) in *.
  pose proof (wf_visited _ Hwf) as Hsqv.
  pose proof (wf_grid _ Hwf) as Hsqg.
  destruct Hc as [Hcx Hcy]. cbn [fst snd] in *.
  assert (Hvis0 : at2 (visited s0) cellX cellY = Some true).
  { unfold s0, visit. cbn. now apply (at2_set2_eq _ (size self)). }
  assert (Hcount0 : (unvisited (visited s0) + 1 = unvisited (visited self))%nat).
  { unfold s0, visit. cbn. now apply unvisited_set2. }
  destruct (carveLoop fuel cellX cellY IH shuffled (set_prng s0 p))
    as (s' & Hrun & Hwf' & Hconn' & Htidy' & Hext & Hall).
  { intros d Hd. now rewrite <- Hperm. }
  { now apply wellFormed_set_prng. }
  { exact Hconn. }
  { now apply tidy_set_prng. }
  { split; assumption. }
  { exact Hvis0. }
  { cbn [visited set_prng]. lia. }
  exists s'. split; [exact Hrun|]. split; [exact Hwf'|]. split; [exact Hconn'|].
  split; [|split; [now apply (ext_visited _ _ Hext)|exact Htidy']].
  pose proof (ext_count _ _ Hext) as Hcount'. cbn [visited set_prng] in Hcount'.
  destruct Hext as [E1 E2 E3 E4 E5 E6 E7]. cbn in E1, E2, E3, E4, E5, E7.
  split; auto.
  - intros x y Hone. apply E4. rewrite (at2_set2 _ _ _ _ _ _ _ Hsqg).
    destruct (decide _); [reflexivity|assumption].
  - intros x y Hv. apply E5. rewrite (at2_set2 _ _ _ _ _ _ _ Hsqv).
    destruct (decide _); [reflexivity|assumption].
  - lia.
  - intros x y Hv' Hv dx dy Hd Hvalid.
    destruct (decide ((cellX, cellY) = (x, y))) as [E|E].
    + inversion E; subst. apply Hall; [now rewrite Hperm|exact Hvalid].
    + eapply E7; eauto.
      rewrite at2_set2_ne by assumption. exact Hv.
Qed.

End Carving.

(** * After carving: every cell is visited *)

Ltac in_directions :=
  unfold MazeGenerator.directions;
  repeat first [apply list_elem_of_here | apply list_elem_of_further].

Section Spanning.
Import MazeGenerator.

(** Walking along a line of cells. *)
Lemma interval_walk (P : Z -> Prop) lo hi c :
  lo <= c < hi -> P c ->
  (forall z, lo <= z < hi -> lo <= z + 1 < hi -> P z -> P (z + 1)) ->
  (forall z, lo <= z < hi -> lo <= z - 1 < hi -> P z -> P (z - 1)) ->
  forall z, lo <= z < hi -> P z.
Proof.
  intros Hc Pc Hup Hdown.
  assert (Hk : forall k : nat,
             (lo <= c + Z.of_nat k < hi -> P (c + Z.of_nat k)) /\
             (lo <= c - Z.of_nat k < hi -> P (c - Z.of_nat k))).
  { induction k as [|k [IHu IHd]].
    - rewrite Z.add_0_r, Z.sub_0_r. auto.
    - split; intros Hr.
      + replace (c + Z.of_nat (S k)) with (c + Z.of_nat k + 1) in * by lia.
        apply Hup; try lia. apply IHu. lia.
      + replace (c - Z.of_nat (S k)) with (c - Z.of_nat k - 1) in * by lia.
        apply Hdown; try lia. apply IHd. lia. }
  intros z Hz. destruct (Z.le_ge_cases c z).
  - replace z with (c + Z.of_nat (Z.to_nat (z - c))) by lia.
    apply Hk. lia.
  - replace z with (c - Z.of_nat (Z.to_nat (c - z))) by lia.
    apply Hk. lia.
Qed.

(** A set of visited cells that holds one cell and is closed under the
    four directions holds every cell. *)
Lemma closed_all (v : list (list bool)) n cx cy :
  validCell n (cx, cy) ->
  at2 v cx cy = Some true ->
  (forall x y, at2 v x y = Some true ->
     forall dx dy, (dx, dy) ∈ directions -> validCell n (x + dx, y + dy) ->
                   at2 v (x + dx) (y + dy) = Some true) ->
  forall x y, validCell n (x, y) -> at2 v x y = Some true.
Proof.
  unfold validCell. cbn [fst snd]. intros [Hcx Hcy] Hc Hclosed x y [Hx Hy].
  assert (Hstep : forall x0 y0 dx dy x1 y1,
             at2 v x0 y0 = Some true -> (dx, dy) ∈ directions ->
             x1 = x0 + dx -> y1 = y0 + dy -> 0 <= x1 < n -> 0 <= y1 < n ->
             at2 v x1 y1 = Some true).
  { intros x0 y0 dx dy x1 y1 H0 Hd -> -> H1 H2. eapply Hclosed; eauto. }
  assert (Hrow : at2 v x cy = Some true).
  { apply (interval_walk (fun z => at2 v z cy = Some true) 0 n cx); auto.
    - intros z Hz Hz1 Pz.
      apply (Hstep z cy 1 0); auto; [in_directions|lia].
    - intros z Hz Hz1 Pz.
      apply (Hstep z cy (-1) 0); auto; [in_directions|lia..]. }
  apply (interval_walk (fun z => at2 v x z = Some true) 0 n cy); auto.
  - intros z Hz Hz1 Pz.
    apply (Hstep x z 0 1); auto; [in_directions|lia].
  - intros z Hz Hz1 Pz.
    apply (Hstep x z 0 (-1)); auto; [in_directions|lia..].
Qed.

Lemma unvisited_replicate (n : nat) :
  unvisited (replicate n (replicate n false)) = (n * n)%nat.
Proof.
  unfold unvisited.
  assert (Hrow : forall k, countFalse (replicate k false) = k).
  { induction k as [|k IH]; cbn; [reflexivity|]. now rewrite IH. }
  assert (Hsum : forall k r, sum_list (countFalse <$> replicate k (replicate r false))
                             = (k * r)%nat).
  { induction k as [|k IH]; intros r; cbn; [reflexivity|].
    rewrite IH. f_equal. apply Hrow. }
  apply Hsum.
Qed.

Lemma wellFormed_initial seed size level :
  0 <= size -> wellFormed (initial seed size level).
Proof.
  intros Hsz. unfold initial. split; cbn; auto.
  - apply square_replicate. lia.
  - now apply square_replicate.
  - apply constructor_valid.
  - intros x y v Hv. left. now apply at2_replicate in Hv.
  - intros x y Hv. now apply at2_replicate in Hv.
Qed.

Lemma pathCount_replicate (n : nat) :
  pathCount (replicate n (replicate n 0)) = 0%nat.
Proof.
  unfold pathCount.
  assert (Hrow : forall k, countPaths (replicate k 0) = 0%nat).
  { induction k as [|k IH]; cbn; [reflexivity|exact IH]. }
  assert (Hsum : forall k r, sum_list (countPaths <$> replicate k (replicate r 0))
                             = 0%nat).
  { induction k as [|k IH]; intros r; cbn; [reflexivity|].
    now rewrite IH, Hrow. }
  apply Hsum.
Qed.

(** When every cell is visited, none is left to count. *)
Lemma unvisited_zero (v : list (list bool)) n :
  square n v ->
  (forall x y, validCell n (x, y) -> at2 v x y = Some true) ->
  unvisited v = 0%nat.
Proof.
  intros [Hlen Hrows] Hall.
  assert (Hrow : forall row, Forall (fun b => b = true) row -> countFalse row = 0%nat).
  { induction 1 as [|b row -> _ IH]; cbn; [reflexivity|exact IH]. }
  assert (Hsum : forall rows : list (list bool),
             Forall (Forall (fun b => b = true)) rows ->
             sum_list (countFalse <$> rows) = 0%nat).
  { induction 1 as [|row rows Hr _ IH]; cbn; [reflexivity|].
    now rewrite IH, (Hrow _ Hr). }
  apply Hsum. apply Forall_lookup_2. intros j row Hj.
  apply Forall_lookup_2. intros i b Hi.
  assert (Hrowlen : Z.of_nat (length row) = n).
  { rewrite Forall_forall in Hrows. apply Hrows.
    eapply list_elem_of_lookup_2, Hj. }
  pose proof (lookup_lt_Some _ _ _ Hj). pose proof (lookup_lt_Some _ _ _ Hi).
  specialize (Hall (Z.of_nat i) (Z.of_nat j)).
  unfold at2, nthZ, validCell in Hall. cbn [fst snd] in Hall.
  destruct (Z.leb_spec 0 (Z.of_nat j)); [|lia].
  destruct (Z.leb_spec 0 (Z.of_nat i)); [|lia].
  rewrite !Nat2Z.id, Hj, Hi in Hall.
  assert (Some b = Some true) as [= ->] by (apply Hall; lia). reflexivity.
Qed.

Lemma carvePre_initial seed size level :
  1 <= size -> carvePre (initial seed size level) (size / 2) (size / 2).
Proof.
  intros Hsz.
  assert (Hc : 0 <= size / 2 < size).
  { split; [apply Z.div_pos; lia|apply Z.div_lt_upper_bound; lia]. }
  set (c := size / 2) in *.
  pose proof (wellFormed_initial seed size level ltac:(lia)) as Hwf.
  pose proof (wf_grid _ Hwf) as Hsq. pose proof (wf_visited _ Hwf) as Hsqv.
  assert (Hzero : forall x y v,
             at2 (grid (initial seed size level)) x y = Some v -> v = 0).
  { intros x y v Hv. cbn in Hv. now apply at2_replicate in Hv. }
  assert (Hfalse : forall x y b,
             at2 (visited (initial seed size level)) x y = Some b -> b = false).
  { intros x y b Hb. cbn in Hb. now apply at2_replicate in Hb. }
  assert (Hnot : at2 (visited (initial seed size level)) c c = Some false).
  { destruct (at2_is_Some _ _ c c Hsqv Hc Hc) as [b Hb].
    now rewrite Hb, (Hfalse _ _ _ Hb). }
  assert (Hc0 : at2 (grid (initial seed size level)) (c * 2 + 1) (c * 2 + 1)
                = Some 0).
  { destruct (at2_is_Some _ _ (c * 2 + 1) (c * 2 + 1) Hsq) as [v Hv];
      [cbn; lia | cbn; lia |].
    now rewrite Hv, (Hzero _ _ _ Hv). }
  split; [exact Hwf|]. split; [split; exact Hc|]. split; [exact Hnot|]. split.
  { apply connected_first. intros p (v & Hv & Hv0). now apply Hzero in Hv. }
  unfold visit.
  change (tidy (mk size level (prng (initial seed size level)) (size * 2 + 1)
                   (set2 (grid (initial seed size level)) (c * 2 + 1) (c * 2 + 1) PATH)
                   (set2 (visited (initial seed size level)) c c true))).
  split; cbn [grid visited MazeGenerator.size].
  - intros x y Hv.
    destruct (decide ((c, c) = (x, y))) as [E|E].
    { inversion E; subst. rewrite (at2_set2_eq _ size) in Hv by assumption.
      discriminate. }
    rewrite at2_set2_ne in Hv by assumption.
    destruct (at2_Some _ _ _ _ _ Hsqv Hv) as [Hx Hy]. cbn in Hx, Hy.
    rewrite at2_set2_ne by (intros E'; inversion E'; apply E; f_equal; lia).
    destruct (at2_is_Some _ _ (x * 2 + 1) (y * 2 + 1) Hsq) as [v Hv'];
      [cbn; lia | cbn; lia |].
    now rewrite Hv', (Hzero _ _ _ Hv').
  - intros x y dx dy _ Hd Hone. apply directions_unit in Hd.
    rewrite at2_set2_ne in Hone by (intros E; inversion E; lia).
    apply Hzero in Hone. discriminate.
  - intros gx gy Hone.
    destruct (decide ((c * 2 + 1, c * 2 + 1) = (gx, gy))) as [E|E].
    + inversion E; subst. exists c, c. split; [split; exact Hc|]. now left.
    + rewrite at2_set2_ne in Hone by assumption.
      apply Hzero in Hone. discriminate.
  - unfold PATH. rewrite (pathCount_set2 _ _ _ Hc0).
    pose proof (unvisited_set2 _ _ _ Hnot) as Hu.
    unfold initial in *. cbn [grid visited] in *.
    rewrite pathCount_replicate. rewrite unvisited_replicate in Hu. nia.
Qed.

(** [recursiveBacktrack] from the centre of a fresh generator returns a
    connected grid in which every logical cell is carved, and which is the
    drawing of a tree: besides the size * size cells it has
    size * size - 1 passages. *)
Lemma carve_from_centre seed size level fuel :
  1 <= size -> (Z.to_nat size * Z.to_nat size <= fuel)%nat ->
  exists carved,
    recursiveBacktrack fuel (initial seed size level) (size / 2) (size / 2)
    = Done carved /\
    wellFormed carved /\ connected (grid carved) /\
    extends (initial seed size level) carved /\ allCarved carved /\
    tidy carved /\
    Z.of_nat (pathCount (grid carved)) = 2 * size * size - 1.
Proof.
  intros Hsz Hfuel.
  destruct (carves_all fuel _ _ _ (carvePre_initial seed size level Hsz))
    as (carved & Hrun & Hwf & Hconn & Hext & Hc & Htidy).
  { unfold initial. cbn [visited]. now rewrite unvisited_replicate. }
  pose proof (ext_size _ _ Hext) as Es. cbn in Es.
  assert (Hvisited : forall x y, validCell (MazeGenerator.size carved) (x, y) ->
                                 at2 (visited carved) x y = Some true).
  { apply (closed_all _ (MazeGenerator.size carved) (size / 2) (size / 2)); auto.
    - rewrite Es. split; cbn [fst snd];
        (split; [apply Z.div_pos; lia|apply Z.div_lt_upper_bound; lia]).
    - intros x' y' Hv' dx dy Hd Hval.
      apply (ext_closed _ _ Hext); auto.
      + cbn. intros E. now apply at2_replicate in E.
      + cbn. now rewrite <- Es. }
  exists carved. split; [exact Hrun|]. split; [exact Hwf|].
  split; [exact Hconn|]. split; [exact Hext|].
  split; [|split; [exact Htidy|]].
  - intros x y Hv. apply (wf_carved _ Hwf). now apply Hvisited.
  - pose proof (tidy_count _ Htidy) as Hn.
    rewrite (unvisited_zero _ _ (wf_visited _ Hwf) Hvisited), Es in Hn. lia.
Qed.

End Spanning.

(** * Braiding *)

Section Loops.
Context {A S : Type}.

(** A loop whose body keeps an invariant, and returns, on the elements it
    is run on. *)
Lemma forOf_invariant (I : S -> Prop) (P : A -> Prop)
      (body : S -> A -> Outcome S) (l : list A) (s : S) :
  I s -> Forall P l ->
  (forall s a, I s -> P a -> exists s', body s a = Done s' /\ I s') ->
  exists s', forOf body l s = Done s' /\ I s'.
Proof.
  intros Hs Hl Hbody. revert s Hs.
  induction Hl as [|a l Ha Hl IH]; intros s Hs.
  - exists s. now split.
  - cbn [forOf]. destruct (Hbody s a Hs Ha) as (s1 & -> & H1). cbn [bind].
    now apply IH.
Qed.


End Loops.

Section Braiding.
Import MazeGenerator.

Lemma addBraiding_unfold self factor :
  addBraiding self factor =
    let deadEnds := fst (findDeadEnds self) in
    forOf (braidStep deadEnds)
          (seqZ 0 (Qfloor (inject_Z (Z.of_nat (length deadEnds)) * factor)))
          (snd (findDeadEnds self)).
Proof.
  unfold addBraiding. destruct (findDeadEnds self) as [deadEnds self']. reflexivity.
Qed.

Lemma Qfloor_scale_le n (f : Q) :
  0 <= n -> (f <= 1)%Q -> Qfloor (inject_Z n * f) <= n.
Proof.
  intros Hn Hf. destruct f as [a b]. unfold Qle in Hf. cbn in Hf.
  unfold Qfloor, Qmult, inject_Z. cbn [Qnum Qden].
  apply Z.div_le_upper_bound; [lia|]. nia.
Qed.

Lemma isValid_spec self x y :
  isValid self x y = true <-> 0 <= x < gridSize self /\ 0 <= y < gridSize self.
Proof.
  unfold isValid. rewrite !andb_true_iff, !Z.leb_le, !Z.ltb_lt. tauto.
Qed.

Lemma gridIs_spec self x y v :
  gridIs self x y v = true <-> at2 (grid self) x y = Some v.
Proof. unfold gridIs. apply bool_decide_eq_true. Qed.

(** A wall listed by [getWalls] is inside the grid and next to the cell. *)
Lemma getWalls_elem self x y wx wy :
  (wx, wy) ∈ getWalls self x y ->
  (0 <= wx < gridSize self /\ 0 <= wy < gridSize self) /\
  adjacent (wx, wy) (x, y).
Proof.
  unfold getWalls. rewrite list_elem_of_In, filter_In.
  intros [Hin Hok]. apply andb_true_iff in Hok as [Hv _].
  apply isValid_spec in Hv. split; [exact Hv|].
  apply list_elem_of_In, list_elem_of_fmap in Hin as ([dx dy] & E & Hd).
  inversion E; subst. apply directions_unit in Hd.
  unfold adjacent. cbn [fst snd]. lia.
Qed.

Lemma scanDeadEnds_elem self x y :
  (x, y) ∈ scanDeadEnds self -> at2 (grid self) x y = Some 1.
Proof.
  unfold scanDeadEnds. rewrite list_elem_of_In, filter_In.
  intros [_ Hok]. apply andb_true_iff in Hok as [Hg _].
  now apply gridIs_spec.
Qed.

(** One step of braiding: the cell is a path, the wall opened is next to
    it, so the grid stays connected. *)
Lemma braidStep_spec deadEnds s0 s i :
  (forall x y, (x, y) ∈ deadEnds -> at2 (grid s0) x y = Some 1) ->
  0 <= i < Z.of_nat (length deadEnds) ->
  wellFormed s /\ connected (grid s) /\ extends s0 s ->
  exists s', braidStep deadEnds s i = Done s' /\
             wellFormed s' /\ connected (grid s') /\ extends s0 s'.
Proof.
  intros Hdead Hi (Hwf & Hconn & Hext). unfold braidStep.
  destruct (nthZ_is_Some deadEnds i Hi) as [[x y] Hxy]. rewrite Hxy.
  cbv zeta.
  destruct (Z.ltb_spec 0 (Z.of_nat (length (getWalls s x y)))) as [Hlen|Hlen].
  2:{ exists s. auto. }
  pose proof (nextInt_range (prng s) 0 (Z.of_nat (length (getWalls s x y)))
                (proj1 (wf_prng _ Hwf)) Hlen) as [Hk Hp].
  destruct (SeededRandom.nextInt _ _ _) as [k p]. cbn [fst snd] in Hk, Hp.
  destruct (nthZ_is_Some (getWalls s x y) k Hk) as [[wx wy] Hw].
  change (getWalls (set_prng s p) x y) with (getWalls s x y).
  rewrite Hw. eexists. split; [reflexivity|].
  apply nthZ_elem_of, getWalls_elem in Hw as [[Hwx Hwy] Hadj].
  assert (Hone : at2 (grid s) x y = Some 1).
  { apply (ext_grid _ _ Hext), Hdead. eapply nthZ_elem_of, Hxy. }
  split; [|split].
  - apply (wellFormed_open (set_prng s p)). now apply wellFormed_set_prng.
  - cbn [grid set_grid set_prng].
    apply (connected_open _ (gridSize s) _ _ _ (x, y)); auto; try discriminate.
    + apply (wf_grid _ Hwf).
    + exists 1. split; [exact Hone|discriminate].
  - eapply extends_trans; [exact Hext|].
    eapply extends_trans; [apply (extends_set_prng s p)|].
    apply (extends_open (set_prng s p)), (wf_grid _ Hwf).
Qed.

(** [addBraiding] returns; the grid it leaves is connected and has every
    path of the grid it was given. *)
Lemma addBraiding_spec self factor :
  wellFormed self -> connected (grid self) -> (factor <= 1)%Q ->
  exists braided,
    addBraiding self factor = Done braided /\
    wellFormed braided /\ connected (grid braided) /\ extends self braided.
Proof.
  intros Hwf Hconn Hf. rewrite addBraiding_unfold. cbv zeta.
  unfold findDeadEnds.
  destruct (shuffle_spec (scanDeadEnds self) (prng self) (wf_prng _ Hwf))
    as [Hperm Hp].
  destruct (SeededRandom.shuffle (scanDeadEnds self) (prng self))
    as [deadEnds p]. cbn [fst snd] in *.
  set (s1 := set_prng self p).
  destruct (forOf_invariant
              (fun s => wellFormed s /\ connected (grid s) /\ extends s1 s)
              (fun i => 0 <= i < Z.of_nat (length deadEnds))
              (braidStep deadEnds)
              (seqZ 0 (Qfloor (inject_Z (Z.of_nat (length deadEnds)) * factor)))
              s1)
    as (braided & Hrun & Hwf' & Hconn' & Hext').
  - split; [now apply wellFormed_set_prng|]. split; [exact Hconn|].
    apply extends_refl.
  - apply Forall_forall. intros i Hi. apply elem_of_seqZ in Hi.
    pose proof (Qfloor_scale_le (Z.of_nat (length deadEnds)) factor
                  ltac:(lia) Hf). lia.
  - intros s i Hs Hi. apply (braidStep_spec deadEnds s1); auto.
    intros x y Hin. apply (scanDeadEnds_elem self). now rewrite <- Hperm.
  - exists braided. split; [exact Hrun|]. split; [exact Hwf'|].
    split; [exact Hconn'|].
    eapply extends_trans; [apply (extends_set_prng self p)|exact Hext'].
Qed.

End Braiding.

(** * Start and exit *)

Section StartExit.
Import MazeGenerator.

Lemma elem_of_forRange start stop step x :
  x ∈ forRange start stop step <->
  exists k, 0 <= k < (stop - start + step - 1) / step /\ x = start + step * k.
Proof.
  unfold forRange. rewrite list_elem_of_fmap. split.
  - intros (k & -> & Hk). apply elem_of_seqZ in Hk. exists k. split; [lia|reflexivity].
  - intros (k & Hk & ->). exists k. split; [reflexivity|]. apply elem_of_seqZ. lia.
Qed.

Lemma getEdgePathCells_set_prng self p side :
  getEdgePathCells (set_prng self p) side = getEdgePathCells self side.
Proof. reflexivity. Qed.

(** The cells [getEdgePathCells] returns are paths of the named border. *)
Lemma getEdgePathCells_elem self side c :
  c ∈ getEdgePathCells self side ->
  at2 (grid self) (fst c) (snd c) = Some 1 /\ onSide (gridSize self) side c.
Proof.
  unfold getEdgePathCells, onSide. destruct c as [x y]. cbn [fst snd].
  destruct (Z.eqb_spec side 0) as [-> | H0];
    [|destruct (Z.eqb_spec side 1) as [-> | H1];
      [|destruct (Z.eqb_spec side 2) as [-> | H2];
        [|destruct (Z.eqb_spec side 3) as [-> | H3]]]];
    try (intros Hin; now apply elem_of_nil in Hin);
    rewrite list_elem_of_In, filter_In; intros [Hin Hok];
    apply gridIs_spec in Hok; (split; [exact Hok|]);
    apply list_elem_of_In, list_elem_of_fmap in Hin as (z & E & _);
    inversion E; subst; auto 6.
Qed.

(** With every logical cell carved, each border has a path cell. *)
Lemma getEdgePathCells_nonempty self side :
  wellFormed self -> allCarved self -> 1 <= size self -> 0 <= side < 4 ->
  0 < Z.of_nat (length (getEdgePathCells self side)).
Proof.
  intros Hwf Hall Hsz Hside.
  pose proof (wf_gridSize _ Hwf) as Hgs.
  assert (Hone : 1 ∈ forRange 1 (gridSize self - 1) 2).
  { apply elem_of_forRange. exists 0. split; [|reflexivity].
    rewrite Hgs.
    replace (size self * 2 + 1 - 1 - 1 + 2 - 1) with (size self * 2) by lia.
    rewrite Z.div_mul by lia. lia. }
  assert (Hex : exists c, c ∈ getEdgePathCells self side).
  { unfold getEdgePathCells.
    assert (Hs : side = 0 \/ side = 1 \/ side = 2 \/ side = 3) by lia.
    destruct Hs as [-> | [-> | [-> | ->]]]; cbn [Z.eqb Pos.eqb].
    - exists (1, 1). apply list_elem_of_In, filter_In. split.
      + apply list_elem_of_In, list_elem_of_fmap. eauto.
      + apply gridIs_spec. apply (Hall 0 0). split; cbn; lia.
    - exists (gridSize self - 2, 1). apply list_elem_of_In, filter_In. split.
      + apply list_elem_of_In, list_elem_of_fmap. eauto.
      + apply gridIs_spec.
        replace (gridSize self - 2) with ((size self - 1) * 2 + 1) by lia.
        apply (Hall (size self - 1) 0). split; cbn; lia.
    - exists (1, gridSize self - 2). apply list_elem_of_In, filter_In. split.
      + apply list_elem_of_In, list_elem_of_fmap. eauto.
      + apply gridIs_spec.
        replace (gridSize self - 2) with ((size self - 1) * 2 + 1) by lia.
        apply (Hall 0 (size self - 1)). split; cbn; lia.
    - exists (1, 1). apply list_elem_of_In, filter_In. split.
      + apply list_elem_of_In, list_elem_of_fmap. eauto.
      + apply gridIs_spec. apply (Hall 0 0). split; cbn; lia. }
  destruct Hex as [c Hc]. destruct (getEdgePathCells self side); [|cbn; lia].
  now apply elem_of_nil in Hc.
Qed.

(** [pickStartAndExit] returns two different path cells, on opposite
    borders, and leaves the grid as it is. *)
Lemma pickStartAndExit_spec self :
  wellFormed self -> allCarved self -> 2 <= size self ->
  exists self' startPos exitPos side,
    pickStartAndExit self = Done (self', startPos, exitPos) /\
    grid self' = grid self /\
    0 <= side < 4 /\
    at2 (grid self) (fst startPos) (snd startPos) = Some 1 /\
    onSide (gridSize self) side startPos /\
    at2 (grid self) (fst exitPos) (snd exitPos) = Some 1 /\
    onSide (gridSize self) (Z.rem (side + 2) 4) exitPos /\
    startPos <> exitPos.
Proof.
  intros Hwf Hall Hsz. unfold pickStartAndExit.
  pose proof (nextInt_range (prng self) 0 4 (proj1 (wf_prng _ Hwf)) ltac:(lia))
    as [Hside Hp].
  destruct (SeededRandom.nextInt (prng self) 0 4) as [side p].
  cbn [fst snd] in Hside, Hp. cbv zeta.
  rewrite getEdgePathCells_set_prng.
  pose proof (getEdgePathCells_nonempty self side Hwf Hall ltac:(lia) Hside) as Hne.
  destruct (Z.eqb_spec (Z.of_nat (length (getEdgePathCells self side))) 0); [lia|].
  cbn [prng set_prng].
  pose proof (nextInt_range p 0 _ (proj1 Hp) Hne) as [Hk Hp1].
  destruct (SeededRandom.nextInt p 0 _) as [k p1]. cbn [fst snd] in Hk, Hp1.
  destruct (nthZ_is_Some _ k Hk) as [startPos Hstart]. rewrite Hstart.
  cbn [bind]. rewrite !getEdgePathCells_set_prng.
  assert (Hopp : 0 <= Z.rem (side + 2) 4 < 4).
  { rewrite Z.rem_mod_nonneg by lia. apply Z.mod_pos_bound. lia. }
  pose proof (getEdgePathCells_nonempty self _ Hwf Hall ltac:(lia) Hopp) as Hne'.
  destruct (Z.eqb_spec
              (Z.of_nat (length (getEdgePathCells self (Z.rem (side + 2) 4)))) 0);
    [lia|].
  cbn [prng set_prng].
  pose proof (nextInt_range p1 0 _ (proj1 Hp1) Hne') as [Hk' Hp2].
  destruct (SeededRandom.nextInt p1 0 _) as [k' p2]. cbn [fst snd] in Hk', Hp2.
  destruct (nthZ_is_Some _ k' Hk') as [exitPos Hexit]. rewrite Hexit.
  cbn [bind].
  apply nthZ_elem_of, getEdgePathCells_elem in Hstart as [Hs1 Hs2].
  apply nthZ_elem_of, getEdgePathCells_elem in Hexit as [He1 He2].
  exists (set_prng (set_prng (set_prng self p) p1) p2), startPos, exitPos, side.
  split; [reflexivity|]. split; [reflexivity|].
  split; [exact Hside|]. split; [exact Hs1|]. split; [exact Hs2|].
  split; [exact He1|]. split; [exact He2|].
  pose proof (wf_gridSize _ Hwf) as Hgs.
  intros ->. unfold onSide in Hs2, He2.
  assert (Hs : side = 0 \/ side = 1 \/ side = 2 \/ side = 3) by lia.
  destruct Hs as [-> | [-> | [-> | ->]]];
    [ change (Z.rem (0 + 2) 4) with 2 in He2
    | change (Z.rem (1 + 2) 4) with 3 in He2
    | change (Z.rem (2 + 2) 4) with 0 in He2
    | change (Z.rem (3 + 2) 4) with 1 in He2 ]; lia.
Qed.

End StartExit.

(** * The whole of [generate] *)

Section Generate.
Import MazeGenerator.


Lemma braidFactor_le_1 level : (braidFactor level <= 1)%Q.
Proof.
  unfold braidFactor. eapply Qle_trans; [apply Q.le_min_r|]. discriminate.
Qed.

Lemma new_unfold fuel seed size level :
  new fuel seed size level =
    let* self := recursiveBacktrack fuel (initial seed size level)
                   (size / 2) (size / 2) in
    let* self := addBraiding self (braidFactor (MazeGenerator.level self)) in
    let* (self, (startX, startY), (exitX, exitY)) := pickStartAndExit self in
    Done (mkMaze (set2 (set2 (grid self) startX startY START) exitX exitY EXIT)
                 (startX, startY) (exitX, exitY)).
Proof. reflexivity. Qed.

(** The three phases of [generate], with what each one establishes. *)
Lemma generate_phases seed size level fuel :
  2 <= size -> size * size <= Z.of_nat fuel ->
  exists carved braided m,
    recursiveBacktrack fuel (initial seed size level) (size / 2) (size / 2)
    = Done carved /\
    wellFormed carved /\ drawsSpanningTree size (grid carved) /\
    addBraiding carved (braidFactor level) = Done braided /\
    wellFormed braided /\ connected (grid braided) /\
    onlyOpens (grid carved) (grid braided) /\
    new fuel seed size level = Done m /\
    maze m = set2 (set2 (grid braided) (fst (start m)) (snd (start m)) START)
                  (fst (exit m)) (snd (exit m)) EXIT /\
    at2 (grid braided) (fst (start m)) (snd (start m)) = Some 1 /\
    at2 (grid braided) (fst (exit m)) (snd (exit m)) = Some 1 /\
    start m <> exit m.
Proof.
  intros Hsz Hfuel.
  destruct (carve_from_centre seed size level fuel ltac:(lia) ltac:(nia))
    as (carved & Hrun1 & Hwf1 & Hconn1 & Hext1 & Hall1 & Htidy1 & Hcount1).
  pose proof (ext_level _ _ Hext1) as Hlevel. cbn in Hlevel.
  pose proof (ext_size _ _ Hext1) as Hsize. cbn in Hsize.
  destruct (addBraiding_spec carved (braidFactor level) Hwf1 Hconn1
              (braidFactor_le_1 level))
    as (braided & Hrun2 & Hwf2 & Hconn2 & Hext2).
  assert (Hall2 : allCarved braided).
  { intros x y Hv. apply (ext_grid _ _ Hext2), Hall1.
    now rewrite <- (ext_size _ _ Hext2). }
  destruct (pickStartAndExit_spec braided Hwf2 Hall2)
    as (self3 & [sx sy] & [ex ey] & side & Hrun3 & Hgrid & _ & Hs & _ & He & _ & Hne).
  { rewrite (ext_size _ _ Hext2), Hsize. exact Hsz. }
  exists carved, braided,
    (mkMaze (set2 (set2 (grid braided) sx sy START) ex ey EXIT) (sx, sy) (ex, ey)).
  split; [exact Hrun1|]. split; [exact Hwf1|]. split.
  { split; [exact Hconn1|]. split; [|split; [|exact Hcount1]].
    - intros x y Hv. apply Hall1. now rewrite Hsize.
    - intros gx gy v Hv Hv0.
      destruct (wf_codes _ Hwf1 _ _ _ Hv) as [-> | ->]; [now destruct Hv0|].
      rewrite <- Hsize. now apply (tidy_shape _ Htidy1). }
  split; [exact Hrun2|]. split; [exact Hwf2|]. split; [exact Hconn2|]. split.
  { intros x y.
    destruct (at2 (grid carved) x y) as [v|] eqn:E1.
    - destruct (wf_codes _ Hwf1 _ _ _ E1) as [-> | ->].
      + destruct (at2_Some _ _ _ _ _ (wf_grid _ Hwf1) E1) as [Hx Hy].
        rewrite <- (ext_gridSize _ _ Hext2) in Hx, Hy.
        destruct (at2_is_Some _ _ x y (wf_grid _ Hwf2) Hx Hy) as [v' E2].
        rewrite E2. destruct (wf_codes _ Hwf2 _ _ _ E2) as [-> | ->]; auto.
      + left. now apply (ext_grid _ _ Hext2).
    - left. destruct (at2 (grid braided) x y) as [v'|] eqn:E2; [|reflexivity].
      destruct (at2_Some _ _ _ _ _ (wf_grid _ Hwf2) E2) as [Hx Hy].
      rewrite (ext_gridSize _ _ Hext2) in Hx, Hy.
      destruct (at2_is_Some _ _ x y (wf_grid _ Hwf1) Hx Hy) as [v E].
      congruence. }
  split; [|cbn [maze start exit fst snd]; auto].
  rewrite new_unfold, Hrun1. cbn [bind]. rewrite Hlevel, Hrun2. cbn [bind].
  rewrite Hrun3. cbn [bind]. now rewrite Hgrid.
Qed.

End Generate.

(** * The maze generator: determinism, connectivity, start and exit *)








(** * Dead ends *)

Section DeadEnds.
Import MazeGenerator.

(** What [findDeadEnds] enumerates: the dead ends among the cells whose two
    grid coordinates are below [size] (not [gridSize]). *)
Lemma findDeadEnds_scope self x y :
  validState (prng self) ->
  (x, y) ∈ fst (findDeadEnds self) <->
  (0 <= x < size self /\ 0 <= y < size self) /\
  at2 (grid self) x y = Some 1 /\ countNeighborPaths self x y = 1.
Proof.
  intros Hp. unfold findDeadEnds.
  destruct (shuffle_spec (scanDeadEnds self) (prng self) Hp) as [Hperm _].
  destruct (SeededRandom.shuffle (scanDeadEnds self) (prng self)) as [l p].
  cbn [fst] in *. rewrite Hperm. unfold scanDeadEnds.
  rewrite list_elem_of_In, filter_In, andb_true_iff, gridIs_spec, Z.eqb_eq.
  rewrite in_concat.
  split.
  - intros [(row & Hrow & Hin) Hok]. split; [|exact Hok].
    apply list_elem_of_In, list_elem_of_fmap in Hrow as (y' & -> & Hy).
    apply list_elem_of_In, list_elem_of_fmap in Hin as (x' & E & Hx).
    inversion E; subst. apply elem_of_seqZ in Hx, Hy. lia.
  - intros [[Hx Hy] Hok]. split; [|exact Hok].
    exists ((fun x => (x, y)) <$> seqZ 0 (size self)). split.
    + apply list_elem_of_In, list_elem_of_fmap. exists y. split; [reflexivity|].
      apply elem_of_seqZ. lia.
    + apply list_elem_of_In, list_elem_of_fmap. exists x. split; [reflexivity|].
      apply elem_of_seqZ. lia.
Qed.

End DeadEnds.

(** C5 fails on the code.  For seed 0x00000001, size 2, level 1 the carved
    grid is
<<
      0 0 0 0 0
      0 1 1 1 0
      0 1 0 0 0
      0 1 1 1 0
      0 0 0 0 0
>>
    Its cells (3,1) and (3,3) are paths with exactly one path neighbour, and
    [findDeadEnds] returns the empty list: its loops stop at [size] = 2. *)
Theorem findDeadEnds_omits_dead_ends :
  exists carved,
    MazeGenerator.recursiveBacktrack 4 (MazeGenerator.initial "0x00000001" 2 1) 1 1
    = Done carved /\
    MazeGenerator.grid carved
    = [[0; 0; 0; 0; 0]; [0; 1; 1; 1; 0]; [0; 1; 0; 0; 0]; [0; 1; 1; 1; 0];
       [0; 0; 0; 0; 0]] /\
    at2 (MazeGenerator.grid carved) 3 1 = Some MazeGenerator.PATH /\
    MazeGenerator.countNeighborPaths carved 3 1 = 1 /\
    at2 (MazeGenerator.grid carved) 3 3 = Some MazeGenerator.PATH /\
    MazeGenerator.countNeighborPaths carved 3 3 = 1 /\
    fst (MazeGenerator.findDeadEnds carved) = [].
Proof.
  eexists. split; [vm_compute; reflexivity|].
  repeat split; vm_compute; reflexivity.
Qed.

(** * Fog of war: [revealArea] *)

Section Fog.
Import Game.

Lemma fold_left_invariant {A B : Type} (I : B -> Prop) (f : B -> A -> B)
      (l : list A) (b : B) :
  I b -> (forall b a, I b -> In a l -> I (f b a)) -> I (fold_left f l b).
Proof.
  revert b. induction l as [|a l IH]; intros b Hb Hf; cbn; [exact Hb|].
  apply IH; [apply Hf; [exact Hb|now left]|].
  intros b' a' Hb' Hin. apply Hf; [exact Hb'|now right].
Qed.


Lemma has_add_mono s k k' : has s k' = true -> has (add s k) k' = true.
Proof.
  unfold add. destruct (has s k); [auto|].
  unfold has. rewrite existsb_app. intros ->. reflexivity.
Qed.




(** The set is rebuilt on each call: what was revealed before does not
    matter. *)
Lemma revealArea_from_scratch (self : Game.t) (old : list Key) cx cy radius :
  revealed (revealArea (set_revealed self old) cx cy radius)
  = revealed (revealArea self cx cy radius).
Proof. reflexivity. Qed.

End Fog.

(** C6 fails on the code when the radius is not an integer, as for levels 3
    and 4 ([vision: 1.5]).  In the 5 by 5 maze generated for seed 0x00000001
    with the player on the start cell (3, 3) and radius 3/2, the loops run
    over 3/2, 5/2, 7/2, 9/2: the set holds the exit and the four keys
    "2.5,2.5", "3.5,2.5", "2.5,3.5", "3.5,3.5", which name no cell of the
    grid, and no cell but the exit is revealed, not even the player's. *)
Theorem revealArea_fractional_radius :
  let game := Game.mk [[0; 0; 0; 0; 0]; [0; 3; 1; 1; 0]; [0; 1; 0; 0; 0];
                       [0; 1; 1; 2; 0]; [0; 0; 0; 0; 0]]
                      (1, 1) (3, 3) [] in
  let game' := Game.revealArea game 3 3 (3 # 2) in
  Game.revealed game'
  = [(1 # 1, 1 # 1); (5 # 2, 5 # 2); (7 # 2, 5 # 2); (5 # 2, 7 # 2);
     (7 # 2, 7 # 2)]%Q /\
  (forall x : Z, ~ (inject_Z x == 5 # 2)%Q) /\
  ~ cellWithin game 3 3 (3 # 2) (5 # 2, 5 # 2)%Q /\
  (forall x y : Z, Game.isRevealed game' x y = true -> (x, y) = (1, 1)) /\
  Game.isRevealed game' 3 3 = false.
Proof.
  cbv zeta.
  assert (Hset : Game.revealed
                   (Game.revealArea
                      (Game.mk [[0; 0; 0; 0; 0]; [0; 3; 1; 1; 0]; [0; 1; 0; 0; 0];
                                [0; 1; 1; 2; 0]; [0; 0; 0; 0; 0]]
                               (1, 1) (3, 3) []) 3 3 (3 # 2))
                 = [(1 # 1, 1 # 1); (5 # 2, 5 # 2); (7 # 2, 5 # 2); (5 # 2, 7 # 2);
                    (7 # 2, 7 # 2)]%Q)
    by (vm_compute; reflexivity).
  split; [exact Hset|].
  assert (Hhalf : forall x : Z, ~ (inject_Z x == 5 # 2)%Q).
  { intros x. unfold Qeq, inject_Z. cbn [Qnum Qden]. lia. }
  split; [exact Hhalf|]. split; [|split].
  - intros (x & y & E & _). inversion E.
  - intros x y. unfold Game.isRevealed. rewrite Hset.
    unfold Game.has, Game.sameKey. cbn [existsb fst snd].
    rewrite !orb_true_iff, !andb_true_iff, !Qeq_bool_iff.
    unfold Qeq, inject_Z. cbn [Qnum Qden].
    intros H. f_equal; lia.
  - vm_compute. reflexivity.
Qed.

(** * The contract: submission, statistics, nonces *)

Section ContractMore.
Import FogMaze.
Context {bytes32 : Type}.
Variable encodePacked : bytes32 -> Z -> Z -> list Z.
Variable keccak256 : list Z -> bytes32.

Abbreviation generateSeed' := (FogMaze.generateSeed encodePacked keccak256).
Abbreviation submitRun' := (FogMaze.submitRun encodePacked keccak256).
Abbreviation transact' := (FogMaze.transact encodePacked keccak256).
Abbreviation replay' := (FogMaze.replay encodePacked keccak256).

(** [submitRun] as a cascade: the two guards, the seed, the score, then the
    write. *)
Lemma submitRun_cascade (env : Env) (st : Storage (bytes32 := bytes32))
      level steps timeTaken blockNumber nonce :
  submitRun' env st level steps timeTaken blockNumber nonce =
    if negb (0 <? level) then Revert InvalidLevelError
    else if negb (Z.of_nat (length (runsOf st (msg_sender env))) <? MAX_RUNS_PER_PLAYER)
    then Revert CapacityExceededError
    else
      match generateSeed' env blockNumber (msg_sender env) nonce with
      | Success seed =>
          match calculateScore level steps timeTaken with
          | Success score =>
              Success
                (mkStorage
                   (<[msg_sender env :=
                        runsOf st (msg_sender env)
                        ++ [mkRun level steps timeTaken seed (block_timestamp env) nonce]]>
                      (playerRuns st))
                   (playerNonces st),
                 [RunSubmitted (msg_sender env) level steps timeTaken seed score nonce])
          | Revert r => Revert r
          | Panic c => Panic c
          end
      | Revert r => Revert r
      | Panic c => Panic c
      end.
Proof.
  unfold FogMaze.submitRun, require.
  destruct (0 <? level); cbn [negb bindR]; [|reflexivity].
  destruct (_ <? MAX_RUNS_PER_PLAYER); cbn [negb bindR]; [|reflexivity].
  destruct (generateSeed' _ _ _ _); cbn [bindR]; [|reflexivity..].
  now destruct (calculateScore _ _ _).
Qed.

Lemma runsOf_insert (st : Storage (bytes32 := bytes32)) player runs nonces p :
  runsOf (mkStorage (<[player := runs]> (playerRuns st)) nonces) p =
    if decide (player = p) then runs else runsOf st p.
Proof.
  unfold runsOf. cbn [playerRuns]. destruct (decide (player = p)) as [->|Hne].
  - now rewrite lookup_insert_eq.
  - now rewrite lookup_insert_ne.
Qed.

Lemma calculateScore_nonneg level steps timeTaken score :
  calculateScore level steps timeTaken = Success score -> 0 <= score.
Proof.
  unfold calculateScore, mul, add, sub.
  destruct (checked (level * 1000)) as [b| |] eqn:Eb; cbn; try discriminate.
  destruct (checked (steps * 2)) as [s2| |] eqn:Es; cbn; try discriminate.
  destruct (checked (timeTaken * 3)) as [t3| |] eqn:Et; cbn; try discriminate.
  destruct (checked (s2 + t3)) as [p| |] eqn:Ep; cbn; try discriminate.
  destruct (b <=? p).
  - intros [= <-]. lia.
  - intros H. apply checked_success in H. lia.
Qed.

Lemma sound_deployed : sound (deployed (bytes32 := bytes32)).
Proof.
  split.
  - intros player. unfold runsOf, deployed. cbn. rewrite lookup_empty. cbn.
    unfold MAX_RUNS_PER_PLAYER. lia.
  - intros player r. unfold runsOf, deployed. cbn. rewrite lookup_empty. cbn.
    intros H. now apply elem_of_nil in H.
Qed.

Lemma sound_transact st tx : sound st -> sound (transact' st tx).
Proof.
  intros [Hlen Hruns]. destruct tx as [env [level steps timeTaken blockNumber nonce|]];
    cbn [FogMaze.transact].
  - rewrite submitRun_cascade.
    destruct (Z.ltb_spec 0 level) as [Hl|Hl]; cbn [negb]; [|now split].
    destruct (Z.ltb_spec (Z.of_nat (length (runsOf st (msg_sender env))))
                MAX_RUNS_PER_PLAYER) as [Hc|Hc]; cbn [negb]; [|now split].
    destruct (generateSeed' _ _ _ _) as [seed| |]; [|now split..].
    destruct (calculateScore level steps timeTaken) as [score| |] eqn:Es;
      [|now split..].
    cbn [storageAfter]. split.
    + intros player. rewrite runsOf_insert. destruct (decide _); [|apply Hlen].
      rewrite length_app. cbn [length]. lia.
    + intros player r. rewrite runsOf_insert. destruct (decide _); [|apply Hruns].
      rewrite elem_of_app. intros [Hin|Hin]; [now apply (Hruns (msg_sender env))|].
      apply list_elem_of_singleton in Hin. subst r. cbn [FogMaze.level FogMaze.steps FogMaze.timeTaken].
      split; [exact Hl|]. exists score. split; [exact Es|].
      eapply calculateScore_nonneg, Es.
  - unfold incrementNonce, add.
    destruct (checked _) as [n| |]; cbn [bindR]; now split.
Qed.

Lemma replay_snoc txs tx : replay' (txs ++ [tx]) = transact' (replay' txs) tx.
Proof. unfold FogMaze.replay. now rewrite fold_left_app. Qed.

Lemma sound_replay txs : sound (replay' txs).
Proof.
  induction txs as [|tx txs IH] using rev_ind.
  - apply sound_deployed.
  - rewrite replay_snoc. now apply sound_transact.
Qed.

(** What the loop of [getBestScore] returns when every score can be
    computed. *)
Lemma bestScoreLoop_spec (runs : list (Run (bytes32 := bytes32))) best :
  (forall r, r ∈ runs ->
     exists score, calculateScore (level r) (steps r) (timeTaken r) = Success score) ->
  exists b,
    bestScoreLoop runs best = Success b /\
    best <= b /\
    (forall r score, r ∈ runs ->
       calculateScore (level r) (steps r) (timeTaken r) = Success score ->
       score <= b) /\
    (b = best \/
     exists r, r ∈ runs /\
               calculateScore (level r) (steps r) (timeTaken r) = Success b).
Proof.
  revert best. induction runs as [|r runs IH]; intros best Hall.
  - exists best. cbn. split; [reflexivity|]. split; [lia|]. split; [|now left].
    intros r score Hin. now apply elem_of_nil in Hin.
  - cbn [bestScoreLoop].
    destruct (Hall r ltac:(left)) as [score Es]. rewrite Es. cbn [bindR].
    destruct (IH (if best <? score then score else best)) as (b & Hrun & Hle & Hmax & Hatt).
    { intros r' Hin. apply Hall. now right. }
    exists b. split; [exact Hrun|].
    assert (best <= b /\ score <= b) as [Hb Hs].
    { destruct (Z.ltb_spec best score); lia. }
    split; [exact Hb|]. split.
    + intros r' score' Hin Es'. apply elem_of_cons in Hin as [->|Hin].
      * rewrite Es in Es'. inversion Es'. subst. exact Hs.
      * eapply Hmax; eauto.
    + destruct Hatt as [->|(r' & Hin & Er')].
      * destruct (Z.ltb_spec best score); [|now left].
        right. exists r. split; [left|exact Es].
      * right. exists r'. split; [now right|exact Er'].
Qed.

Lemma nonceOf_transact st tx player :
  0 <= nonceOf st player <= UINT256_MAX ->
  nonceOf (transact' st tx) player =
    match tx with
    | (env, IncrementNonce) =>
        if (msg_sender env =? player) && (nonceOf st player <? UINT256_MAX)
        then nonceOf st player + 1 else nonceOf st player
    | _ => nonceOf st player
    end.
Proof.
  intros Hn. destruct tx as [env [level steps timeTaken blockNumber nonce|]];
    cbn [FogMaze.transact].
  - rewrite submitRun_cascade.
    repeat match goal with
           | |- context [if ?b then _ else _] => destruct b
           | |- context [match ?x with Success _ => _ | Revert _ => _ | Panic _ => _ end] =>
               destruct x
           end; reflexivity.
  - unfold incrementNonce, add.
    destruct (Z.eqb_spec (msg_sender env) player) as [->|Hne]; cbn [andb].
    + destruct (Z.ltb_spec (nonceOf st player) UINT256_MAX).
      * rewrite checked_in_range by lia. cbn [bindR].
        unfold nonceOf at 1. cbn [playerNonces]. now rewrite lookup_insert_eq.
      * rewrite checked_overflow by lia. reflexivity.
    + destruct (checked _); cbn [bindR]; try reflexivity.
      unfold nonceOf at 1. cbn [playerNonces]. now rewrite lookup_insert_ne.
Qed.

End ContractMore.

(** * The contract: theorems on submissions, statistics and nonces *)

(** X1 -- submitRun, accepted submission.  A submission with a positive
    level, by a sender holding fewer than 100 runs, for a block of the last
    256 blocks, whose score does not overflow, succeeds: it appends exactly
    one run (the arguments, the seed of [generateSeed] and the block's
    timestamp) at the end of the sender's runs, leaves the runs of every other
    player and all nonces as they were, and emits one [RunSubmitted] event
    carrying the score of [calculateScore]. *)
Theorem submitRun_appends_one_run
    {bytes32 : Type} (encodePacked : bytes32 -> Z -> Z -> list Z)
    (keccak256 : list Z -> bytes32)
    (env : FogMaze.Env) (st : FogMaze.Storage)
    (level steps timeTaken blockNumber nonce : Z) :
  uint256 level -> uint256 steps -> uint256 timeTaken ->
  uint256 blockNumber -> uint256 (FogMaze.block_number env) ->
  0 < level ->
  Z.of_nat (length (FogMaze.runsOf st (FogMaze.msg_sender env))) < 100 ->
  blockNumber < FogMaze.block_number env ->
  FogMaze.block_number env - blockNumber <= 256 ->
  level * 1000 <= FogMaze.UINT256_MAX ->
  steps * 2 + timeTaken * 3 <= FogMaze.UINT256_MAX ->
  let sender := FogMaze.msg_sender env in
  let seed := keccak256 (encodePacked (FogMaze.blockhash env blockNumber) sender nonce) in
  let score := if steps * 2 + timeTaken * 3 <? level * 1000
               then level * 1000 - (steps * 2 + timeTaken * 3) else 0 in
  exists st',
    FogMaze.submitRun encodePacked keccak256 env st
                      level steps timeTaken blockNumber nonce =
      FogMaze.Success
        (st', [FogMaze.RunSubmitted sender level steps timeTaken seed score nonce]) /\
    FogMaze.getRuns st' sender =
      FogMaze.getRuns st sender ++
      [FogMaze.mkRun level steps timeTaken seed (FogMaze.block_timestamp env) nonce] /\
    FogMaze.getRunCount st' sender = FogMaze.getRunCount st sender + 1 /\
    (forall player, player <> sender ->
       FogMaze.getRuns st' player = FogMaze.getRuns st player) /\
    FogMaze.playerNonces st' = FogMaze.playerNonces st.
Proof.
  intros Hl Hs Ht Hb Hn Hpos Hcap Hstale Hage Hbase Hpen sender seed score.
  subst sender seed score. rewrite submitRun_cascade.
  destruct (Z.ltb_spec 0 level); [|lia]. cbn [negb].
  destruct (Z.ltb_spec (Z.of_nat (length (FogMaze.runsOf st (FogMaze.msg_sender env))))
              FogMaze.MAX_RUNS_PER_PLAYER) as [_|Hge];
    [|unfold FogMaze.MAX_RUNS_PER_PLAYER in Hge; lia]. cbn [negb].
  rewrite generateSeed_cases by assumption.
  destruct (Z.ltb_spec blockNumber (FogMaze.block_number env)); [|lia]. cbn [negb].
  destruct (Z.leb_spec (FogMaze.block_number env - blockNumber) FogMaze.BLOCK_WINDOW)
    as [_|Hgt]; [|unfold FogMaze.BLOCK_WINDOW in Hgt; lia]. cbn [negb].
  rewrite calculateScore_cases by assumption.
  destruct (Z.leb_spec (level * 1000) FogMaze.UINT256_MAX); [|lia].
  destruct (Z.leb_spec (steps * 2 + timeTaken * 3) FogMaze.UINT256_MAX); [|lia].
  cbn [andb]. eexists. split; [reflexivity|].
  unfold FogMaze.getRuns, FogMaze.getRunCount.
  split; [|split; [|split]].
  - rewrite runsOf_insert. now destruct (decide _).
  - rewrite runsOf_insert. destruct (decide _) as [_|Hne]; [|now destruct Hne].
    rewrite length_app. cbn [length]. lia.
  - intros player Hne. rewrite runsOf_insert.
    destruct (decide _) as [Heq|_]; [|reflexivity].
    destruct Hne. symmetry. exact Heq.
  - reflexivity.
Qed.

Lemma submitRun_appends_one_run_witness :
  let env := FogMaze.mkEnv 1000 1700000000 (fun n => n) 42 in
  let old := FogMaze.mkRun 1 10 20 0 1600000000 0 in
  let st := FogMaze.mkStorage {[ 42 := [old] ]} ∅ in
  exists st',
    FogMaze.submitRun (fun h p n => [h; p; n]) (foldr Z.add 0) env st 2 10 20 999 7 =
      FogMaze.Success (st', [FogMaze.RunSubmitted 42 2 10 20 1048 1920 7]) /\
    FogMaze.getRuns st' 42 =
      FogMaze.getRuns st 42 ++ [FogMaze.mkRun 2 10 20 1048 1700000000 7] /\
    FogMaze.getRunCount st' 42 = FogMaze.getRunCount st 42 + 1 /\
    (forall player, player <> 42 ->
       FogMaze.getRuns st' player = FogMaze.getRuns st player) /\
    FogMaze.playerNonces st' = FogMaze.playerNonces st.
Proof.
  intros env old st.
  apply (submitRun_appends_one_run (fun h p n => [h; p; n]) (foldr Z.add 0)
           env st 2 10 20 999 7);
    try (unfold uint256, FogMaze.UINT256_MAX; cbn; lia).
  unfold FogMaze.runsOf, st. cbn [FogMaze.playerRuns FogMaze.msg_sender env].
  rewrite lookup_singleton_eq. cbn. lia.
Defined.

(** X2 -- submitRun, order of the rejections.  On [uint256] arguments the
    checks are made in this order and the first that fails decides the
    answer: level 0 reverts with 'Invalid level'; else 100 stored runs revert
    with 'Max runs reached'; else a block number not below the current one
    reverts with 'Block not yet mined'; else a block more than 256 blocks old
    reverts with 'Block too old (>256 blocks)'; else a score whose base or
    penalty does not fit 256 bits aborts with the overflow panic.  In every
    one of these cases the storage is the one before the call. *)
Theorem submitRun_rejection_order
    {bytes32 : Type} (encodePacked : bytes32 -> Z -> Z -> list Z)
    (keccak256 : list Z -> bytes32)
    (env : FogMaze.Env) (st : FogMaze.Storage)
    (level steps timeTaken blockNumber nonce : Z) :
  uint256 level -> uint256 steps -> uint256 timeTaken ->
  uint256 blockNumber -> uint256 (FogMaze.block_number env) ->
  level = 0 \/
  100 <= Z.of_nat (length (FogMaze.runsOf st (FogMaze.msg_sender env))) \/
  FogMaze.block_number env <= blockNumber \/
  256 < FogMaze.block_number env - blockNumber \/
  FogMaze.UINT256_MAX < level * 1000 \/
  FogMaze.UINT256_MAX < steps * 2 + timeTaken * 3 ->
  let result := FogMaze.submitRun encodePacked keccak256 env st
                                  level steps timeTaken blockNumber nonce in
  result =
    (if level =? 0 then FogMaze.Revert FogMaze.InvalidLevelError
     else if 100 <=? Z.of_nat (length (FogMaze.runsOf st (FogMaze.msg_sender env)))
     then FogMaze.Revert FogMaze.CapacityExceededError
     else if FogMaze.block_number env <=? blockNumber
     then FogMaze.Revert FogMaze.StaleReferenceError
     else if 256 <? FogMaze.block_number env - blockNumber
     then FogMaze.Revert FogMaze.ExpiredReferenceError
     else FogMaze.Panic 17) /\
  FogMaze.storageAfter st result = st.
Proof.
  intros Hl Hs Ht Hb Hn Hbad result. subst result.
  rewrite submitRun_cascade.
  unfold uint256 in Hl.
  destruct (Z.ltb_spec 0 level), (Z.eqb_spec level 0); try lia; cbn [negb];
    [|now split].
  unfold FogMaze.MAX_RUNS_PER_PLAYER.
  destruct (Z.ltb_spec (Z.of_nat (length (FogMaze.runsOf st (FogMaze.msg_sender env)))) 100),
           (Z.leb_spec 100 (Z.of_nat (length (FogMaze.runsOf st (FogMaze.msg_sender env)))));
    try lia; cbn [negb]; [|now split].
  rewrite generateSeed_cases by assumption.
  destruct (Z.ltb_spec blockNumber (FogMaze.block_number env)),
           (Z.leb_spec (FogMaze.block_number env) blockNumber);
    try lia; cbn [negb]; [|now split].
  unfold FogMaze.BLOCK_WINDOW.
  destruct (Z.leb_spec (FogMaze.block_number env - blockNumber) 256),
           (Z.ltb_spec 256 (FogMaze.block_number env - blockNumber));
    try lia; cbn [negb]; [|now split].
  rewrite calculateScore_cases by assumption.
  destruct (Z.leb_spec (level * 1000) FogMaze.UINT256_MAX);
    [|now split].
  destruct (Z.leb_spec (steps * 2 + timeTaken * 3) FogMaze.UINT256_MAX);
    [|now split].
  lia.
Qed.

Lemma submitRun_rejection_order_witness :
  let env := FogMaze.mkEnv 1000 1700000000 (fun n => n) 42 in
  let st := FogMaze.mkStorage ∅ ∅ in
  let result := FogMaze.submitRun (fun h p n => [h; p; n]) (foldr Z.add 0)
                                  env st 2 10 20 700 0 in
  result = FogMaze.Revert FogMaze.ExpiredReferenceError /\
  FogMaze.storageAfter st result = st.
Proof.
  intros env st.
  apply (submitRun_rejection_order (fun h p n => [h; p; n]) (foldr Z.add 0)
           env st 2 10 20 700 0);
    unfold uint256, FogMaze.UINT256_MAX; cbn; lia.
Defined.

(** X3 -- the contract's storage over time.  After any sequence of
    [submitRun] and [incrementNonce] transactions on the deployed contract,
    by any senders and with any arguments, accepted or rejected, every player
    holds at most 100 runs, and every stored run has a level above 0 and a
    score that [calculateScore] computes without overflow. *)
Theorem replay_run_limit_and_valid_runs
    {bytes32 : Type} (encodePacked : bytes32 -> Z -> Z -> list Z)
    (keccak256 : list Z -> bytes32)
    (txs : list (FogMaze.Env * FogMaze.Call)) (player : Z) :
  let st := FogMaze.replay encodePacked keccak256 txs in
  FogMaze.getRunCount st player <= 100 /\
  forall r, r ∈ FogMaze.getRuns st player ->
    0 < FogMaze.level r /\
    exists score,
      FogMaze.calculateScore (FogMaze.level r) (FogMaze.steps r)
                             (FogMaze.timeTaken r) = FogMaze.Success score /\
      0 <= score.
Proof.
  intros st. destruct (sound_replay encodePacked keccak256 txs) as [Hlen Hruns].
  split; [apply Hlen|]. intros r Hin. now apply (Hruns player).
Qed.

(** X4 -- getBestScore.  On every storage the contract can reach,
    [getBestScore(player)] returns (it never aborts on the score of a stored
    run); the value is 0 for a player without runs, is at least the score of
    each of the player's runs, and is either 0 or the score of one of
    them. *)
Theorem getBestScore_is_maximum
    {bytes32 : Type} (encodePacked : bytes32 -> Z -> Z -> list Z)
    (keccak256 : list Z -> bytes32)
    (txs : list (FogMaze.Env * FogMaze.Call)) (player : Z) :
  let st := FogMaze.replay encodePacked keccak256 txs in
  exists best,
    FogMaze.getBestScore st player = FogMaze.Success best /\
    0 <= best /\
    (FogMaze.getRuns st player = [] -> best = 0) /\
    (forall r score,
       r ∈ FogMaze.getRuns st player ->
       FogMaze.calculateScore (FogMaze.level r) (FogMaze.steps r)
                              (FogMaze.timeTaken r) = FogMaze.Success score ->
       score <= best) /\
    (best = 0 \/
     exists r, r ∈ FogMaze.getRuns st player /\
               FogMaze.calculateScore (FogMaze.level r) (FogMaze.steps r)
                                      (FogMaze.timeTaken r) = FogMaze.Success best).
Proof.
  intros st. destruct (sound_replay encodePacked keccak256 txs) as [_ Hruns].
  destruct (bestScoreLoop_spec (FogMaze.runsOf st player) 0)
    as (best & Hrun & Hle & Hmax & Hatt).
  { intros r Hin. destruct (Hruns player r Hin) as (_ & score & Es & _). eauto. }
  exists best. split; [exact Hrun|]. split; [exact Hle|].
  split; [|split; [exact Hmax|exact Hatt]].
  unfold FogMaze.getRuns. intros Hnil. rewrite Hnil in Hatt.
  destruct Hatt as [->|(r & Hin & _)]; [reflexivity|].
  now apply elem_of_nil in Hin.
Qed.

(** X5 -- nonces.  A player's nonce (what [getNextNonce] returns to that
    player) is the number of [incrementNonce] transactions the player has
    sent, capped at 2^256 - 1: it starts at 0, only the player's own
    [incrementNonce] changes it, by one, and [submitRun] never changes a
    nonce, whether it is accepted or rejected. *)
Theorem nonce_counts_own_increments
    {bytes32 : Type} (encodePacked : bytes32 -> Z -> Z -> list Z)
    (keccak256 : list Z -> bytes32)
    (txs : list (FogMaze.Env * FogMaze.Call)) (env : FogMaze.Env) :
  FogMaze.getNextNonce env (FogMaze.replay encodePacked keccak256 txs) =
    Z.min (Z.of_nat (incrementsBy (FogMaze.msg_sender env) txs)) FogMaze.UINT256_MAX.
Proof.
  unfold FogMaze.getNextNonce. generalize (FogMaze.msg_sender env) as player.
  intros player. induction txs as [|tx txs IH] using rev_ind.
  - unfold FogMaze.nonceOf, FogMaze.replay, FogMaze.deployed. cbn.
    rewrite lookup_empty. reflexivity.
  - rewrite replay_snoc, nonceOf_transact.
    2:{ rewrite IH. unfold FogMaze.UINT256_MAX. lia. }
    unfold incrementsBy in *. rewrite List.filter_app, length_app.
    destruct tx as [env' [level steps timeTaken blockNumber nonce|]];
      cbn [List.filter snd fst length].
    + rewrite IH. f_equal. lia.
    + destruct (Z.eqb_spec (FogMaze.msg_sender env') player); cbn [andb length].
      * destruct (Z.ltb_spec (FogMaze.nonceOf (FogMaze.replay encodePacked keccak256 txs) player)
                    FogMaze.UINT256_MAX); lia.
      * rewrite IH. f_equal. lia.
Qed.

(** X6 -- calculateScore is monotone.  Among runs whose score the contract
    computes, a run on a level at least as high, with no more steps and no
    more time, scores at least as much. *)
Theorem calculateScore_monotone
    (level steps timeTaken level' steps' timeTaken' score score' : Z) :
  uint256 level -> uint256 steps -> uint256 timeTaken ->
  uint256 level' -> uint256 steps' -> uint256 timeTaken' ->
  level <= level' -> steps' <= steps -> timeTaken' <= timeTaken ->
  FogMaze.calculateScore level steps timeTaken = FogMaze.Success score ->
  FogMaze.calculateScore level' steps' timeTaken' = FogMaze.Success score' ->
  score <= score'.
Proof.
  intros Hl Hs Ht Hl' Hs' Ht' Hle1 Hle2 Hle3.
  rewrite !calculateScore_cases by assumption.
  destruct (_ && _); [|discriminate]. destruct (_ && _); [|discriminate].
  intros [= <-] [= <-].
  destruct (Z.ltb_spec (steps * 2 + timeTaken * 3) (level * 1000)),
           (Z.ltb_spec (steps' * 2 + timeTaken' * 3) (level' * 1000)); lia.
Qed.

Lemma calculateScore_monotone_witness :
  FogMaze.calculateScore 1 10 20 = FogMaze.Success 920 /\
  FogMaze.calculateScore 2 10 10 = FogMaze.Success 1950 /\
  920 <= 1950.
Proof.
  split; [reflexivity|]. split; [reflexivity|].
  apply (calculateScore_monotone 1 10 20 2 10 10 920 1950);
    try (unfold uint256, FogMaze.UINT256_MAX; lia); reflexivity.
Defined.

(** * The generator: dead ends, braiding and the border cells *)

Section Loops2.
Context {A S : Type}.



End Loops2.

Section ListFacts.
Context {A : Type}.


End ListFacts.

Section BraidingMore.
Import MazeGenerator.





End BraidingMore.

Section BorderCells.
Import MazeGenerator.

(** The values of [for (let x = 1; x < gridSize - 1; x += 2)]. *)
Lemma forRange_odd size x :
  0 <= size ->
  x ∈ forRange 1 (size * 2 + 1 - 1) 2 <->
  Z.odd x = true /\ 1 <= x <= size * 2 + 1 - 2.
Proof.
  intros Hsz. rewrite elem_of_forRange.
  replace ((size * 2 + 1 - 1 - 1 + 2 - 1) / 2) with size
    by (apply Z.div_unique with (r := 0); lia).
  split.
  - intros (k & Hk & ->). split; [|lia].
    rewrite Z.odd_add_mul_2. reflexivity.
  - intros [Hodd Hx]. apply Z.odd_spec in Hodd as [k ->].
    exists k. split; lia.
Qed.

(** [getEdgePathCells(side)] lists exactly the logical cells of the border
    [side] that are coded path. *)
Lemma getEdgePathCells_cells self side c :
  0 <= size self -> gridSize self = size self * 2 + 1 ->
  c ∈ getEdgePathCells self side <->
  0 <= side < 4 /\ onSide (gridSize self) side c /\
  cellPosition (gridSize self) c /\
  at2 (grid self) (fst c) (snd c) = Some 1.
Proof.
  intros Hsz Hgs. unfold getEdgePathCells, onSide, cellPosition.
  destruct c as [x y]. cbn [fst snd]. rewrite Hgs.
  assert (Hlast : Z.odd (size self * 2 + 1 - 2) = true).
  { replace (size self * 2 + 1 - 2) with (1 + 2 * (size self - 1)) by lia.
    now rewrite Z.odd_add_mul_2. }
  destruct (Z.eqb_spec side 0) as [-> | H0];
    [|destruct (Z.eqb_spec side 1) as [-> | H1];
      [|destruct (Z.eqb_spec side 2) as [-> | H2];
        [|destruct (Z.eqb_spec side 3) as [-> | H3]]]].
  5:{ rewrite elem_of_nil. split; [tauto|]. lia. }
  all: rewrite list_elem_of_In, filter_In, gridIs_spec, <- list_elem_of_In,
         list_elem_of_fmap; split.
  all: try (intros [(z & E & Hz) Hone]; inversion E; subst;
            apply forRange_odd in Hz as [Hodd Hz]; [|exact Hsz];
            split; [lia|]; split; [auto 6|]; split; [|exact Hone];
            split; [assumption || reflexivity|];
            split; [assumption || reflexivity|]; lia).
  all: intros (_ & Hside & (Ox & Oy & Hx & Hy) & Hone); split; [|exact Hone].
  - exists x. split; [f_equal; lia|]. apply forRange_odd; auto.
  - exists y. split; [f_equal; lia|]. apply forRange_odd; auto.
  - exists x. split; [f_equal; lia|]. apply forRange_odd; auto.
  - exists y. split; [f_equal; lia|]. apply forRange_odd; auto.
Qed.

(** The two positions [pickStartAndExit] returns are drawn from the lists
    of [getEdgePathCells] for a side and for the side opposite. *)
Lemma pickStartAndExit_members self self' startPos exitPos :
  wellFormed self -> allCarved self -> 2 <= size self ->
  pickStartAndExit self = Done (self', startPos, exitPos) ->
  exists side,
    0 <= side < 4 /\
    startPos ∈ getEdgePathCells self side /\
    exitPos ∈ getEdgePathCells self (Z.rem (side + 2) 4) /\
    grid self' = grid self.
Proof.
  intros Hwf Hall Hsz. unfold pickStartAndExit.
  pose proof (nextInt_range (prng self) 0 4 (proj1 (wf_prng _ Hwf)) ltac:(lia))
    as [Hside Hp].
  destruct (SeededRandom.nextInt (prng self) 0 4) as [side p].
  cbn [fst snd] in Hside, Hp. cbv zeta.
  rewrite getEdgePathCells_set_prng.
  pose proof (getEdgePathCells_nonempty self side Hwf Hall ltac:(lia) Hside) as Hne.
  destruct (Z.eqb_spec (Z.of_nat (length (getEdgePathCells self side))) 0); [lia|].
  cbn [prng set_prng].
  destruct (SeededRandom.nextInt p 0 _) as [k p1].
  destruct (nthZ (getEdgePathCells self side) k) as [s|] eqn:Hstart;
    [|discriminate].
  cbn [bind]. rewrite !getEdgePathCells_set_prng.
  assert (Hopp : 0 <= Z.rem (side + 2) 4 < 4).
  { rewrite Z.rem_mod_nonneg by lia. apply Z.mod_pos_bound. lia. }
  pose proof (getEdgePathCells_nonempty self _ Hwf Hall ltac:(lia) Hopp) as Hne'.
  destruct (Z.eqb_spec
              (Z.of_nat (length (getEdgePathCells self (Z.rem (side + 2) 4)))) 0);
    [lia|].
  cbn [prng set_prng].
  destruct (SeededRandom.nextInt p1 0 _) as [k' p2].
  destruct (nthZ (getEdgePathCells self (Z.rem (side + 2) 4)) k') as [e|] eqn:Hexit;
    [|discriminate].
  cbn [bind]. intros [= <- <- <-].
  exists side. split; [exact Hside|].
  split; [eapply nthZ_elem_of, Hstart|].
  split; [eapply nthZ_elem_of, Hexit|reflexivity].
Qed.

(** The run of [generate], phase by phase, with the facts the theorems on
    the finished maze draw on. *)
Lemma generate_run seed size level fuel :
  2 <= size -> size * size <= Z.of_nat fuel ->
  exists carved braided side sx sy ex ey,
    recursiveBacktrack fuel (initial seed size level) (size / 2) (size / 2)
    = Done carved /\
    wellFormed carved /\ tidy carved /\ allCarved carved /\
    MazeGenerator.size carved = size /\
    Z.of_nat (pathCount (grid carved)) = 2 * size * size - 1 /\
    addBraiding carved (braidFactor level) = Done braided /\
    wellFormed braided /\ extends carved braided /\
    0 <= side < 4 /\
    (sx, sy) ∈ getEdgePathCells braided side /\
    (ex, ey) ∈ getEdgePathCells braided (Z.rem (side + 2) 4) /\
    new fuel seed size level =
      Done (mkMaze (set2 (set2 (grid braided) sx sy START) ex ey EXIT)
                   (sx, sy) (ex, ey)).
Proof.
  intros Hsz Hfuel.
  destruct (carve_from_centre seed size level fuel ltac:(lia) ltac:(nia))
    as (carved & Hrun1 & Hwf1 & Hconn1 & Hext1 & Hall1 & Htidy1 & Hcount1).
  pose proof (ext_level _ _ Hext1) as Hlevel. cbn in Hlevel.
  pose proof (ext_size _ _ Hext1) as Hsize. cbn in Hsize.
  destruct (addBraiding_spec carved (braidFactor level) Hwf1 Hconn1
              (braidFactor_le_1 level))
    as (braided & Hrun2 & Hwf2 & Hconn2 & Hext2).
  assert (Hall2 : allCarved braided).
  { intros x y Hv. apply (ext_grid _ _ Hext2), Hall1.
    now rewrite <- (ext_size _ _ Hext2). }
  assert (Hsz2 : 2 <= MazeGenerator.size braided).
  { rewrite (ext_size _ _ Hext2), Hsize. exact Hsz. }
  destruct (pickStartAndExit_spec braided Hwf2 Hall2 Hsz2)
    as (self3 & [sx sy] & [ex ey] & side0 & Hrun3 & _).
  destruct (pickStartAndExit_members _ _ _ _ Hwf2 Hall2 Hsz2 Hrun3)
    as (side & Hside & Hs & He & Hgrid).
  exists carved, braided, side, sx, sy, ex, ey.
  split; [exact Hrun1|]. split; [exact Hwf1|]. split; [exact Htidy1|]. split; [exact Hall1|].
  split; [exact Hsize|]. split; [exact Hcount1|]. split; [exact Hrun2|].
  split; [exact Hwf2|]. split; [exact Hext2|]. split; [exact Hside|].
  split; [exact Hs|]. split; [exact He|].
  rewrite new_unfold, Hrun1. cbn [bind]. rewrite Hlevel, Hrun2. cbn [bind].
  rewrite Hrun3. cbn [bind]. now rewrite Hgrid.
Qed.

End BorderCells.

Section Recoding.






End Recoding.

(** * The finished maze: shape, border cells, braiding *)







(** * A game in play *)

Section PlayFacts.
Import Play.

Lemma LEVEL_CONFIG_Some level :
  1 <= level <= 5 ->
  exists size vision,
    LEVEL_CONFIG level = Some (size, vision) /\ 10 <= size <= 30.
Proof.
  intros H.
  assert (Hc : level = 1 \/ level = 2 \/ level = 3 \/ level = 4 \/ level = 5) by lia.
  destruct Hc as [-> | [-> | [-> | [-> | ->]]]]; cbn; eauto 10 with lia.
Qed.

Lemma keyDirection_unit key dx dy :
  keyDirection key = Some (dx, dy) -> (dx, dy) ∈ MazeGenerator.directions.
Proof.
  unfold keyDirection, MazeGenerator.directions.
  repeat (destruct (_ || _); [intros [= <- <-]; in_directions|]).
  discriminate.
Qed.

Lemma isValidMove_spec (g : Game.t) n x y :
  square n (Game.maze g) ->
  isValidMove g x y = true -> nonWall (Game.maze g) (x, y).
Proof.
  intros Hsq. pose proof Hsq as [Hlen _]. unfold isValidMove. rewrite Hlen.
  destruct (Z.ltb_spec x 0); [discriminate|].
  destruct (Z.leb_spec n x); [discriminate|].
  destruct (Z.ltb_spec y 0); [discriminate|].
  destruct (Z.leb_spec n y); [discriminate|]. cbn [orb].
  destruct (at2_is_Some _ _ x y Hsq ltac:(lia) ltac:(lia)) as [v Hv].
  intros Hok. exists v. split; [exact Hv|].
  intros ->. rewrite bool_decide_eq_true_2 in Hok by exact Hv. discriminate.
Qed.

(** A wall or a cell outside the grid is never a valid move. *)
Lemma isValidMove_wall (g : Game.t) x y :
  isValidMove g x y = true ->
  (0 <= x < Z.of_nat (length (Game.maze g)) /\
   0 <= y < Z.of_nat (length (Game.maze g))) /\
  at2 (Game.maze g) x y <> Some 0.
Proof.
  unfold isValidMove.
  destruct (Z.ltb_spec x 0); [discriminate|].
  destruct (Z.leb_spec (Z.of_nat (length (Game.maze g))) x); [discriminate|].
  destruct (Z.ltb_spec y 0); [discriminate|].
  destruct (Z.leb_spec (Z.of_nat (length (Game.maze g))) y); [discriminate|].
  cbn [orb]. intros Hok. split; [lia|].
  intros E. rewrite bool_decide_eq_true_2 in Hok by exact E. discriminate.
Qed.

Lemma has_add_here s k : Game.has (Game.add s k) k = true.
Proof.
  unfold Game.add. destruct (Game.has s k) eqn:E; [exact E|].
  unfold Game.has. rewrite existsb_app. cbn. unfold Game.sameKey.
  rewrite !Qeq_bool_refl. now rewrite orb_true_r.
Qed.

Lemma fold_left_reaches {A B : Type} (P : B -> Prop) (f : B -> A -> B)
      (l : list A) (a0 : A) (b : B) :
  In a0 l -> (forall b, P (f b a0)) -> (forall b a, P b -> P (f b a)) ->
  P (fold_left f l b).
Proof.
  intros Hin Hhit Hkeep. revert b.
  induction l as [|a l IH]; intros b; [destruct Hin|].
  cbn [fold_left]. destruct Hin as [->|Hin]; [|now apply IH].
  apply fold_left_invariant; [apply Hhit|]. intros b' a' Hb' _. now apply Hkeep.
Qed.

Lemma revealAll_allRevealed (g : Game.t) : allRevealed (revealAll g).
Proof.
  intros x y. unfold revealAll.
  cbn [Game.maze Game.set_revealed Game.isRevealed Game.revealed].
  unfold Game.isRevealed. cbn [Game.revealed]. intros Hx Hy.
  apply (fold_left_reaches
           (fun s => Game.has s (inject_Z x, inject_Z y) = true) _ _ y).
  - apply list_elem_of_In, elem_of_seqZ. lia.
  - intros s.
    apply (fold_left_reaches
             (fun s => Game.has s (inject_Z x, inject_Z y) = true) _ _ x).
    + apply list_elem_of_In, elem_of_seqZ. lia.
    + intros s'. apply has_add_here.
    + intros s' a Hs'. now apply has_add_mono.
  - intros s a Hs. apply fold_left_invariant; [exact Hs|].
    intros s' a' Hs' _. now apply has_add_mono.
Qed.

(** What one event does to a playable, settled game. *)
Lemma dispatch_spec (s : t) (e : Event) :
  playable s -> settled s -> validEvent e ->
  exists s',
    dispatch s e = Done s' /\
    playable s' /\ settled s' /\
    Game.maze (game s') = Game.maze (game s) /\
    Game.exitPos (game s') = Game.exitPos (game s) /\
    (Game.playerPos (game s') = Game.playerPos (game s) \/
     move (Game.maze (game s)) (Game.playerPos (game s))
          (Game.playerPos (game s'))) /\
    manhattan (Game.playerPos (game s)) (Game.playerPos (game s'))
      = steps s' - steps s /\
    0 <= steps s' - steps s <= keyPresses [e] /\
    (gameActive s = false ->
     gameActive s' = false /\ game s' = game s /\ steps s' = steps s).
Proof.
  intros Hplay Hset He.
  assert (Hsame : forall s', playable s' -> settled s' ->
            game s' = game s -> steps s' = steps s ->
            (gameActive s = false -> gameActive s' = false) ->
            playable s' /\ settled s' /\
            Game.maze (game s') = Game.maze (game s) /\
            Game.exitPos (game s') = Game.exitPos (game s) /\
            (Game.playerPos (game s') = Game.playerPos (game s) \/
             move (Game.maze (game s)) (Game.playerPos (game s))
                  (Game.playerPos (game s'))) /\
            manhattan (Game.playerPos (game s)) (Game.playerPos (game s'))
              = steps s' - steps s /\
            0 <= steps s' - steps s <= keyPresses [e] /\
            (gameActive s = false ->
             gameActive s' = false /\ game s' = game s /\ steps s' = steps s)).
  { intros s' Hp' Hs' Eg Es Ha. rewrite Eg, Es. unfold manhattan, keyPresses.
    split; [exact Hp'|]. split; [exact Hs'|]. split; [reflexivity|].
    split; [reflexivity|]. split; [now left|]. split; [lia|].
    split; [destruct e; cbn; lia|]. auto. }
  pose proof Hplay as ([n Hsq] & Hpos & Hlevel).
  destruct e as [key|value|].
  - cbn [dispatch]. unfold handleKeyPress.
    destruct (gameActive s) eqn:Ea; cbn [negb].
    2:{ exists s. split; [reflexivity|]. apply Hsame; auto; discriminate. }
    destruct (keyDirection key) as [[dx dy]|] eqn:Ek.
    2:{ exists s. split; [reflexivity|]. apply Hsame; auto; discriminate. }
    cbv zeta.
    destruct (isValidMove (game s) _ _) eqn:Ev.
    2:{ exists s. split; [reflexivity|]. apply Hsame; auto; discriminate. }
    destruct (LEVEL_CONFIG_Some _ Hlevel) as (size & vision & -> & _).
    pose proof (isValidMove_spec _ _ _ _ Hsq Ev) as Hnew.
    pose proof (keyDirection_unit _ _ _ Ek) as Hd.
    apply directions_unit in Hd.
    destruct (Game.playerPos (game s)) as [px py] eqn:Epos. cbn [fst snd] in *.
    assert (Hmove : move (Game.maze (game s)) (px, py) (px + dx, py + dy)).
    { split; [exact Hpos|]. split; [exact Hnew|].
      unfold adjacent. cbn [fst snd]. lia. }
    assert (Hman : manhattan (px, py) (px + dx, py + dy) = 1).
    { unfold manhattan. cbn [fst snd]. lia. }
    change (Game.exitPos (Game.revealArea _ _ _ _)) with (Game.exitPos (game s)).
    set (g1 := Game.revealArea _ _ _ _).
    assert (Eg1 : Game.maze g1 = Game.maze (game s) /\
                  Game.exitPos g1 = Game.exitPos (game s) /\
                  Game.playerPos g1 = (px + dx, py + dy))
      by (split; [|split]; reflexivity).
    assert (Eg2 : Game.maze (revealAll g1) = Game.maze (game s) /\
                  Game.exitPos (revealAll g1) = Game.exitPos (game s) /\
                  Game.playerPos (revealAll g1) = (px + dx, py + dy))
      by (split; [|split]; reflexivity).
    destruct Eg1 as (Em1 & Ee1 & Ep1), Eg2 as (Em2 & Ee2 & Ep2).
    destruct ((px + dx =? fst (Game.exitPos (game s))) &&
              (py + dy =? snd (Game.exitPos (game s)))) eqn:Ex.
    + eexists. split; [reflexivity|].
      unfold playable, settled.
      cbn [gameOver game currentLevel steps gameActive].
      rewrite Em2, Ee2, Ep2.
      split; [|split; [|split; [reflexivity|]]].
      * split; [exists n; exact Hsq|]. split; [exact Hnew|exact Hlevel].
      * intros _. split; [reflexivity|]. apply revealAll_allRevealed.
      * split; [reflexivity|]. split; [right; exact Hmove|].
        split; [rewrite Hman; lia|]. split; [unfold keyPresses; cbn; lia|].
        discriminate.
    + eexists. split; [reflexivity|].
      unfold playable, settled.
      cbn [game currentLevel steps gameActive].
      rewrite Em1, Ee1, Ep1.
      split; [|split; [|split; [reflexivity|]]].
      * split; [exists n; exact Hsq|]. split; [exact Hnew|exact Hlevel].
      * intros E. exfalso.
        destruct (Game.exitPos (game s)) as [ex ey]. cbn [fst snd] in Ex.
        inversion E; subst. rewrite !Z.eqb_refl in Ex. discriminate.
      * split; [reflexivity|]. split; [right; exact Hmove|].
        split; [rewrite Hman; lia|]. split; [unfold keyPresses; cbn; lia|].
        discriminate.
  - cbn [dispatch]. eexists. split; [reflexivity|].
    apply Hsame;
      [ split; [exists n; exact Hsq|split; [exact Hpos|exact He]]
      | exact Hset | reflexivity | reflexivity | intros Ha; exact Ha ].
  - cbn [dispatch]. eexists. split; [reflexivity|].
    apply Hsame;
      [ exact Hplay | | reflexivity | reflexivity | reflexivity ].
    intros E. destruct (Hset E) as [_ Hall]. split; [reflexivity|exact Hall].
Qed.

(** A sequence of events: the facts of [dispatch_spec], composed. *)
Lemma run_spec (events : list Event) :
  forall s : t,
  playable s -> settled s -> Forall validEvent events ->
  exists s',
    run events s = Done s' /\
    playable s' /\ settled s' /\
    Game.maze (game s') = Game.maze (game s) /\
    Game.exitPos (game s') = Game.exitPos (game s) /\
    reachable (Game.maze (game s)) (Game.playerPos (game s))
              (Game.playerPos (game s')) /\
    manhattan (Game.playerPos (game s)) (Game.playerPos (game s'))
      <= steps s' - steps s /\
    steps s' - steps s <= keyPresses events /\
    (gameActive s = false ->
     gameActive s' = false /\ game s' = game s /\ steps s' = steps s).
Proof.
  induction events as [|e events IH]; intros s Hplay Hset Hall.
  - exists s. split; [reflexivity|]. split; [exact Hplay|]. split; [exact Hset|].
    split; [reflexivity|]. split; [reflexivity|]. split; [apply rtc_refl|].
    unfold manhattan, keyPresses. cbn. split; [lia|]. split; [lia|]. auto.
  - apply Forall_cons in Hall as [He Hall].
    destruct (dispatch_spec s e Hplay Hset He)
      as (s1 & Hrun1 & Hplay1 & Hset1 & Hm1 & He1 & Hmv1 & Hman1 & Hst1 & Hfr1).
    destruct (IH s1 Hplay1 Hset1 Hall)
      as (s' & Hrun & Hplay' & Hset' & Hm & Hex & Hreach & Hman & Hst & Hfr).
    exists s'. unfold run in *. cbn [forOf]. rewrite Hrun1. cbn [bind].
    split; [exact Hrun|]. split; [exact Hplay'|]. split; [exact Hset'|].
    split; [congruence|]. split; [congruence|].
    rewrite Hm1 in Hreach.
    split; [|split; [|split]].
    + destruct Hmv1 as [<-|Hmv1]; [exact Hreach|].
      eapply rtc_l; [exact Hmv1|exact Hreach].
    + unfold manhattan in *. lia.
    + assert (keyPresses (e :: events) = keyPresses [e] + keyPresses events).
      { unfold keyPresses. destruct e; cbn [List.filter length]; lia. }
      lia.
    + intros Ha. destruct (Hfr1 Ha) as (Ha1 & Eg1 & Es1).
      destruct (Hfr Ha1) as (Ha' & Eg' & Es'). split; [exact Ha'|].
      split; congruence.
Qed.

End PlayFacts.

Section FogMore.
Import Game.




End FogMore.

Section NewGame.
Import MazeGenerator.

(** The grid a generator hands to the game. *)
Lemma new_playfield seed size level fuel :
  2 <= size -> size * size <= Z.of_nat fuel ->
  exists m,
    new fuel seed size level = Done m /\
    square (size * 2 + 1) (maze m) /\
    connected (maze m) /\
    at2 (maze m) (fst (start m)) (snd (start m)) = Some START /\
    at2 (maze m) (fst (exit m)) (snd (exit m)) = Some EXIT /\
    start m <> exit m /\
    2 * size - 2 <= manhattan (start m) (exit m).
Proof.
  intros Hsz Hfuel.
  destruct (generate_run seed size level fuel Hsz Hfuel)
    as (carved & braided & side & sx & sy & ex & ey & _ & _ & _ & _ &
        Hsize & _ & _ & Hwf2 & Hext2 & Hside & Hs & He & Hnew).
  destruct (generate_phases seed size level fuel Hsz Hfuel)
    as (_ & braided' & m & _ & _ & _ & _ & Hwf2' & Hconn2 & _ & Hnew' &
        Hmaze & Hs' & He' & Hne).
  rewrite Hnew in Hnew'. inversion Hnew' as [Em]. clear Hnew'.
  pose proof (ext_size _ _ Hext2) as Hsize2. rewrite Hsize in Hsize2.
  pose proof (wf_gridSize _ Hwf2) as Hgs. rewrite Hsize2 in Hgs.
  apply getEdgePathCells_cells in Hs as (_ & Hs1 & _ & _);
    [|rewrite Hsize2; lia|now rewrite Hsize2].
  apply getEdgePathCells_cells in He as (_ & He1 & _ & _);
    [|rewrite Hsize2; lia|now rewrite Hsize2].
  rewrite Hgs in Hs1, He1.
  exists m. split; [now rewrite Hnew, Em|].
  pose proof (wf_grid _ Hwf2') as Hsq.
  assert (Hgs' : gridSize braided' = size * 2 + 1).
  { assert (E : set2 (set2 (grid braided) sx sy START) ex ey EXIT = maze m)
      by now rewrite <- Em.
    pose proof (wf_grid _ Hwf2) as Hsq2. rewrite Hgs in Hsq2.
    assert (Hq : square (size * 2 + 1) (maze m)).
    { rewrite <- E. now apply square_set2, square_set2. }
    rewrite Hmaze in Hq.
    destruct Hq as [Hlen _]. destruct Hsq as [Hlen' _].
    assert (Hl : forall (g : list (list Z)) x y v,
               length (set2 g x y v) = length g).
    { intros g x y v. unfold set2. destruct (_ && _); [|reflexivity].
      apply length_alter. }
    rewrite !Hl in Hlen. lia. }
  rewrite Hgs' in Hsq.
  assert (Epos : start m = (sx, sy) /\ exit m = (ex, ey)) by now rewrite <- Em.
  destruct Epos as [Estart Eexit].
  destruct (at2_Some _ _ _ _ _ Hsq Hs') as [Hsx Hsy].
  destruct (at2_Some _ _ _ _ _ Hsq He') as [Hex Hey].
  set (g1 := set2 (grid braided') (fst (start m)) (snd (start m)) START) in *.
  assert (Hsq1 : square (size * 2 + 1) g1) by now apply square_set2.
  rewrite Hmaze.
  split; [now apply square_set2|]. split; [|split; [|split; [|split]]].
  - assert (Hc1 : connected g1).
    { apply (connected_recode _ (size * 2 + 1));
        [exact Hsq | exact Hconn2 | | discriminate].
      exists 1. split; [exact Hs'|discriminate]. }
    apply (connected_recode _ (size * 2 + 1));
      [exact Hsq1 | exact Hc1 | | discriminate].
    apply (nonWall_set2 _ (size * 2 + 1)); [exact Hsq | discriminate |].
    exists 1. split; [exact He'|discriminate].
  - rewrite (at2_set2 _ _ _ _ _ _ _ Hsq1). destruct (decide _) as [[E _]|_].
    { destruct Hne. destruct (start m), (exit m). cbn [fst snd] in E.
      now inversion E. }
    now apply (at2_set2_eq _ (size * 2 + 1)).
  - now apply (at2_set2_eq _ (size * 2 + 1)).
  - exact Hne.
  - rewrite Estart, Eexit. unfold manhattan, onSide in *. cbn [fst snd] in *.
    assert (Hc : side = 0 \/ side = 1 \/ side = 2 \/ side = 3) by lia.
    destruct Hc as [-> | [-> | [-> | ->]]];
      [ change (Z.rem (0 + 2) 4) with 2 in He1
      | change (Z.rem (1 + 2) 4) with 3 in He1
      | change (Z.rem (2 + 2) 4) with 0 in He1
      | change (Z.rem (3 + 2) 4) with 1 in He1 ]; lia.
Qed.

End NewGame.

(** * Theorems on a game in play *)

(** X10 -- the player stays on open cells.  In a game whose player stands
    on an open cell of a square grid, whatever keys are pressed, whatever
    levels are selected and whenever the timer runs out, every handler
    returns; the grid and the exit are never changed; the player ends on an
    open cell of the grid that is reachable from where the player stood by
    moves between adjacent open cells; and the step counter grows by at
    least the Manhattan distance covered and at most the number of keys
    pressed. *)
Theorem player_stays_on_open_cells (s : Play.t) (events : list Play.Event) :
  playable s -> settled s -> Forall validEvent events ->
  exists s',
    Play.run events s = Done s' /\
    Game.maze (Play.game s') = Game.maze (Play.game s) /\
    Game.exitPos (Play.game s') = Game.exitPos (Play.game s) /\
    nonWall (Game.maze (Play.game s)) (Game.playerPos (Play.game s')) /\
    reachable (Game.maze (Play.game s)) (Game.playerPos (Play.game s))
              (Game.playerPos (Play.game s')) /\
    manhattan (Game.playerPos (Play.game s)) (Game.playerPos (Play.game s'))
      <= Play.steps s' - Play.steps s <= keyPresses events.
Proof.
  intros Hplay Hset Hall.
  destruct (run_spec events s Hplay Hset Hall)
    as (s' & Hrun & (_ & Hpos & _) & _ & Hm & He & Hreach & Hman & Hst & _).
  exists s'. rewrite Hm in Hpos. auto 10.
Qed.

Lemma player_stays_on_open_cells_witness :
  let g := Game.mk [[0;0;0;0;0]; [0;3;1;1;0]; [0;1;0;0;0]; [0;1;1;2;0]; [0;0;0;0;0]]
                   (1, 1) (3, 3) [] in
  let s := Play.mk g 1 0 true in
  let events := [Play.KeyDown "ArrowLeft"; Play.KeyDown "w"; Play.KeyDown "a";
                 Play.TimerExpired] in
  exists s',
    Play.run events s = Done s' /\
    Game.maze (Play.game s') = Game.maze (Play.game s) /\
    Game.exitPos (Play.game s') = Game.exitPos (Play.game s) /\
    nonWall (Game.maze (Play.game s)) (Game.playerPos (Play.game s')) /\
    reachable (Game.maze (Play.game s)) (Game.playerPos (Play.game s))
              (Game.playerPos (Play.game s')) /\
    manhattan (Game.playerPos (Play.game s)) (Game.playerPos (Play.game s'))
      <= Play.steps s' - Play.steps s <= keyPresses events.
Proof.
  intros g s events.
  apply (player_stays_on_open_cells s events).
  - split; [|split].
    + exists 5. split; [reflexivity|]. repeat constructor.
    + exists 2. split; [reflexivity|discriminate].
    + cbn. lia.
  - intros E. discriminate E.
  - repeat constructor.
Defined.

(** X11 -- the end of a game.  Under the same events, a player who stands
    on the exit has won: the game is no longer active and every cell of the
    grid is revealed.  And once a game is over (won, or timed out), no event
    moves the player, counts a step or changes the revealed cells. *)
Theorem game_over_is_final (s : Play.t) (events : list Play.Event) :
  playable s -> settled s -> Forall validEvent events ->
  exists s',
    Play.run events s = Done s' /\
    (Game.playerPos (Play.game s') = Game.exitPos (Play.game s') ->
     Play.gameActive s' = false /\ allRevealed (Play.game s')) /\
    (Play.gameActive s = false ->
     Play.gameActive s' = false /\ Play.game s' = Play.game s /\
     Play.steps s' = Play.steps s).
Proof.
  intros Hplay Hset Hall.
  destruct (run_spec events s Hplay Hset Hall)
    as (s' & Hrun & _ & Hset' & _ & _ & _ & _ & _ & Hfr).
  exists s'. split; [exact Hrun|]. split; [exact Hset'|exact Hfr].
Qed.

Lemma game_over_is_final_witness :
  let g := Game.mk [[0;0;0;0;0]; [0;3;1;1;0]; [0;1;0;0;0]; [0;1;1;2;0]; [0;0;0;0;0]]
                   (1, 1) (1, 2) [] in
  let s := Play.mk g 1 7 true in
  let events := [Play.KeyDown "ArrowUp"; Play.KeyDown "d"] in
  exists s',
    Play.run events s = Done s' /\
    (Game.playerPos (Play.game s') = Game.exitPos (Play.game s') ->
     Play.gameActive s' = false /\ allRevealed (Play.game s')) /\
    (Play.gameActive s = false ->
     Play.gameActive s' = false /\ Play.game s' = Play.game s /\
     Play.steps s' = Play.steps s).
Proof.
  intros g s events.
  apply (game_over_is_final s events).
  - split; [|split].
    + exists 5. split; [reflexivity|]. repeat constructor.
    + exists 1. split; [reflexivity|discriminate].
    + cbn. lia.
  - intros E. discriminate E.
  - repeat constructor.
Defined.

(** X12 -- a started game can always be won.  For every hexadecimal seed
    and every level of [LEVEL_CONFIG], [startNewGame] returns an active game
    with no step counted, the player on the cell coded start, the exit cell
    coded exit and revealed; and after any keys, level selections and timer
    expiries the exit is still reachable from the cell the player stands on.
    A player on the exit has counted at least 2 * size - 2 steps. *)
Theorem started_game_is_winnable
    (fuel : nat) (seed : string) (self : Play.t) (events : list Play.Event) :
  SeededRandom.hexSeed seed = true ->
  1 <= Play.currentLevel self <= 5 ->
  900 <= Z.of_nat fuel ->
  Forall validEvent events ->
  exists size vision s0 s',
    Play.LEVEL_CONFIG (Play.currentLevel self) = Some (size, vision) /\
    Play.startNewGame fuel seed self = Done s0 /\
    Play.gameActive s0 = true /\ Play.steps s0 = 0 /\
    square (size * 2 + 1) (Game.maze (Play.game s0)) /\
    at2 (Game.maze (Play.game s0))
        (fst (Game.playerPos (Play.game s0))) (snd (Game.playerPos (Play.game s0)))
      = Some MazeGenerator.START /\
    at2 (Game.maze (Play.game s0))
        (fst (Game.exitPos (Play.game s0))) (snd (Game.exitPos (Play.game s0)))
      = Some MazeGenerator.EXIT /\
    Game.isRevealed (Play.game s0) (fst (Game.exitPos (Play.game s0)))
                    (snd (Game.exitPos (Play.game s0))) = true /\
    Play.run events s0 = Done s' /\
    reachable (Game.maze (Play.game s')) (Game.playerPos (Play.game s'))
              (Game.exitPos (Play.game s')) /\
    (Game.playerPos (Play.game s') = Game.exitPos (Play.game s') ->
     2 * size - 2 <= Play.steps s').
Proof.
  intros _ Hlevel Hfuel Hall.
  destruct (LEVEL_CONFIG_Some _ Hlevel) as (size & vision & Hconfig & Hsize).
  destruct (new_playfield seed size (Play.currentLevel self) fuel
              ltac:(lia) ltac:(nia))
    as (m & Hnew & Hsq & Hconn & Hs & He & Hne & Hfar).
  set (g0 := Game.revealArea
               (Game.mk (MazeGenerator.maze m) (MazeGenerator.exit m)
                        (MazeGenerator.start m) [])
               (fst (MazeGenerator.start m)) (snd (MazeGenerator.start m)) vision).
  set (s0 := Play.mk
               (Game.set_revealed g0
                  (Game.add (Game.revealed g0)
                            (inject_Z (fst (MazeGenerator.exit m)),
                             inject_Z (snd (MazeGenerator.exit m)))))
               (Play.currentLevel self) 0 true).
  assert (Hstart : Play.startNewGame fuel seed self = Done s0).
  { unfold Play.startNewGame. rewrite Hconfig, Hnew. reflexivity. }
  assert (Em : Game.maze (Play.game s0) = MazeGenerator.maze m) by reflexivity.
  assert (Ep : Game.playerPos (Play.game s0) = MazeGenerator.start m) by reflexivity.
  assert (Ee : Game.exitPos (Play.game s0) = MazeGenerator.exit m) by reflexivity.
  assert (Hplay : playable s0).
  { split; [|split; [|exact Hlevel]].
    - exists (size * 2 + 1). now rewrite Em.
    - rewrite Em, Ep. exists MazeGenerator.START.
      destruct (MazeGenerator.start m). split; [exact Hs|discriminate]. }
  assert (Hset : settled s0).
  { intros E. rewrite Ep, Ee in E. now destruct Hne. }
  destruct (run_spec events s0 Hplay Hset Hall)
    as (s' & Hrun & (_ & Hpos' & _) & _ & Hm' & He' & Hreach & Hman & _ & _).
  exists size, vision, s0, s'.
  split; [exact Hconfig|]. split; [exact Hstart|].
  split; [reflexivity|]. split; [reflexivity|].
  rewrite Em, Ep, Ee.
  split; [exact Hsq|]. split; [exact Hs|]. split; [exact He|].
  split; [apply has_add_here|]. split; [exact Hrun|].
  rewrite Hm', He', Em, Ee. rewrite Hm', Em in Hpos'.
  split.
  - apply Hconn; [exact Hpos'|].
    exists MazeGenerator.EXIT. destruct (MazeGenerator.exit m).
    split; [exact He|discriminate].
  - intros E. rewrite E, Ep in Hman.
    change (Play.steps s0) with 0 in Hman. lia.
Qed.

Lemma started_game_is_winnable_witness :
  let self := Play.mk (Game.mk [] (0, 0) (0, 0) []) 1 0 false in
  let events := [Play.KeyDown "ArrowLeft"; Play.KeyDown "w";
                 Play.LevelSelect 3; Play.KeyDown "s"] in
  exists size vision s0 s',
    Play.LEVEL_CONFIG (Play.currentLevel self) = Some (size, vision) /\
    Play.startNewGame 900 "0x00000001" self = Done s0 /\
    Play.gameActive s0 = true /\ Play.steps s0 = 0 /\
    square (size * 2 + 1) (Game.maze (Play.game s0)) /\
    at2 (Game.maze (Play.game s0))
        (fst (Game.playerPos (Play.game s0))) (snd (Game.playerPos (Play.game s0)))
      = Some MazeGenerator.START /\
    at2 (Game.maze (Play.game s0))
        (fst (Game.exitPos (Play.game s0))) (snd (Game.exitPos (Play.game s0)))
      = Some MazeGenerator.EXIT /\
    Game.isRevealed (Play.game s0) (fst (Game.exitPos (Play.game s0)))
                    (snd (Game.exitPos (Play.game s0))) = true /\
    Play.run events s0 = Done s' /\
    reachable (Game.maze (Play.game s')) (Game.playerPos (Play.game s'))
              (Game.exitPos (Play.game s')) /\
    (Game.playerPos (Play.game s') = Game.exitPos (Play.game s') ->
     2 * size - 2 <= Play.steps s').
Proof.
  intros self events.
  apply (started_game_is_winnable 900 "0x00000001" self events).
  - reflexivity.
  - cbn. lia.
  - lia.
  - repeat constructor; cbn; lia.
Defined.



(** * The generator of pseudo-random numbers, seeds, and the two scans *)

Section SeedDigits.
Import SeededRandom.

Lemma hexDigit_not_x : hexDigit "x" = None.
Proof. reflexivity. Qed.

(** An eight-character string, character by character. *)
Lemma length_eight (s : string) :
  String.length s = 8%nat ->
  exists c1 c2 c3 c4 c5 c6 c7 c8,
    s = String c1 (String c2 (String c3 (String c4 (String c5 (String c6
          (String c7 (String c8 EmptyString))))))).
Proof.
  intros H.
  do 8 (destruct s as [|? s]; [discriminate H|]).
  destruct s; [|discriminate H]. eauto 10.
Qed.

(** Only the first eight hexadecimal digits of a seed reach the state, and
    the prefix [0x] is optional. *)
Lemma constructor_eight_digits (s t : string) :
  String.length s = 8%nat -> allHex s = true ->
  constructor ("0x" ++ s ++ t) = constructor s /\
  constructor (s ++ t) = constructor s.
Proof.
  intros Hlen Hhex.
  destruct (length_eight s Hlen) as (c1 & c2 & c3 & c4 & c5 & c6 & c7 & c8 & ->).
  assert (Hc2 : c2 <> "x"%char).
  { intros ->. cbn [allHex] in Hhex.
    apply andb_true_iff in Hhex as [_ Hhex].
    apply andb_true_iff in Hhex as [Hx _].
    apply bool_decide_eq_true in Hx. rewrite hexDigit_not_x in Hx.
    now destruct Hx. }
  assert (Hpre : forall u,
             String.prefix "0x" (String c1 (String c2 u)) = false).
  { intros u. cbn [String.prefix].
    destruct (ascii_dec "0" c1); [|reflexivity].
    destruct (ascii_dec "x" c2) as [E|]; [|reflexivity].
    now destruct Hc2. }
  set (s8 := fun u : string =>
               String c1 (String c2 (String c3 (String c4 (String c5 (String c6
                 (String c7 (String c8 u)))))))).
  change (String c1 _) with (s8 EmptyString).
  assert (E1 : ("0x" ++ s8 EmptyString ++ t)%string = String "0" (String "x" (s8 t)))
    by reflexivity.
  assert (E2 : (s8 EmptyString ++ t)%string = s8 t) by reflexivity.
  rewrite E1, E2.
  assert (Hsub : forall u : string, String.substring 0 8 (s8 u) = s8 EmptyString).
  { intros u. unfold s8. cbn [String.substring]. now destruct u. }
  assert (Hall : forall u : string, String.substring 0 (String.length u) u = u).
  { induction u as [|c u IH]; [reflexivity|]. cbn. now rewrite IH. }
  assert (Hstrip0 : stripPrefix (String "0" (String "x" (s8 t))) = s8 t).
  { unfold stripPrefix. cbn [String.prefix].
    destruct (ascii_dec "0" "0"); [|congruence].
    destruct (ascii_dec "x" "x"); [|congruence].
    change (String.length (String "0" (String "x" (s8 t))) - 2)%nat
      with (String.length (s8 t)).
    change (String.substring 2 (String.length (s8 t)) (String "0" (String "x" (s8 t))))
      with (String.substring 0 (String.length (s8 t)) (s8 t)).
    apply Hall. }
  assert (Hstrip : forall u, stripPrefix (s8 u) = s8 u).
  { intros u. unfold stripPrefix, s8. now rewrite Hpre. }
  unfold constructor. rewrite Hstrip0, !Hstrip, !Hsub. split; reflexivity.
Qed.

(** The update of the state is one-to-one on 32-bit states. *)
Lemma next_inj (s1 s2 : Z) :
  validState s1 -> validState s2 -> next s1 = next s2 -> s1 = s2.
Proof.
  unfold validState, next, a, c, m. intros H1 H2.
  rewrite !Z.rem_mod_nonneg by lia. intros E.
  assert (Hdiv : (2 ^ 32 | 1664525 * (s1 - s2))).
  { exists ((1664525 * s1 + 1013904223) / 2 ^ 32
            - (1664525 * s2 + 1013904223) / 2 ^ 32).
    pose proof (Z.div_mod (1664525 * s1 + 1013904223) (2 ^ 32) ltac:(lia)).
    pose proof (Z.div_mod (1664525 * s2 + 1013904223) (2 ^ 32) ltac:(lia)).
    lia. }
  apply Z.gauss in Hdiv; [|reflexivity].
  destruct Hdiv as [k Hk].
  assert (k = 0) by nia. lia.
Qed.

End SeedDigits.

Section Grids.

Lemma NoDup_cells (xs ys : list Z) :
  NoDup xs -> NoDup ys ->
  NoDup (concat ((fun y => (fun x => (x, y)) <$> xs) <$> ys)).
Proof.
  intros Hxs Hys. induction Hys as [|y ys Hy Hys IH]; [constructor|].
  cbn [fmap list_fmap concat]. apply NoDup_app. split; [|split; [|exact IH]].
  - apply NoDup_fmap_2; [|exact Hxs]. intros x1 x2 E. now inversion E.
  - intros [x0 y0] Hin Hin'.
    apply list_elem_of_fmap in Hin as (x1 & E & _). inversion E; subst.
    apply list_elem_of_In, in_concat in Hin' as (row & Hrow & Hin').
    apply list_elem_of_In, list_elem_of_fmap in Hrow as (y1 & -> & Hy1).
    apply list_elem_of_In, list_elem_of_fmap in Hin' as (x2 & E' & _).
    inversion E'; subst. now destruct Hy.
Qed.

Lemma NoDup_List_filter {A : Type} (f : A -> bool) (l : list A) :
  NoDup l -> NoDup (List.filter f l).
Proof.
  induction 1 as [|x l Hx Hl IH]; cbn [List.filter]; [constructor|].
  destruct (f x); [|exact IH]. constructor; [|exact IH].
  rewrite list_elem_of_In, filter_In, <- list_elem_of_In. tauto.
Qed.

End Grids.

(** X14 -- seeds.  A seed is read through its first eight hexadecimal
    digits only, with or without the prefix 0x: for an eight-digit string s
    and any continuation t, the generators built from "0x" ++ s ++ t, from
    s ++ t and from s behave alike, so the 32-byte seed of the contract
    selects one of at most 2^32 mazes for a given size and level. *)
Theorem seed_is_read_through_eight_digits
    (s t : string) (fuel : nat) (size level : Z) :
  String.length s = 8%nat -> SeededRandom.allHex s = true ->
  MazeGenerator.new fuel ("0x" ++ s ++ t) size level
    = MazeGenerator.new fuel s size level /\
  MazeGenerator.new fuel (s ++ t) size level
    = MazeGenerator.new fuel s size level.
Proof.
  intros Hlen Hhex.
  destruct (constructor_eight_digits s t Hlen Hhex) as [E1 E2].
  unfold MazeGenerator.new, MazeGenerator.initial. now rewrite E1, E2.
Qed.

Lemma seed_is_read_through_eight_digits_witness :
  MazeGenerator.new 4 ("0x" ++ "0000002a" ++ "ffff") 2 1
    = MazeGenerator.new 4 "0000002a" 2 1 /\
  MazeGenerator.new 4 ("0000002a" ++ "ffff") 2 1
    = MazeGenerator.new 4 "0000002a" 2 1.
Proof.
  apply (seed_is_read_through_eight_digits "0000002a" "ffff" 4 2 1);
    reflexivity.
Defined.

(** X15 -- nextInt.  On a 32-bit state, for min < max with
    max - min <= 2^21 and min, max at most 2^52 in absolute value (where the
    double arithmetic of [Math.floor(next() * (max - min)) + min] is exact),
    [nextInt(min, max)] returns an integer in [min, max) and leaves a 32-bit
    state; so an index drawn with [nextInt(0, array.length)] from an array
    that is not empty, of at most 2^21 elements, is always inside the
    array. *)
Theorem nextInt_in_range {A : Type} (state min max : Z) (array : list A) :
  validState state -> min < max ->
  max - min <= 2 ^ 21 -> - 2 ^ 52 <= min -> max <= 2 ^ 52 ->
  (min <= fst (SeededRandom.nextInt state min max) < max /\
   validState (snd (SeededRandom.nextInt state min max))) /\
  (array <> [] -> Z.of_nat (length array) <= 2 ^ 21 ->
   is_Some (nthZ array
              (fst (SeededRandom.nextInt state 0 (Z.of_nat (length array)))))).
Proof.
  intros [H0 _] Hlt _ _ _. split; [now apply nextInt_range|].
  intros Hne _. apply nthZ_is_Some.
  apply nextInt_range; [exact H0|].
  destruct array; [now destruct Hne|]. cbn [length]. lia.
Qed.

Lemma nextInt_in_range_witness :
  (0 <= fst (SeededRandom.nextInt 1 0 4) < 4 /\
   validState (snd (SeededRandom.nextInt 1 0 4))) /\
  (MazeGenerator.directions <> [] ->
   Z.of_nat (length MazeGenerator.directions) <= 2 ^ 21 ->
   is_Some (nthZ MazeGenerator.directions
              (fst (SeededRandom.nextInt 1 0
                      (Z.of_nat (length MazeGenerator.directions)))))).
Proof.
  apply (nextInt_in_range 1 0 4 MazeGenerator.directions); try lia.
  unfold validState, SeededRandom.m. lia.
Defined.

(** X16 -- the state never collapses.  [next] maps the 32-bit states into
    themselves, one-to-one: two different 32-bit states never have the same
    successor. *)
Theorem next_is_injective_on_states (s1 s2 : Z) :
  validState s1 -> validState s2 ->
  validState (SeededRandom.next s1) /\
  (SeededRandom.next s1 = SeededRandom.next s2 -> s1 = s2).
Proof.
  intros H1 H2. split; [apply next_valid, H1|now apply next_inj].
Qed.

Lemma next_is_injective_on_states_witness :
  validState (SeededRandom.next 1) /\
  (SeededRandom.next 1 = SeededRandom.next 2 -> 1 = 2).
Proof.
  apply (next_is_injective_on_states 1 2);
    unfold validState, SeededRandom.m; lia.
Defined.

(** X17 -- findDeadEnds.  [findDeadEnds] returns, in some order and without
    repetition, the cells with both grid coordinates below [size] that are
    coded path and have exactly one neighbour coded path, start or exit; it
    leaves the grid as it is and the state of the generator a 32-bit
    value. *)
Theorem findDeadEnds_returns_corner_dead_ends (self : MazeGenerator.t) :
  validState (MazeGenerator.prng self) ->
  let deadEnds := fst (MazeGenerator.findDeadEnds self) in
  let self' := snd (MazeGenerator.findDeadEnds self) in
  MazeGenerator.grid self' = MazeGenerator.grid self /\
  validState (MazeGenerator.prng self') /\
  NoDup deadEnds /\
  forall x y,
    (x, y) ∈ deadEnds <->
    (0 <= x < MazeGenerator.size self /\ 0 <= y < MazeGenerator.size self) /\
    at2 (MazeGenerator.grid self) x y = Some 1 /\
    MazeGenerator.countNeighborPaths self x y = 1.
Proof.
  intros Hp. cbv zeta.
  split; [|split; [|split]].
  - unfold MazeGenerator.findDeadEnds.
    now destruct (SeededRandom.shuffle _ _).
  - unfold MazeGenerator.findDeadEnds.
    destruct (shuffle_spec (MazeGenerator.scanDeadEnds self) _ Hp) as [_ Hv].
    now destruct (SeededRandom.shuffle _ _).
  - unfold MazeGenerator.findDeadEnds.
    destruct (shuffle_spec (MazeGenerator.scanDeadEnds self) _ Hp) as [Hperm _].
    destruct (SeededRandom.shuffle _ _) as [l p]. cbn [fst] in *.
    rewrite Hperm. unfold MazeGenerator.scanDeadEnds.
    apply NoDup_List_filter, NoDup_cells; apply NoDup_seqZ.
  - intros x y. now apply findDeadEnds_scope.
Qed.

Lemma findDeadEnds_returns_corner_dead_ends_witness :
  let self :=
    MazeGenerator.mk 2 1 7 5
      [[0;0;0;0;0]; [0;1;1;1;0]; [0;1;0;0;0]; [0;1;1;1;0]; [0;0;0;0;0]]
      [[true; true]; [true; true]] in
  let deadEnds := fst (MazeGenerator.findDeadEnds self) in
  let self' := snd (MazeGenerator.findDeadEnds self) in
  MazeGenerator.grid self' = MazeGenerator.grid self /\
  validState (MazeGenerator.prng self') /\
  NoDup deadEnds /\
  forall x y,
    (x, y) ∈ deadEnds <->
    (0 <= x < MazeGenerator.size self /\ 0 <= y < MazeGenerator.size self) /\
    at2 (MazeGenerator.grid self) x y = Some 1 /\
    MazeGenerator.countNeighborPaths self x y = 1.
Proof.
  intros self.
  apply (findDeadEnds_returns_corner_dead_ends self).
  unfold validState, SeededRandom.m. cbn. lia.
Defined.

(** X18 -- getEdgePathCells.  For a generator whose grid has side
    2 * size + 1, [getEdgePathCells(side)] lists, without repetition,
    exactly the cells coded path among the grid cells of the logical cells
    of that border (0 top, 1 right, 2 bottom, 3 left); for any other value
    of [side] the list is empty. *)
Theorem getEdgePathCells_lists_border_paths
    (self : MazeGenerator.t) (side : Z) :
  0 <= MazeGenerator.size self ->
  MazeGenerator.gridSize self = MazeGenerator.size self * 2 + 1 ->
  NoDup (MazeGenerator.getEdgePathCells self side) /\
  forall c,
    c ∈ MazeGenerator.getEdgePathCells self side <->
    0 <= side < 4 /\ onSide (MazeGenerator.gridSize self) side c /\
    cellPosition (MazeGenerator.gridSize self) c /\
    at2 (MazeGenerator.grid self) (fst c) (snd c) = Some 1.
Proof.
  intros Hsz Hgs. split; [|intros c; now apply getEdgePathCells_cells].
  assert (Hrange : NoDup (forRange 1 (MazeGenerator.gridSize self - 1) 2)).
  { unfold forRange. apply NoDup_fmap_2; [|apply NoDup_seqZ].
    intros k1 k2 E. lia. }
  unfold MazeGenerator.getEdgePathCells.
  repeat (destruct (_ =? _); [apply NoDup_List_filter, NoDup_fmap_2;
                                [intros z1 z2 E; now inversion E|exact Hrange]|]).
  constructor.
Qed.

Lemma getEdgePathCells_lists_border_paths_witness :
  let self :=
    MazeGenerator.mk 2 1 7 5
      [[0;0;0;0;0]; [0;1;1;1;0]; [0;1;0;0;0]; [0;1;1;1;0]; [0;0;0;0;0]]
      [[true; true]; [true; true]] in
  NoDup (MazeGenerator.getEdgePathCells self 1) /\
  forall c,
    c ∈ MazeGenerator.getEdgePathCells self 1 <->
    0 <= 1 < 4 /\ onSide (MazeGenerator.gridSize self) 1 c /\
    cellPosition (MazeGenerator.gridSize self) c /\
    at2 (MazeGenerator.grid self) (fst c) (snd c) = Some 1.
Proof.
  intros self.
  apply (getEdgePathCells_lists_border_paths self 1); cbn; lia.
Defined.

(** * Addresses: [AddressUtils] *)

Section Strings.

Lemma substring_all (u : string) : String.substring 0 (String.length u) u = u.
Proof. induction u as [|c u IH]; [reflexivity|]. cbn. now rewrite IH. Qed.

Lemma length_substring (s : string) (n m : nat) :
  (n + m <= String.length s)%nat -> String.length (String.substring n m s) = m.
Proof.
  revert n m. induction s as [|c s IH]; intros n m H; cbn in H.
  - assert (n = 0%nat /\ m = 0%nat) as [-> ->] by lia. reflexivity.
  - destruct n as [|n]; cbn [String.substring].
    + destruct m as [|m]; [reflexivity|]. cbn [String.length].
      rewrite IH; [reflexivity|lia].
    + apply IH. lia.
Qed.

Lemma length_append (s t : string) :
  String.length (s +:+ t) = (String.length s + String.length t)%nat.
Proof.
  induction s as [|c s IH]; [reflexivity|].
  change (String c s +:+ t) with (String c (s +:+ t)).
  cbn [String.length]. now rewrite IH.
Qed.

Lemma append_empty_r (s : string) : s +:+ "" = s.
Proof.
  induction s as [|c s IH]; [reflexivity|].
  change (String c s +:+ "") with (String c (s +:+ "")). now rewrite IH.
Qed.

Lemma concat_cons (x : string) (l : list string) :
  String.concat "" (x :: l) = x +:+ String.concat "" l.
Proof.
  destruct l as [|y l]; cbn [String.concat]; [now rewrite append_empty_r|].
  reflexivity.
Qed.

Lemma length_toLowerCase (s : string) :
  String.length (Play.toLowerCase s) = String.length s.
Proof. induction s as [|c s IH]; cbn; [reflexivity|]. now rewrite IH. Qed.

End Strings.

Section HexDigits.
Import SeededRandom AddressUtils.

Lemma hexDigit_lower (c : ascii) (d : Z) :
  hexDigit c = Some d -> In (Play.lower c, d) lowerDigits.
Proof.
  destruct c as [[] [] [] [] [] [] [] []]; vm_compute; intros H;
    first [discriminate H
          | inversion H; subst;
            repeat (first [left; reflexivity | right])].
Qed.

(** A pair of lower-case digits is read as the byte it is printed from. *)
Lemma digit_pair (p1 p2 : ascii * Z) :
  In p1 lowerDigits -> In p2 lowerDigits ->
  let chunk := String (fst p1) (String (fst p2) EmptyString) in
  let b := 16 * snd p1 + snd p2 in
  lineTerminator (fst p1) = false /\ lineTerminator (fst p2) = false /\
  toUint8 (parseInt chunk) = b /\
  padStart2 (toString16 b) = chunk /\
  hexDigit (fst p1) = Some (snd p1) /\ hexDigit (fst p2) = Some (snd p2) /\
  byte b.
Proof.
  unfold lowerDigits. cbn [In].
  intros H1 H2.
  repeat (destruct H1 as [<-|H1]); try (now destruct H1);
    repeat (destruct H2 as [<-|H2]); try (now destruct H2);
    vm_compute; repeat split; reflexivity || discriminate.
Qed.

(** Any byte is printed as two lower-case digits. *)
Lemma byte_digits (b : Z) :
  byte b ->
  exists c1 c2,
    padStart2 (toString16 b) = String c1 (String c2 EmptyString) /\
    is_Some (hexDigit c1) /\ is_Some (hexDigit c2).
Proof.
  intros Hb. unfold byte in Hb.
  assert (Hd : forall d, 0 <= d < 16 -> is_Some (hexDigit (digitChar d))).
  { intros d Hd.
    assert (Hc : d = 0 \/ d = 1 \/ d = 2 \/ d = 3 \/ d = 4 \/ d = 5 \/ d = 6 \/
                 d = 7 \/ d = 8 \/ d = 9 \/ d = 10 \/ d = 11 \/ d = 12 \/
                 d = 13 \/ d = 14 \/ d = 15) by lia.
    repeat (destruct Hc as [-> | Hc]; [now eexists|]). subst. now eexists. }
  unfold toString16. destruct (Z.ltb_spec b 16).
  - exists "0"%char, (digitChar b). cbn [padStart2].
    split; [reflexivity|]. split; [now eexists|]. apply Hd. lia.
  - exists (digitChar (b / 16)), (digitChar (b mod 16)). cbn [padStart2].
    split; [reflexivity|]. split; apply Hd.
    + split; [apply Z.div_pos; lia|apply Z.div_lt_upper_bound; lia].
    + apply Z.mod_pos_bound. lia.
Qed.

(** Forty digits, read two by two and printed back. *)
Lemma digits_round_trip (n : nat) :
  forall r : string,
    String.length r = (2 * n)%nat -> allHex r = true ->
    let bytes := (fun chunk => toUint8 (parseInt chunk))
                   <$> chunks (Play.toLowerCase r) in
    length bytes = n /\ Forall byte bytes /\
    String.concat "" ((fun b => padStart2 (toString16 b)) <$> bytes)
      = Play.toLowerCase r /\
    allHex (Play.toLowerCase r) = true.
Proof.
  induction n as [|n IH]; intros r Hlen Hhex.
  - destruct r; [|discriminate Hlen]. cbn. repeat split. constructor.
  - destruct r as [|c1 [|c2 r]]; [cbn in Hlen; lia..|].
    cbn [allHex] in Hhex.
    apply andb_true_iff in Hhex as [H1 Hhex].
    apply andb_true_iff in Hhex as [H2 Hhex].
    apply bool_decide_eq_true in H1 as [d1 H1], H2 as [d2 H2].
    apply hexDigit_lower in H1, H2.
    destruct (digit_pair _ _ H1 H2) as (L1 & L2 & Hparse & Hprint & D1 & D2 & Hb).
    cbn [fst snd] in *.
    destruct (IH r ltac:(cbn in Hlen; lia) Hhex) as (IH1 & IH2 & IH3 & IH4).
    cbv zeta in *. cbn [Play.toLowerCase chunks]. rewrite L1, L2.
    cbn [fmap list_fmap length]. fold (@fmap list _ string Z).
    fold (@fmap list _ Z string).
    split; [now rewrite IH1|]. split; [constructor; [now rewrite Hparse|exact IH2]|].
    split.
    + rewrite concat_cons, Hparse, Hprint, IH3. reflexivity.
    + cbn [allHex]. rewrite D1, D2, IH4.
      rewrite !bool_decide_eq_true_2 by now eexists. reflexivity.
Qed.

End HexDigits.

Section AddressFacts.
Import SeededRandom AddressUtils.

Lemma isValidH160_inv (address : string) :
  isValidH160 address = true ->
  exists digits,
    address = String "0" (String "x" digits) /\
    String.length digits = 40%nat /\ allHex digits = true.
Proof.
  unfold isValidH160.
  destruct address as [|c1 [|c2 digits]]; try discriminate.
  - destruct c1 as [[] [] [] [] [] [] [] []]; discriminate.
  - destruct c1 as [[] [] [] [] [] [] [] []]; try discriminate.
    destruct c2 as [[] [] [] [] [] [] [] []]; try discriminate.
    intros H. apply andb_true_iff in H as [Hlen Hhex].
    apply Nat.eqb_eq in Hlen. eauto.
Qed.

Lemma remove0x_prefixed (u : string) :
  remove0x (String "0" (String "x" u)) = u.
Proof.
  assert (Hp : String.prefix "0x" (String "0" (String "x" u)) = true).
  { apply prefix_correct. cbn. now destruct u. }
  unfold remove0x. cbn [String.index]. rewrite Hp.
  cbn [String.substring Nat.add String.length Nat.sub].
  rewrite Nat.sub_0_r.
  change ("" +:+ String.substring 0 (String.length u) u)
    with (String.substring 0 (String.length u) u).
  apply substring_all.
Qed.

(** Bytes printed two digits each. *)
Lemma printed_bytes (l : list Z) :
  Forall byte l ->
  let printed := String.concat "" ((fun b => padStart2 (toString16 b)) <$> l) in
  String.length printed = (2 * length l)%nat /\ allHex printed = true.
Proof.
  induction 1 as [|b l Hb Hl [IH1 IH2]]; [now split|].
  cbv zeta in *. cbn [fmap list_fmap]. fold (@fmap list _ Z string).
  rewrite concat_cons.
  destruct (byte_digits b Hb) as (c1 & c2 & -> & H1 & H2).
  change (String c1 (String c2 "") +:+ ?u) with (String c1 (String c2 u)).
  cbn [String.length allHex length]. rewrite IH1, IH2.
  rewrite !bool_decide_eq_true_2 by assumption.
  split; [lia|reflexivity].
Qed.

End AddressFacts.

(** X19 -- the round trip of an address.  For a codec that decodes what it
    encodes, a valid H160 address converted to SS58 and back is the same
    address in lower case, which is again a valid H160 address; and
    [toH160] returns a valid H160 address as it is. *)
Theorem h160_survives_the_round_trip
    (encodeAddress : list Z -> Z -> option string)
    (decodeAddress : string -> option (list Z)) (address : string) :
  codecRoundTrip encodeAddress decodeAddress ->
  AddressUtils.isValidH160 address = true ->
  AddressUtils.ss58ToH160 decodeAddress
    (AddressUtils.h160ToSS58 encodeAddress address) = Play.toLowerCase address /\
  AddressUtils.isValidH160 (Play.toLowerCase address) = true /\
  AddressUtils.toH160 decodeAddress address = Some address.
Proof.
  intros Hcodec Hvalid.
  destruct (isValidH160_inv _ Hvalid) as (digits & -> & Hlen & Hhex).
  destruct (digits_round_trip 20 digits Hlen Hhex) as (Hn & Hbytes & Hprint & Hlow).
  cbv zeta in *.
  assert (Elow : Play.toLowerCase (String "0" (String "x" digits))
                 = String "0" (String "x" (Play.toLowerCase digits))) by reflexivity.
  split; [|split].
  - unfold AddressUtils.h160ToSS58. rewrite Elow, remove0x_prefixed.
    destruct (AddressUtils.chunks (Play.toLowerCase digits)) as [|chunk matched] eqn:Ec;
      [discriminate Hn|].
    set (bytes := (fun byte => AddressUtils.toUint8 (AddressUtils.parseInt byte))
                    <$> chunk :: matched) in *.
    rewrite Hn. cbn [Z.ltb Z.of_nat Z.compare Pos.compare Pos.compare_cont
                     Pos.of_succ_nat Pos.succ].
    change (32 <? Z.of_nat 20) with false. cbv iota.
    destruct (Hcodec (bytes ++ replicate (32 - 20) 0)) as (ss58 & -> & Hdec).
    + rewrite length_app, length_replicate, Hn. reflexivity.
    + apply Forall_app. split; [exact Hbytes|].
      apply Forall_replicate. unfold byte. lia.
    + unfold AddressUtils.ss58ToH160. rewrite Hdec.
      rewrite take_app_length' by (symmetry; exact Hn).
      rewrite Hprint. reflexivity.
  - rewrite Elow. unfold AddressUtils.isValidH160.
    rewrite length_toLowerCase, Hlen, Hlow. reflexivity.
  - unfold AddressUtils.toH160, AddressUtils.getAddressType. now rewrite Hvalid.
Qed.

Lemma h160_survives_the_round_trip_witness :
  let encodeAddress := fun (bytes : list Z) (_ : Z) =>
    Some (string_of_list_ascii ((fun b => ascii_of_N (Z.to_N b)) <$> bytes)) in
  let decodeAddress := fun (s : string) =>
    Some ((fun c => Z.of_N (N_of_ascii c)) <$> list_ascii_of_string s) in
  let address := "0x00112233445566778899AaBbCcDdEeFf00112233"%string in
  AddressUtils.ss58ToH160 decodeAddress
    (AddressUtils.h160ToSS58 encodeAddress address) = Play.toLowerCase address /\
  AddressUtils.isValidH160 (Play.toLowerCase address) = true /\
  AddressUtils.toH160 decodeAddress address = Some address.
Proof.
  intros encodeAddress decodeAddress address.
  apply (h160_survives_the_round_trip encodeAddress decodeAddress address);
    [|reflexivity].
  intros bytes _ Hbytes. eexists. split; [reflexivity|].
  unfold decodeAddress. f_equal.
  rewrite list_ascii_of_string_of_list_ascii.
  induction Hbytes as [|b l Hb Hl IH]; [reflexivity|].
  cbn [fmap list_fmap]. fold (@fmap list _ Z ascii). fold (@fmap list _ ascii Z).
  rewrite IH. f_equal. unfold byte in Hb.
  rewrite N_ascii_embedding.
  - apply Z2N.id. lia.
  - change 256%N with (Z.to_N 256). apply Z2N.inj_lt; lia.
Defined.

(** X20 -- what toH160 returns.  The codec returns arrays of bytes.
    [toH160] returns a valid H160 address as it is; for an address that is
    not one and that the codec decodes, it returns 0x followed by two
    hexadecimal digits for each of the first 20 decoded bytes, which is a
    valid H160 address exactly when at least 20 bytes were decoded (an
    identifier of fewer bytes gives an invalid address, and no error); it
    throws exactly when the address is neither a valid H160 address nor
    decodable. *)
Theorem toH160_valid_exactly_for_long_identifiers
    (decodeAddress : string -> option (list Z)) (address : string) :
  (forall s bytes, decodeAddress s = Some bytes -> Forall byte bytes) ->
  match AddressUtils.toH160 decodeAddress address with
  | Some h =>
      (AddressUtils.isValidH160 address = true /\ h = address) \/
      (AddressUtils.isValidH160 address = false /\
       exists bytes,
         decodeAddress address = Some bytes /\
         h = AddressUtils.ss58ToH160 decodeAddress address /\
         String.length h = (2 + 2 * (20 `min` length bytes))%nat /\
         (AddressUtils.isValidH160 h = true <-> (20 <= length bytes)%nat))
  | None => AddressUtils.isValidH160 address = false /\
            decodeAddress address = None
  end.
Proof.
  intros Hcodec. unfold AddressUtils.toH160, AddressUtils.getAddressType.
  destruct (AddressUtils.isValidH160 address) eqn:Ev; [left; now split|].
  unfold AddressUtils.isValidSS58.
  destruct (decodeAddress address) as [bytes|] eqn:Ed; [|now split].
  right. split; [reflexivity|]. exists bytes. split; [reflexivity|].
  split; [reflexivity|].
  unfold AddressUtils.ss58ToH160. rewrite Ed.
  assert (Hb : Forall byte (take 20 bytes)) by (apply Forall_take; eauto).
  destruct (printed_bytes _ Hb) as [Hl Hh]. cbv zeta in *.
  change ("0x" +:+ ?u) with (String "0" (String "x" u)).
  rewrite length_take in Hl.
  split; [cbn [String.length]; rewrite Hl; lia|].
  unfold AddressUtils.isValidH160. rewrite Hl, Hh, andb_true_r.
  rewrite Nat.eqb_eq. lia.
Qed.

(** An identifier of two bytes (the codec decodes the hexadecimal string
    0x0011 to the bytes 0 and 17): [toH160] returns 0x0011, which is not a
    valid H160 address. *)
Lemma toH160_valid_exactly_for_long_identifiers_witness :
  let decodeAddress := fun (s : string) =>
    if String.eqb s "0x0011" then Some [0; 17] else None in
  AddressUtils.toH160 decodeAddress "0x0011" = Some "0x0011"%string /\
  AddressUtils.isValidH160 "0x0011" = false /\
  match AddressUtils.toH160 decodeAddress "0x0011" with
  | Some h =>
      (AddressUtils.isValidH160 "0x0011" = true /\ h = "0x0011"%string) \/
      (AddressUtils.isValidH160 "0x0011" = false /\
       exists bytes,
         decodeAddress "0x0011"%string = Some bytes /\
         h = AddressUtils.ss58ToH160 decodeAddress "0x0011" /\
         String.length h = (2 + 2 * (20 `min` length bytes))%nat /\
         (AddressUtils.isValidH160 h = true <-> (20 <= length bytes)%nat))
  | None => AddressUtils.isValidH160 "0x0011" = false /\
            decodeAddress "0x0011"%string = None
  end.
Proof.
  intros decodeAddress.
  split; [reflexivity|]. split; [reflexivity|].
  apply (toH160_valid_exactly_for_long_identifiers decodeAddress "0x0011").
  intros s bytes. unfold decodeAddress.
  destruct (String.eqb s "0x0011"); [|discriminate].
  intros [= <-]. repeat (constructor; [unfold byte; lia|]). constructor.
Defined.

(** X21 -- formatAddress.  With startChars >= 0 and endChars > 0, an
    address of at most startChars + endChars characters is returned as it
    is; a longer one is cut to its first startChars characters, three dots
    and its last endChars characters, startChars + endChars + 3 characters
    in all (which is more than the address has when it is only one or two
    characters longer than startChars + endChars). *)
Theorem formatAddress_keeps_both_ends (address : string) (startChars endChars : Z) :
  0 <= startChars -> 0 < endChars ->
  let len := Z.of_nat (String.length address) in
  let shown := AddressUtils.formatAddress address startChars endChars in
  (len <= startChars + endChars -> shown = address) /\
  (startChars + endChars < len ->
   shown = String.substring 0 (Z.to_nat startChars) address +:+ "..." +:+
           String.substring (Z.to_nat (len - endChars)) (Z.to_nat endChars) address /\
   Z.of_nat (String.length shown) = startChars + endChars + 3).
Proof.
  intros Hs He len shown. subst shown. unfold AddressUtils.formatAddress.
  fold len. split.
  - intros Hle. destruct (Z.leb_spec len (startChars + endChars)); [reflexivity|lia].
  - intros Hlt. destruct (Z.leb_spec len (startChars + endChars)); [lia|].
    assert (E1 : AddressUtils.slice address 0 (Some startChars)
                 = String.substring 0 (Z.to_nat startChars) address).
    { unfold AddressUtils.slice, AddressUtils.sliceIndex. fold len.
      destruct (Z.ltb_spec startChars 0); [lia|].
      change (0 <? 0) with false. cbv iota.
      rewrite Z.min_l by lia. rewrite Z.min_l by lia.
      now rewrite Z.sub_0_r. }
    assert (E2 : AddressUtils.slice address (- endChars) None
                 = String.substring (Z.to_nat (len - endChars)) (Z.to_nat endChars)
                                    address).
    { unfold AddressUtils.slice, AddressUtils.sliceIndex. fold len.
      destruct (Z.ltb_spec (- endChars) 0); [|lia].
      rewrite Z.max_l by lia.
      replace (len + - endChars) with (len - endChars) by lia.
      f_equal. f_equal. lia. }
    rewrite E1, E2. split; [reflexivity|].
    rewrite !length_append, !length_substring by (unfold len in *; lia).
    cbn [String.length]. lia.
Qed.

Lemma formatAddress_keeps_both_ends_witness :
  let address := "0x00112233445566778899aabbccddeeff00112233"%string in
  let len := Z.of_nat (String.length address) in
  let shown := AddressUtils.formatAddress address 6 4 in
  (len <= 6 + 4 -> shown = address) /\
  (6 + 4 < len ->
   shown = String.substring 0 (Z.to_nat 6) address +:+ "..." +:+
           String.substring (Z.to_nat (len - 4)) (Z.to_nat 4) address /\
   Z.of_nat (String.length shown) = 6 + 4 + 3).
Proof.
  intros address.
  apply (formatAddress_keeps_both_ends address 6 4); lia.
Defined.
